(** * RSI alert bot ([bot.py]): a shallow embedding and its properties

    The development follows the layout of the source file:

    - the part of Python's numeric tower that [compute_rsi] touches
      (arbitrary-precision [int], IEEE 754 binary64 [float], mixed
      arithmetic and the exceptions it raises);
    - list indexing, slicing and [range];
    - [compute_rsi] itself, next to the textbook (Wilder) definition the
      specification gives for it;
    - [check_symbol] and one cycle of [main], over an explicit state (the
      in-memory dedup mapping, the persisted snapshot, the alerts sent and
      the errors logged).

    Floats are modelled bit-exactly with [SpecFloat] at precision 53 and
    exponent bound 1024; nothing is idealised to real numbers.  The real
    numbers only serve, further down, to give floats a value so that range
    properties can be stated and proved. *)

From Stdlib Require Import ZArith List Lia Bool Reals Lra Floats.SpecFloat.
From Stdlib Require Import Ascii.
From stdpp Require Import gmap strings list fin_maps.

Local Open Scope Z_scope.

(* ===================================================================== *)
(** * Exceptions and the error monad *)
(* ===================================================================== *)

(** The exceptions that the modelled code can raise.  All of them derive
    from Python's [Exception], so the [except Exception] of [main] catches
    every one of them. *)
Inductive exn : Type :=
  | ZeroDivisionError
  | OverflowError
  | IndexError
  | TypeError
  | ValueError
  | OSError
  | RequestException.

Inductive result (A : Type) : Type :=
  | Ok (a : A)
  | Raise (e : exn).
Arguments Ok {A} a.
Arguments Raise {A} e.

#[global] Instance result_ret : MRet result := fun _ a => Ok a.
#[global] Instance result_bind : MBind result := fun _ _ f m =>
  match m with
  | Ok a => f a
  | Raise e => Raise e
  end.
#[global] Instance result_fmap : FMap result := fun _ _ f m =>
  match m with
  | Ok a => Ok (f a)
  | Raise e => Raise e
  end.

(** A [for] loop over a list that threads an accumulator and stops at the
    first exception. *)
Fixpoint foldM {S A : Type} (body : S -> A -> result S) (l : list A) (s : S)
  : result S :=
  match l with
  | [] => Ok s
  | x :: l' => s' ← body s x; foldM body l' s'
  end.

(* ===================================================================== *)
(** * Python numbers *)
(* ===================================================================== *)

(** ** binary64 floats *)

Definition prec : Z := 53.
Definition emax : Z := 1024.

Abbreviation float := spec_float.

Definition fadd : float -> float -> float := SFadd prec emax.
Definition fsub : float -> float -> float := SFsub prec emax.
Definition fmul : float -> float -> float := SFmul prec emax.
Definition fdiv : float -> float -> float := SFdiv prec emax.
Definition fneg : float -> float := SFopp.

(** The float nearest to an integer (ties to even); an integer beyond the
    range rounds to an infinity. *)
Definition float_lit (z : Z) : float := binary_normalize prec emax z 0 false.

Definition F0 : float := S754_zero false.
Definition F1 : float := Eval vm_compute in float_lit 1.
Definition F100 : float := Eval vm_compute in float_lit 100.

Definition is_nan (f : float) : bool :=
  match f with S754_nan => true | _ => false end.

Definition is_zero (f : float) : bool :=
  match f with S754_zero _ => true | _ => false end.

(** [float(z)] for an [int] [z], and the implicit conversion of an [int]
    operand in mixed arithmetic: correctly rounded, [OverflowError] when the
    integer is too large. *)
Definition float_of_int (z : Z) : result float :=
  match float_lit z with
  | S754_infinity _ => Raise OverflowError
  | f => Ok f
  end.

(** Exact comparison of a float with an integer (Python never rounds the
    integer for a comparison). *)
Definition float_cmp_int (f : float) (z : Z) : option comparison :=
  match f with
  | S754_nan => None
  | S754_infinity s => Some (if s then Lt else Gt)
  | S754_zero _ => Some (0 ?= z)
  | S754_finite s m e =>
      let v := cond_Zopp s (Zpos m) in
      Some (if 0 <=? e then v * 2 ^ e ?= z else v ?= z * 2 ^ (- e))
  end.

(** ** [int] and [float] values *)

Inductive pynum : Type :=
  | PInt (z : Z)
  | PFloat (f : float).

Definition to_float (x : pynum) : result float :=
  match x with
  | PInt z => float_of_int z
  | PFloat f => Ok f
  end.

Definition py_add (x y : pynum) : result pynum :=
  match x, y with
  | PInt a, PInt b => Ok (PInt (a + b))
  | _, _ => a ← to_float x; b ← to_float y; Ok (PFloat (fadd a b))
  end.

Definition py_sub (x y : pynum) : result pynum :=
  match x, y with
  | PInt a, PInt b => Ok (PInt (a - b))
  | _, _ => a ← to_float x; b ← to_float y; Ok (PFloat (fsub a b))
  end.

Definition py_mul (x y : pynum) : result pynum :=
  match x, y with
  | PInt a, PInt b => Ok (PInt (a * b))
  | _, _ => a ← to_float x; b ← to_float y; Ok (PFloat (fmul a b))
  end.

Definition py_neg (x : pynum) : pynum :=
  match x with
  | PInt a => PInt (- a)
  | PFloat f => PFloat (fneg f)
  end.

(** An integer as an unnormalised float with exponent 0, the operand form
    of the correctly rounded integer quotient. *)
Definition int_operand (z : Z) : float :=
  match z with
  | Z0 => S754_zero false
  | Zpos p => S754_finite false p 0
  | Zneg p => S754_finite true p 0
  end.

(** True division [x / y].  Two integers give the correctly rounded
    quotient ([OverflowError] when it is out of range); a zero divisor
    raises [ZeroDivisionError] for integers and floats alike. *)
Definition py_truediv (x y : pynum) : result pynum :=
  match x, y with
  | PInt a, PInt b =>
      if b =? 0 then Raise ZeroDivisionError
      else if a =? 0 then Ok (PFloat (S754_zero (b <? 0)))
      else match fdiv (int_operand a) (int_operand b) with
           | S754_infinity _ => Raise OverflowError
           | q => Ok (PFloat q)
           end
  | _, _ =>
      a ← to_float x; b ← to_float y;
      if is_zero b then Raise ZeroDivisionError else Ok (PFloat (fdiv a b))
  end.

(** Three-way comparison; [None] when a NaN is involved, in which case
    every ordering test below is false. *)
Definition py_compare (x y : pynum) : option comparison :=
  match x, y with
  | PInt a, PInt b => Some (a ?= b)
  | PFloat f, PFloat g => SFcompare f g
  | PFloat f, PInt b => float_cmp_int f b
  | PInt a, PFloat g => CompOpp <$> float_cmp_int g a
  end.

Definition py_lt (x y : pynum) : bool :=
  match py_compare x y with Some Lt => true | _ => false end.
Definition py_le (x y : pynum) : bool :=
  match py_compare x y with Some (Lt | Eq) => true | _ => false end.
Definition py_gt (x y : pynum) : bool := py_lt y x.
Definition py_ge (x y : pynum) : bool := py_le y x.
Definition py_eq (x y : pynum) : bool :=
  match py_compare x y with Some Eq => true | _ => false end.

(** [max(a, b)]: the first argument unless the second is strictly greater. *)
Definition py_max (a b : pynum) : pynum := if py_gt b a then b else a.

(** [sum(l)]: left to right, starting from the integer 0. *)
Definition py_sum (l : list pynum) : result pynum := foldM py_add l (PInt 0).

(* ===================================================================== *)
(** * Python lists *)
(* ===================================================================== *)

Definition py_len {A : Type} (l : list A) : Z := Z.of_nat (length l).

(** [sys.maxsize] on a 64-bit build: no list is longer. *)
Definition PY_SSIZE_T_MAX : Z := 2 ^ 63 - 1.

(** [l[i]], negative indices counting from the end. *)
Definition py_getitem {A : Type} (l : list A) (i : Z) : result A :=
  let j := if i <? 0 then i + py_len l else i in
  if j <? 0 then Raise IndexError
  else match l !! Z.to_nat j with
       | Some x => Ok x
       | None => Raise IndexError
       end.

(** [l[:n]]. *)
Definition py_slice_to {A : Type} (l : list A) (n : Z) : list A :=
  let k := if n <? 0 then n + py_len l else n in
  take (Z.to_nat k) l.

(** [range(a, b)]. *)
Definition py_range (a b : Z) : list Z := seqZ a (b - a).

(* ===================================================================== *)
(** * Utility *)
(* ===================================================================== *)

(** The text of the symbol list.

    A [str] is modelled as a [string], character by character; the three
    methods below are the ones of ASCII text, where [str.isspace] holds of
    the characters 9 to 13 and 28 to 32 and [str.upper] moves [a]..[z] to
    [A]..[Z]. *)

Definition isspace (c : ascii) : bool :=
  let n := N_of_ascii c in
  ((9 <=? n) && (n <=? 13) || (28 <=? n) && (n <=? 32))%N.

Definition islower (c : ascii) : bool :=
  let n := N_of_ascii c in ((97 <=? n) && (n <=? 122))%N.

Definition upper_char (c : ascii) : ascii :=
  if islower c then ascii_of_N (N_of_ascii c - 32) else c.

(** [s.upper()]. *)
Fixpoint upper (s : string) : string :=
  match s with
  | EmptyString => EmptyString
  | String c s' => String (upper_char c) (upper s')
  end.

Fixpoint lstrip (s : string) : string :=
  match s with
  | EmptyString => EmptyString
  | String c s' => if isspace c then lstrip s' else s
  end.

Fixpoint rstrip (s : string) : string :=
  match s with
  | EmptyString => EmptyString
  | String c s' =>
      match rstrip s' with
      | EmptyString => if isspace c then EmptyString else String c EmptyString
      | r => String c r
      end
  end.

(** [s.strip()]. *)
Definition strip (s : string) : string := rstrip (lstrip s).

(** [s.split(sep)] for a separator of one character: never an empty
    list. *)
Fixpoint split (sep : ascii) (s : string) : list string :=
  match s with
  | EmptyString => [EmptyString]
  | String c s' =>
      if Ascii.eqb c sep then EmptyString :: split sep s'
      else match split sep s' with
           | x :: l => String c x :: l
           | [] => [String c EmptyString]
           end
  end.

Definition parse_symbols (symbols_str : string) : list string :=
  (fun s => upper (strip s))
    <$> filter (fun s => strip s ≠ EmptyString) (split "," symbols_str).

(* ===================================================================== *)
(** * RSI calculation *)
(* ===================================================================== *)

(** One assignment of the smoothing loop,
    [avg = (avg * (period - 1) + x) / period]; the product is evaluated
    before [x], which in the loop is an indexing. *)
Definition smooth (period : Z) (avg : pynum) (x : result pynum)
  : result pynum :=
  t ← py_mul avg (PInt (period - 1));
  v ← x;
  u ← py_add t v;
  py_truediv u (PInt period).

Definition compute_rsi (closes : list pynum) (period : Z)
  : result (option pynum) :=
  if py_len closes <? period + 1 then Ok None
  else
    deltas ← mapM (fun i => a ← py_getitem closes i;
                            b ← py_getitem closes (i - 1);
                            py_sub a b)
                  (py_range 1 (py_len closes));
    let gains := (fun d => py_max d (PInt 0)) <$> deltas in
    let losses := (fun d => py_max (py_neg d) (PInt 0)) <$> deltas in
    sg ← py_sum (py_slice_to gains period);
    avg_gain ← py_truediv sg (PInt period);
    sl ← py_sum (py_slice_to losses period);
    avg_loss ← py_truediv sl (PInt period);
    avgs ← foldM (fun (avgs : pynum * pynum) i =>
                    avg_gain ← smooth period avgs.1 (py_getitem gains i);
                    avg_loss ← smooth period avgs.2 (py_getitem losses i);
                    Ok (avg_gain, avg_loss))
                 (py_range period (py_len deltas))
                 (avg_gain, avg_loss);
    if py_eq avgs.2 (PInt 0) then Ok (Some (PFloat F100))
    else
      rs ← py_truediv avgs.1 avgs.2;
      d ← py_add (PInt 1) rs;
      q ← py_truediv (PInt 100) d;
      r ← py_sub (PInt 100) q;
      Ok (Some r).

(** ** The reference definition

    Wilder's smoothed RSI as the specification words it: consecutive
    differences, split into gains and losses; both averages seeded with the
    simple average of the first [period] values; one smoothing step for
    each remaining delta; the final ratio with its zero-loss case.  It
    shares with [compute_rsi] the arithmetic of Python numbers and nothing
    else. *)

Definition gain (d : pynum) : pynum := py_max d (PInt 0).
Definition loss (d : pynum) : pynum := py_max (py_neg d) (PInt 0).

Fixpoint differences (closes : list pynum) : result (list pynum) :=
  match closes with
  | prev :: (cur :: _) as rest =>
      d ← py_sub cur prev; ds ← differences rest; Ok (d :: ds)
  | _ => Ok []
  end.

Definition mean (xs : list pynum) : result pynum :=
  s ← py_sum xs; py_truediv s (PInt (py_len xs)).

(** The recurrence [avg = (avg*(period-1) + x) / period]. *)
Definition wilder_update (period : Z) (avg x : pynum) : result pynum :=
  scaled ← py_mul avg (PInt (period - 1));
  total ← py_add scaled x;
  py_truediv total (PInt period).

Definition wilder_step (period : Z) (avgs : pynum * pynum) (d : pynum)
  : result (pynum * pynum) :=
  avgGain ← wilder_update period avgs.1 (gain d);
  avgLoss ← wilder_update period avgs.2 (loss d);
  Ok (avgGain, avgLoss).

Definition rsi_of_averages (avgGain avgLoss : pynum) : result pynum :=
  if py_eq avgLoss (PInt 0) then Ok (PFloat F100)
  else
    rs ← py_truediv avgGain avgLoss;
    d ← py_add (PInt 1) rs;
    q ← py_truediv (PInt 100) d;
    py_sub (PInt 100) q.

Definition wilder_rsi (closes : list pynum) (period : Z) : result pynum :=
  deltas ← differences closes;
  let first := take (Z.to_nat period) deltas in
  let remaining := drop (Z.to_nat period) deltas in
  avgGain ← mean (gain <$> first);
  avgLoss ← mean (loss <$> first);
  avgs ← foldM (wilder_step period) remaining (avgGain, avgLoss);
  rsi_of_averages avgs.1 avgs.2.

(* ===================================================================== *)
(** * Data fetch *)
(* ===================================================================== *)

(** A candle, reduced to the two fields the bot reads: [k[6]] (close time,
    epoch milliseconds) and [k[4]] (close price, already converted by
    [float]). *)
Record kline : Type := { close_time : Z; close : float }.

Definition extract_closed_closes (now_ms : Z) (klines : list kline)
  : list pynum * list Z :=
  fold_left
    (fun (acc : list pynum * list Z) k =>
       if close_time k <=? now_ms
       then (acc.1 ++ [PFloat (close k)], acc.2 ++ [close_time k])
       else acc)
    klines ([], []).

(* ===================================================================== *)
(** * Alerts and the bot's state *)
(* ===================================================================== *)

Inductive direction : Type := OVERSOLD | OVERBOUGHT.

(** The content of an alert message (the text itself is not modelled). *)
Record alert : Type := {
  a_symbol : string;
  a_interval : string;
  a_direction : direction;
  a_rsi : pynum;
  a_price : pynum;
  a_time : Z
}.

(** What the outside world answers during one call of [check_symbol]: the
    candles the exchange returns to [fetch_klines] (or the exception the
    request ends in), the clock read by [extract_closed_closes], and
    whether handing a message to the notification channels returns or
    raises. *)
Record io : Type := {
  response : result (list kline);
  now_ms : Z;
  deliver : alert -> result unit
}.

(** The dedup mapping is a dict of dicts, as [json.load] returns it:
    symbol, then ["last_oversold"] / ["last_overbought"], to a close
    time. *)
Abbreviation dedup := (gmap string (gmap string Z)).

Record bot : Type := {
  state : dedup;                (* the dict passed around by [main] *)
  state_file : option dedup;    (* content of state.json, if it exists *)
  alerts : list alert;          (* messages handed to [send_alert] *)
  requests : list string;       (* symbols whose candles were requested *)
  errors : list exn             (* exceptions logged by [main] *)
}.

Definition with_state (f : dedup -> dedup) (b : bot) : bot :=
  {| state := f (state b); state_file := state_file b; alerts := alerts b;
     requests := requests b; errors := errors b |}.

(** Computations that read and write the bot's state and may raise; what
    was written before an exception stays written. *)
Definition botM (A : Type) : Type := bot -> result A * bot.

#[global] Instance botM_ret : MRet botM := fun _ a b => (Ok a, b).
#[global] Instance botM_bind : MBind botM := fun _ _ f m b =>
  match m b with
  | (Ok a, b') => f a b'
  | (Raise e, b') => (Raise e, b')
  end.

Definition lift {A : Type} (r : result A) : botM A := fun b => (r, b).

Definition add_request (symbol : string) (b : bot) : bot :=
  {| state := state b; state_file := state_file b; alerts := alerts b;
     requests := requests b ++ [symbol]; errors := errors b |}.

Definition add_alert (a : alert) (b : bot) : bot :=
  {| state := state b; state_file := state_file b;
     alerts := alerts b ++ [a];
     requests := requests b; errors := errors b |}.

(** [fetch_klines(symbol, interval)]: the request is made, then answered
    or failed ([raise_for_status], a timeout, a body that is not JSON). *)
Definition fetch_klines (w : io) (symbol interval : string)
  : botM (list kline) := fun b =>
  (response w, add_request symbol b).

(** [send_alert(msg)]: the message is logged, then handed to the channels,
    which may raise. *)
Definition send_alert (w : io) (a : alert) : botM unit := fun b =>
  (deliver w a, add_alert a b).

(** [state.setdefault(symbol, {})]; the returned dict is the one stored in
    [state], so it is read and written below through [state]. *)
Definition setdefault (symbol : string) : botM unit := fun b =>
  (Ok (),
   match state b !! symbol with
   | Some _ => b
   | None => with_state <[symbol := ∅]> b
   end).

(** [symbol_state.get(key)]. *)
Definition get_field (symbol key : string) : botM (option Z) := fun b =>
  (Ok (state b !! symbol ≫= fun d => d !! key), b).

(** [symbol_state[key] = v]. *)
Definition set_field (symbol key : string) (v : Z) : botM unit := fun b =>
  (Ok (), with_state (alter <[key := v]> symbol) b).

(** ** The notification channels

    [send_alert] again, this time with the two channels it hands the
    message to.  The message is passed along untouched, so the
    definitions take it of any type [M]. *)
Module Channels.

(** An HTTP request of a channel, with what the bot puts in it. *)
Inductive request (M : Type) : Type :=
  | TelegramPost (token chat_id : string) (text : M)
  | WhatsAppGet (phone apikey : string) (text : M).
Arguments TelegramPost {M} token chat_id text.
Arguments WhatsAppGet {M} phone apikey text.

(** The two fields read of a response. *)
Record reply : Type := { status_code : Z; text : string }.

(** The lines written through [logging]. *)
Inductive line (M : Type) : Type :=
  | Alert (message : M)
  | TelegramError (text : string)
  | WhatsAppError (text : string).
Arguments Alert {M} message.
Arguments TelegramError {M} text.
Arguments WhatsAppError {M} text.

(** The process environment, and what [requests.post] and [requests.get]
    return or raise. *)
Record net (M : Type) : Type := {
  environ : gmap string string;
  http : request M → result reply
}.
Arguments environ {M} n.
Arguments http {M} n rq.

(** The requests attempted and the lines logged. *)
Record outbox (M : Type) : Type := {
  attempts : list (request M);
  log : list (line M)
}.
Arguments attempts {M} o.
Arguments log {M} o.

Definition attempt {M} (rq : request M) (o : outbox M) : outbox M :=
  {| attempts := attempts o ++ [rq]; log := log o |}.

Definition logging {M} (l : line M) (o : outbox M) : outbox M :=
  {| attempts := attempts o; log := log o ++ [l] |}.

(** [env(name)] as the channels call it, with the default [None] and
    [required=False]: the value of [os.getenv(name)]. *)
Definition env {M} (n : net M) (name : string) : option string :=
  environ n !! name.

Definition send_telegram {M} (n : net M) (message : M) (o : outbox M)
  : result unit * outbox M :=
  match env n "TELEGRAM_BOT_TOKEN", env n "TELEGRAM_CHAT_ID" with
  | Some (String _ _ as token), Some (String _ _ as chat_id) =>
      let rq := TelegramPost token chat_id message in
      match http n rq with
      | Ok r =>
          (Ok (),
           if bool_decide (status_code r ≠ 200)
           then logging (TelegramError (text r)) (attempt rq o)
           else attempt rq o)
      | Raise e => (Raise e, attempt rq o)
      end
  | _, _ => (Ok (), o)
  end.

Definition send_whatsapp {M} (n : net M) (message : M) (o : outbox M)
  : result unit * outbox M :=
  match env n "CALLMEBOT_PHONE", env n "CALLMEBOT_APIKEY" with
  | Some (String _ _ as phone), Some (String _ _ as apikey) =>
      let rq := WhatsAppGet phone apikey message in
      match http n rq with
      | Ok r =>
          (Ok (),
           if bool_decide (status_code r ≠ 200)
           then logging (WhatsAppError (text r)) (attempt rq o)
           else attempt rq o)
      | Raise e => (Raise e, attempt rq o)
      end
  | _, _ => (Ok (), o)
  end.

Definition send_alert {M} (n : net M) (message : M) (o : outbox M)
  : result unit * outbox M :=
  match send_telegram n message (logging (Alert message) o) with
  | (Ok _, o1) => send_whatsapp n message o1
  | (Raise e, o1) => (Raise e, o1)
  end.

End Channels.

(* ===================================================================== *)
(** * Core logic *)
(* ===================================================================== *)

(** An ordering test on an RSI value; [None] cannot be ordered against a
    number. *)
Definition rsi_test (op : pynum -> pynum -> bool) (rsi : option pynum)
    (threshold : pynum) : botM bool :=
  lift (match rsi with
        | Some v => Ok (op v threshold)
        | None => Raise TypeError
        end).

(** The message of an alert; formatting the RSI with [:.2f] needs a
    number. *)
Definition alert_of (symbol interval : string) (dir : direction)
    (current_rsi last_price : pynum) (last_close_time : Z) : alert :=
  {| a_symbol := symbol; a_interval := interval; a_direction := dir;
     a_rsi := current_rsi; a_price := last_price;
     a_time := last_close_time |}.

Definition message (symbol interval : string) (dir : direction)
    (current_rsi : option pynum) (last_price : pynum) (last_close_time : Z)
  : result alert :=
  match current_rsi with
  | Some v => Ok (alert_of symbol interval dir v last_price last_close_time)
  | None => Raise TypeError
  end.

(** [a and b] on two ordering tests, the second evaluated only when the
    first holds. *)
Definition both (a b : botM bool) : botM bool :=
  x ← a; if x : bool then b else mret false.

(** One of the two symmetric [if] blocks of [check_symbol]: [crossed] is
    the outer condition, [key] the dedup field of the block. *)
Definition crossing (w : io) (symbol interval : string) (dir : direction)
    (key : string) (crossed : botM bool) (current_rsi : option pynum)
    (last_price : pynum) (last_close_time : Z) : botM unit :=
  c ← crossed;
  if c : bool then
    last ← get_field symbol key;
    if bool_decide (last ≠ Some last_close_time) then
      msg ← lift (message symbol interval dir current_rsi last_price
                          last_close_time);
      send_alert w msg;;
      set_field symbol key last_close_time
    else mret ()
  else mret ().

(** The part of [check_symbol] from [state.setdefault] to its end. *)
Definition evaluate (w : io) (symbol interval : string)
    (oversold overbought : pynum) (current_rsi previous_rsi : option pynum)
    (last_close_time : Z) (last_price : pynum) : botM unit :=
  setdefault symbol;;
  (* Cross into oversold *)
  crossing w symbol interval OVERSOLD "last_oversold"
           (both (rsi_test py_gt previous_rsi oversold)
                 (rsi_test py_le current_rsi oversold))
           current_rsi last_price last_close_time;;
  (* Cross into overbought *)
  crossing w symbol interval OVERBOUGHT "last_overbought"
           (both (rsi_test py_lt previous_rsi overbought)
                 (rsi_test py_ge current_rsi overbought))
           current_rsi last_price last_close_time.

(** The close times, in milliseconds, of the first and of the last
    millisecond of the years 1 to 9999, the range of [datetime]. *)
Definition MIN_TIME_MS : Z := -62135596800000.
Definition MAX_TIME_MS : Z := 253402300799999.

(** [datetime.fromtimestamp(last_close_time / 1000, tz=timezone.utc)
    .strftime("%Y-%m-%d %H:%M UTC")].  The text goes into the message,
    which is not modelled; what is kept is when the expression raises.
    The quotient is the correctly rounded float ([OverflowError] beyond
    the floats); the conversion succeeds exactly on the instants of the
    years 1 to 9999.  Outside them the exception is, in CPython 3.11 on
    64-bit Linux: [OverflowError] when the seconds are beyond [time_t],
    [OSError] when [gmtime] cannot hold the year, [ValueError]
    otherwise. *)
Definition readable_time (last_close_time : Z) : result unit :=
  seconds ← py_truediv (PInt last_close_time) (PInt 1000);
  if (MIN_TIME_MS <=? last_close_time) && (last_close_time <=? MAX_TIME_MS)
  then Ok ()
  else if py_lt seconds (PInt (- 2 ^ 63)) || py_gt seconds (PInt (2 ^ 63))
  then Raise OverflowError
  else if py_lt seconds (PInt (-67768040609740800))
          || py_gt seconds (PInt 67768036191676799)
  then Raise OSError
  else Raise ValueError.

Definition check_symbol (w : io) (symbol interval : string) (period : Z)
    (oversold overbought : pynum) : botM unit :=
  klines ← fetch_klines w symbol interval;
  let (closes, times) := extract_closed_closes (now_ms w) klines in
  if py_len closes <? period + 2 then mret ()
  else
    current_rsi ← lift (compute_rsi closes period);
    previous_rsi ← lift (compute_rsi (py_slice_to closes (-1)) period);
    last_close_time ← lift (py_getitem times (-1));
    last_price ← lift (py_getitem closes (-1));
    lift (readable_time last_close_time);;
    evaluate w symbol interval oversold overbought current_rsi previous_rsi
             last_close_time last_price.

(** The configuration [main] reads from the environment. *)
Record config : Type := {
  symbols : list string;
  interval : string;
  period : Z;
  oversold : float;
  overbought : float
}.

(** The [for] loop of [main]; [ios k] is what the world answers during the
    [k]-th call of [check_symbol]. *)
Fixpoint for_symbols (c : config) (ios : nat -> io) (k : nat)
    (syms : list string) : botM unit :=
  match syms with
  | [] => mret ()
  | symbol :: rest =>
      check_symbol (ios k) symbol (interval c) (period c)
                   (PFloat (oversold c)) (PFloat (overbought c));;
      for_symbols c ios (S k) rest
  end.

Definition save_state : botM unit := fun b =>
  (Ok (),
   {| state := state b; state_file := Some (state b); alerts := alerts b;
      requests := requests b; errors := errors b |}).

Definition log_error (e : exn) (b : bot) : bot :=
  {| state := state b; state_file := state_file b; alerts := alerts b;
     requests := requests b; errors := errors b ++ [e] |}.

(** One pass of the [while] loop of [main], up to the sleep: the [try]
    block, and the handler that logs whatever it raised. *)
Definition cycle (c : config) (ios : nat -> io) (b : bot) : bot :=
  match (for_symbols c ios 0 (symbols c);; save_state) b with
  | (Ok _, b') => b'
  | (Raise e, b') => log_error e b'
  end.

(* ===================================================================== *)
(** * Vocabulary of the statements *)
(* ===================================================================== *)

(** Float constants used by the examples of the specification. *)
Definition F25 : float := Eval vm_compute in float_lit 25.
Definition F28 : float := Eval vm_compute in float_lit 28.
Definition F30 : float := Eval vm_compute in float_lit 30.
Definition F35 : float := Eval vm_compute in float_lit 35.
Definition F69 : float := Eval vm_compute in float_lit 69.
Definition F70 : float := Eval vm_compute in float_lit 70.
Definition F71 : float := Eval vm_compute in float_lit 71.

(** The alerts a run added, the run taking the bot from [b] to [b']. *)
Definition new_alerts (b b' : bot) : list alert :=
  drop (length (alerts b)) (alerts b').

Definition fires (dir : direction) (b b' : bot) : Prop :=
  ∃ a, a ∈ new_alerts b b' ∧ a_direction a = dir.

(** The stored close time of the last alert of a kind for a symbol. *)
Definition last_alert_time (key symbol : string) (b : bot) : option Z :=
  state b !! symbol ≫= fun d => d !! key.

(** Every message handed to the notification channels is delivered. *)
Definition delivers (w : io) : Prop := ∀ a, deliver w a = Ok ().

(** The bot at its first start: nothing stored, no state file. *)
Definition fresh : bot :=
  {| state := ∅; state_file := None; alerts := []; requests := [];
     errors := [] |}.

Definition succeeded {A : Type} (r : result A) : bool :=
  match r with Ok _ => true | Raise _ => false end.

(** The dedup field that belongs to a direction. *)
Definition dedup_key (dir : direction) : string :=
  match dir with
  | OVERSOLD => "last_oversold"
  | OVERBOUGHT => "last_overbought"
  end.

(** The two crossing conditions of [check_symbol]. *)
Definition into_oversold (oversold prev cur : pynum) : bool :=
  py_gt prev oversold && py_le cur oversold.
Definition into_overbought (overbought prev cur : pynum) : bool :=
  py_lt prev overbought && py_ge cur overbought.

(** The condition of the block for a direction. *)
Definition crossed_into (oversold overbought prev cur : pynum)
    (dir : direction) : bool :=
  match dir with
  | OVERSOLD => into_oversold oversold prev cur
  | OVERBOUGHT => into_overbought overbought prev cur
  end.

(** A block whose condition evaluated to [crossed] sends an alert when the
    stored close time differs from [t]. *)
Definition fired (symbol : string) (t : Z) (dir : direction)
    (crossed : bool) (b : bot) : bool :=
  crossed && bool_decide (last_alert_time (dedup_key dir) symbol b ≠ Some t).

(** What one of the two blocks of [check_symbol] does once its outer
    condition has been evaluated to [crossed]. *)
Definition block (w : io) (symbol interval : string) (cur : pynum) (t : Z)
    (price : pynum) (dir : direction) (crossed : bool) (b : bot)
  : result unit * bot :=
  if fired symbol t dir crossed b
  then
    let a := alert_of symbol interval dir cur price t in
    (deliver w a,
     match deliver w a with
     | Ok _ => with_state (alter <[dedup_key dir := t]> symbol)
                          (add_alert a b)
     | Raise _ => add_alert a b
     end)
  else (Ok (), b).

(** Floats other than NaN are ordered like the triples below, compared
    lexicographically: the class, then the exponent, then the mantissa. *)
Definition rank (f : float) : Z * Z * Z :=
  match f with
  | S754_nan => (0, 0, 0)
  | S754_zero _ => (0, 0, 0)
  | S754_infinity s => (if s then -2 else 2, 0, 0)
  | S754_finite false m e => (1, e, Zpos m)
  | S754_finite true m e => (-1, - e, Zneg m)
  end.

Definition lex_compare (a b : Z * Z * Z) : comparison :=
  match a.1.1 ?= b.1.1 with
  | Eq => match a.1.2 ?= b.1.2 with
          | Eq => a.2 ?= b.2
          | c => c
          end
  | c => c
  end.

(** A computation relates every bot it starts from to the one it leaves
    behind, whether it returns or raises. *)
Definition preserves {A : Type} (R : bot → bot → Prop) (m : botM A) : Prop :=
  ∀ b, R b (m b).2.

(** What a call of [check_symbol] for [symbol] leaves alone. *)
Definition untouched (symbol : string) (b b' : bot) : Prop :=
  (∀ s, s ≠ symbol → state b' !! s = state b !! s)
  ∧ (∀ key, key ≠ "last_oversold" → key ≠ "last_overbought" →
            last_alert_time key symbol b' = last_alert_time key symbol b)
  ∧ state_file b' = state_file b
  ∧ errors b' = errors b.

(** What [check_symbol] leaves alone once its request is made: the list
    of requests, the state file and the error log. *)
Definition same_trace (b b' : bot) : Prop :=
  requests b' = requests b ∧ state_file b' = state_file b
  ∧ errors b' = errors b.

(** ** A cycle in which the second request fails *)

Definition F2 : float := Eval vm_compute in float_lit 2.

(** Three closed candles: up, then down. *)
Definition dip : list kline :=
  [ {| close_time := 1; close := F1 |};
    {| close_time := 2; close := F2 |};
    {| close_time := 3; close := F1 |} ].

Definition exchange_up : io :=
  {| response := Ok dip; now_ms := 10; deliver := fun _ => Ok () |}.
Definition exchange_down : io :=
  {| response := Raise RequestException; now_ms := 10;
     deliver := fun _ => Ok () |}.

(** The exchange answers, the notification channels fail. *)
Definition channels_down : io :=
  {| response := Ok dip; now_ms := 10;
     deliver := fun _ => Raise RequestException |}.

(** The second request of the cycle fails. *)
Definition second_fails (k : nat) : io :=
  match k with 1%nat => exchange_down | _ => exchange_up end.

Definition three_symbols : config :=
  {| symbols := ["AAA"; "BBB"; "CCC"]; interval := "15m"; period := 1;
     oversold := F30; overbought := F70 |}.

(** ** Floats as real numbers

    The value of a finite float of mantissa [m] and exponent [e] is
    [m * 2^e]; the definitions below relate the steps of the rounding
    function of [SpecFloat] to the real number being rounded. *)

Definition bpow (e : Z) : R := powerRZ 2 e.
Definition F2R (m e : Z) : R := (IZR m * bpow e)%R.

(** [x] lies at [m * 2^e] or strictly between it and its successor. *)
Definition inbetween (m e : Z) (l : location) (x : R) : Prop :=
  match l with
  | loc_Exact => x = F2R m e
  | loc_Inexact _ => (F2R m e < x < F2R (m + 1) e)%R
  end.

(** The same for a mantissa that carries its round and sticky bits. *)
Definition represents (mrs : shr_record) (e : Z) (x : R) : Prop :=
  0 ≤ shr_m mrs ∧ inbetween (shr_m mrs) e (loc_of_shr_record mrs) x.

(** A positive mantissa with the exponent the format assigns to its
    magnitude. *)
Definition canonical (m e : Z) : Prop :=
  0 < m ∧ e = fexp prec emax (Zdigits2 m + e).

(** A bound [c] is either on the grid of exponent [e'], or lies below a
    power of two that is on this grid and not above [x]. *)
Definition comparable (e' : Z) (x c : R) (ec : Z) : Prop :=
  e' ≤ ec ∨ ∃ g, e' ≤ g ∧ (c < bpow g <= x)%R.

(** The float built from a rounded mantissa and its exponent. *)
Definition round_result (sx : bool) (m e : Z) : float :=
  match m with
  | Z0 => S754_zero sx
  | Zpos p => if e <=? emax - prec then S754_finite sx p e
              else S754_infinity sx
  | Zneg _ => S754_nan
  end.

(** Zero, a finite float or an infinity, of sign [s]. *)
Definition signed (s : bool) (f : float) : Prop :=
  match f with
  | S754_nan => False
  | S754_zero s' | S754_infinity s' | S754_finite s' _ _ => s' = s
  end.

(** NaN, or a float whose sign bit is clear. *)
Definition nnf (f : float) : Prop :=
  match f with
  | S754_nan => True
  | S754_zero s | S754_infinity s | S754_finite s _ _ => s = false
  end.

(** As [nnf], but a negative zero is allowed too. *)
Definition nonneg (f : float) : Prop :=
  match f with
  | S754_zero _ => True
  | _ => nnf f
  end.

(** A float that is [>= 1], infinity included. *)
Definition at_least_one (y : float) : Prop :=
  y = S754_infinity false
  ∨ ∃ p e, y = S754_finite false p e ∧ (1 <= F2R (Z.pos p) e)%R.

(** A float between [+0.0] and 100. *)
Definition at_most_100 (z : float) : Prop :=
  z = S754_zero false
  ∨ ∃ p e, z = S754_finite false p e ∧ (F2R (Z.pos p) e <= 100)%R.

(** What gains and losses are made of: the integer 0, or a float that is
    not negative. *)
Definition nn_elem (x : pynum) : Prop :=
  x = PInt 0 ∨ ∃ f, x = PFloat f ∧ nonneg f.

(** What sums of them are: the integer 0, or a float with a clear sign
    bit (or NaN). *)
Definition nn_acc (x : pynum) : Prop :=
  x = PInt 0 ∨ ∃ f, x = PFloat f ∧ nnf f.

(** Zero, as an integer or as a float of either sign. *)
Definition zero_num (x : pynum) : Prop :=
  x = PInt 0 ∨ ∃ s, x = PFloat (S754_zero s).

(** The consecutive differences of a list of floats. *)
Fixpoint float_deltas (closes : list float) : list float :=
  match closes with
  | prev :: (cur :: _) as rest => fsub cur prev :: float_deltas rest
  | _ => []
  end.

(** Inside the value range, as Python tests it: [0 <= v <= 100]. *)
Definition in_range (v : pynum) : Prop :=
  py_le (PInt 0) v = true ∧ py_le v (PInt 100) = true.

(** [2.0 ** 1023], half way to overflow. *)
Definition BIG : float := Eval vm_compute in float_lit (2 ^ 1023).

(** ** Falling windows *)



(** The smallest positive float, [5e-324]. *)
Definition TINY : float := S754_finite false 1 (-1074).

(** ** Candles, requests and cycles *)


(** A candle that has closed by [now]. *)
Definition closed (now : Z) (k : kline) : Prop := close_time k ≤ now.

#[global] Instance closed_dec now k : Decision (closed now k) :=
  decide (close_time k ≤ now).

(** The world [w] with another answer from the exchange. *)
Definition answering (w : io) (klines : list kline) : io :=
  {| response := Ok klines; now_ms := now_ms w; deliver := deliver w |}.

(** [check_symbol] from the line after the request on. *)
Definition after_fetch (w : io) (symbol interval : string) (period : Z)
    (oversold overbought : pynum) (klines : list kline) : botM unit :=
  let (closes, times) := extract_closed_closes (now_ms w) klines in
  if py_len closes <? period + 2 then mret ()
  else
    current_rsi ← lift (compute_rsi closes period);
    previous_rsi ← lift (compute_rsi (py_slice_to closes (-1)) period);
    last_close_time ← lift (py_getitem times (-1));
    last_price ← lift (py_getitem closes (-1));
    lift (readable_time last_close_time);;
    evaluate w symbol interval oversold overbought current_rsi previous_rsi
             last_close_time last_price.

(** Nothing stored is dropped: every symbol of [b] is still a symbol of
    [b'], with at least the fields it had. *)
Definition remembers (b b' : bot) : Prop :=
  ∀ s d, state b !! s = Some d →
         ∃ d', state b' !! s = Some d' ∧ dom d ⊆ dom d'.

(** The bot after the requests of [l], nothing else changed. *)
Definition add_requests (l : list string) (b : bot) : bot :=
  {| state := state b; state_file := state_file b; alerts := alerts b;
     requests := requests b ++ l; errors := errors b |}.

(** Every request is answered with the candles [dip]. *)
Definition always_up (k : nat) : io := exchange_up.

(** ** Symbols as text *)

(** [sep.join(l)]. *)
Fixpoint join (sep : ascii) (l : list string) : string :=
  match l with
  | [] => EmptyString
  | [x] => x
  | x :: l' => x +:+ String sep (join sep l')
  end.

(** The characters of a string. *)
Fixpoint chars (s : string) : list ascii :=
  match s with
  | EmptyString => []
  | String c s' => c :: chars s'
  end.

Definition ascii_only (s : string) : Prop :=
  Forall (fun c => (N_of_ascii c < 128)%N) (chars s).

(** A symbol in the form [parse_symbols] gives it: not empty, no white
    space at either end, no comma and no lower-case letter. *)
Definition is_symbol (x : string) : Prop :=
  let cs := chars x in
  cs ≠ []
  ∧ (∀ c, head cs = Some c → isspace c = false)
  ∧ (∀ c, last cs = Some c → isspace c = false)
  ∧ Forall (fun c => c ≠ ","%char ∧ islower c = false) cs.

(** ** The channels, from outside *)

(** A variable that is set to a non-empty string: [not value] is false. *)
Definition credential {M} (n : Channels.net M) (name : string)
  : option string :=
  match Channels.env n name with
  | Some (String _ _ as v) => Some v
  | _ => None
  end.

(** The request of each channel that has both its credentials. *)
Definition telegram_request {M} (n : Channels.net M) (message : M)
  : list (Channels.request M) :=
  match credential n "TELEGRAM_BOT_TOKEN", credential n "TELEGRAM_CHAT_ID" with
  | Some token, Some chat_id => [Channels.TelegramPost token chat_id message]
  | _, _ => []
  end.

Definition whatsapp_request {M} (n : Channels.net M) (message : M)
  : list (Channels.request M) :=
  match credential n "CALLMEBOT_PHONE", credential n "CALLMEBOT_APIKEY" with
  | Some phone, Some apikey => [Channels.WhatsAppGet phone apikey message]
  | _, _ => []
  end.

(** Every request is answered, with whatever status. *)
Definition answered {M} (n : Channels.net M) : Prop :=
  ∀ rq, ∃ r, Channels.http n rq = Ok r.

(** The error line a channel logs for the reply to a request. *)
Definition complaint {M} (n : Channels.net M) (rq : Channels.request M)
  : list (Channels.line M) :=
  match Channels.http n rq with
  | Ok r =>
      if bool_decide (Channels.status_code r = 200) then []
      else match rq with
           | Channels.TelegramPost _ _ _ =>
               [Channels.TelegramError (Channels.text r)]
           | Channels.WhatsAppGet _ _ _ =>
               [Channels.WhatsAppError (Channels.text r)]
           end
  | Raise _ => []
  end.

(** The world of [check_symbol] whose messages go through the channels
    of [n]. *)
Definition through (n : Channels.net alert) (answer : result (list kline))
    (now : Z) : io :=
  {| response := answer; now_ms := now;
     deliver := fun a =>
       (Channels.send_alert n a
          {| Channels.attempts := []; Channels.log := [] |}).1 |}.

(** ** Three set-ups of the channels *)

Definition both_channels : gmap string string :=
  <["TELEGRAM_BOT_TOKEN" := "T"]>
    (<["TELEGRAM_CHAT_ID" := "42"]>
       (<["CALLMEBOT_PHONE" := "+1"]> (<["CALLMEBOT_APIKEY" := "K"]> ∅))).

(** Both channels configured, every request refused with status 500. *)
Definition refusing : Channels.net string :=
  {| Channels.environ := both_channels;
     Channels.http := fun _ =>
       Ok {| Channels.status_code := 500; Channels.text := "no" |} |}.

(** Both channels configured, no request gets through. *)
Definition unreachable : Channels.net string :=
  {| Channels.environ := both_channels;
     Channels.http := fun _ => Raise RequestException |}.

(** An empty token: Telegram is off, WhatsApp is not set at all. *)
Definition unconfigured : Channels.net string :=
  {| Channels.environ := <["TELEGRAM_BOT_TOKEN" := ""]>
                           (<["TELEGRAM_CHAT_ID" := "42"]> ∅);
     Channels.http := fun _ => Raise RequestException |}.

Definition nothing_sent : Channels.outbox string :=
  {| Channels.attempts := []; Channels.log := [] |}.

(** Both channels configured, every request accepted. *)
Definition accepting : Channels.net alert :=
  {| Channels.environ := both_channels;
     Channels.http := fun _ =>
       Ok {| Channels.status_code := 200; Channels.text := "ok" |} |}.

(* ===================================================================== *)
(** * The structure of [compute_rsi] *)
(* ===================================================================== *)

Lemma py_getitem_lookup {A} (l : list A) (i : nat) (x : A) :
  l !! i = Some x → py_getitem l (Z.of_nat i) = Ok x.
Proof.
  intros H. unfold py_getitem. cbv zeta.
  rewrite (proj2 (Z.ltb_ge (Z.of_nat i) 0)) by lia.
  rewrite (proj2 (Z.ltb_ge (Z.of_nat i) 0)) by lia.
  by rewrite Nat2Z.id, H.
Qed.

(** Reduce the binds of the error monad. *)
Ltac rsimpl := cbn [mbind mret fmap result_bind result_ret result_fmap].

(** The list comprehension that builds [deltas]. *)
Lemma deltas_differences (pre : list pynum) (x : pynum) (l : list pynum) :
  mapM (fun i => a ← py_getitem (pre ++ x :: l) i;
                 b ← py_getitem (pre ++ x :: l) (i - 1);
                 py_sub a b)
       (seqZ (py_len pre + 1) (py_len l))
  = differences (x :: l).
Proof.
  revert pre x. induction l as [|y l IH]; intros pre x; [done|].
  unfold py_len in *. rewrite seqZ_cons by (cbn; lia). cbn [mapM differences].
  replace (Z.of_nat (length pre) + 1) with (Z.of_nat (length (pre ++ [x])))
    by (rewrite length_app; cbn; lia).
  rewrite (py_getitem_lookup _ _ y).
  2:{ replace (pre ++ x :: y :: l) with ((pre ++ [x]) ++ y :: l)
        by (by rewrite <- app_assoc).
      by apply list_lookup_middle. }
  replace (Z.of_nat (length (pre ++ [x])) - 1) with (Z.of_nat (length pre))
    by (rewrite length_app; cbn; lia).
  rewrite (py_getitem_lookup _ _ x) by (by apply list_lookup_middle).
  cbn [mbind result_bind]. destruct (py_sub y x) as [d|e]; [|done].
  specialize (IH (pre ++ [x]) y).
  rewrite <- app_assoc in IH. change ([x] ++ y :: l) with (x :: y :: l) in IH.
  replace (Z.succ (Z.of_nat (length (pre ++ [x]))))
    with (Z.of_nat (length (pre ++ [x])) + 1) by lia.
  replace (Z.pred (Z.of_nat (length (y :: l)))) with (Z.of_nat (length l))
    by (cbn [length]; lia).
  by rewrite IH.
Qed.

Lemma differences_cons (x y : pynum) (l : list pynum) :
  differences (x :: y :: l)
  = d ← py_sub y x; ds ← differences (y :: l); Ok (d :: ds).
Proof. done. Qed.

Lemma differences_length (x : pynum) (l ds : list pynum) :
  differences (x :: l) = Ok ds → length ds = length l.
Proof.
  revert x ds. induction l as [|y l IH]; intros x ds;
    [cbn; by intros [= <-]|].
  rewrite differences_cons.
  destruct (py_sub y x); cbn [mbind result_bind]; [|done].
  destruct (differences (y :: l)) as [ds'|] eqn:E; cbn [mbind result_bind];
    [|done].
  intros [= <-]. cbn [length]. f_equal. by eapply IH.
Qed.

(** The assignment of the loop, once its operand is there, is the
    recurrence of the reference. *)
Lemma smooth_wilder_update (period : Z) (avg x : pynum) :
  smooth period avg (Ok x) = wilder_update period avg x.
Proof.
  unfold smooth, wilder_update.
  by destruct (py_mul avg (PInt (period - 1))).
Qed.

(** The smoothing loop, by index and by element. *)
Lemma smoothing_loop (period : Z) (pre l : list pynum) (s : pynum * pynum) :
  foldM (fun (avgs : pynum * pynum) i =>
           avg_gain ← smooth period avgs.1
                             (py_getitem (gain <$> pre ++ l) i);
           avg_loss ← smooth period avgs.2
                             (py_getitem (loss <$> pre ++ l) i);
           Ok (avg_gain, avg_loss))
        (seqZ (py_len pre) (py_len l)) s
  = foldM (wilder_step period) l s.
Proof.
  revert pre s. induction l as [|d l IH]; intros pre s; [done|].
  unfold py_len in *. rewrite seqZ_cons by (cbn; lia). cbn [foldM].
  assert (∀ f : pynum → pynum,
            py_getitem (f <$> pre ++ d :: l) (Z.of_nat (length pre))
            = Ok (f d)) as Hget.
  { intros f. apply py_getitem_lookup.
    rewrite list_lookup_fmap, list_lookup_middle; done. }
  rewrite !Hget, !smooth_wilder_update.
  cbn [mbind result_bind].
  change (wilder_step period s d)
    with (ag ← wilder_update period s.1 (gain d);
          al ← wilder_update period s.2 (loss d); Ok (ag, al)).
  destruct (wilder_update period s.1 (gain d)) as [ag|];
    cbn [mbind result_bind]; [|done].
  destruct (wilder_update period s.2 (loss d)) as [al|];
    cbn [mbind result_bind]; [|done].
  specialize (IH (pre ++ [d]) (ag, al)).
  rewrite <- app_assoc in IH. change ([d] ++ l) with (d :: l) in IH.
  rewrite length_app in IH. cbn [length] in IH.
  replace (Z.succ (Z.of_nat (length pre)))
    with (Z.of_nat (length pre + 1)) by lia.
  replace (Z.pred (Z.of_nat (length (d :: l)))) with (Z.of_nat (length l))
    by (cbn [length]; lia).
  exact IH.
Qed.

(** [compute_rsi] on a window that is long enough, with its index loops
    replaced by the lists they walk. *)
Lemma compute_rsi_unfold (closes : list pynum) (period : Z) :
  0 < period → period + 1 ≤ py_len closes →
  compute_rsi closes period =
  deltas ← differences closes;
  avgGain ← mean (gain <$> take (Z.to_nat period) deltas);
  avgLoss ← mean (loss <$> take (Z.to_nat period) deltas);
  avgs ← foldM (wilder_step period) (drop (Z.to_nat period) deltas)
               (avgGain, avgLoss);
  Some <$> rsi_of_averages avgs.1 avgs.2.
Proof.
  intros Hp Hlen. unfold compute_rsi.
  rewrite (proj2 (Z.ltb_ge _ _)) by lia.
  destruct closes as [|x l]; [unfold py_len in Hlen; cbn in Hlen; lia|].
  unfold py_range.
  replace (py_len (x :: l) - 1) with (py_len l)
    by (unfold py_len; cbn [length]; lia).
  pose proof (deltas_differences [] x l) as Hdl.
  change ([] ++ x :: l) with (x :: l) in Hdl.
  change (py_len [] + 1) with 1 in Hdl. rewrite Hdl. clear Hdl.
  destruct (differences (x :: l)) as [deltas|e] eqn:Hd; [|done].
  apply differences_length in Hd. rsimpl.
  assert (Z.to_nat period ≤ length deltas)%nat as Hle.
  { unfold py_len in Hlen. cbn [length] in Hlen. lia. }
  unfold py_slice_to. rewrite (proj2 (Z.ltb_ge period 0)) by lia.
  rewrite <- !fmap_take. unfold mean.
  fold gain loss.
  assert (∀ f : pynum → pynum,
            py_len (f <$> take (Z.to_nat period) deltas) = period) as Hwin.
  { intros f. unfold py_len. rewrite length_fmap, length_take. lia. }
  rewrite !Hwin.
  destruct (py_sum (gain <$> _)) as [sg|]; rsimpl; [|done].
  destruct (py_truediv sg _) as [ag|]; rsimpl; [|done].
  destruct (py_sum (loss <$> _)) as [sl|]; rsimpl; [|done].
  destruct (py_truediv sl _) as [al|]; rsimpl; [|done].
  pose proof (smoothing_loop period (take (Z.to_nat period) deltas)
                (drop (Z.to_nat period) deltas) (ag, al)) as HL.
  rewrite take_drop in HL.
  replace (py_len (take (Z.to_nat period) deltas)) with period in HL
    by (unfold py_len; rewrite length_take; lia).
  replace (py_len (drop (Z.to_nat period) deltas))
    with (py_len deltas - period) in HL
    by (unfold py_len; rewrite length_drop; lia).
  rewrite HL. clear HL.
  destruct (foldM (wilder_step period) _ _) as [[ag' al']|]; rsimpl; [|done].
  unfold rsi_of_averages. cbn [fst snd].
  destruct (py_eq al' (PInt 0)); [done|].
  destruct (py_truediv ag' al') as [rs|]; rsimpl; [|done].
  destruct (py_add (PInt 1) rs) as [d|]; rsimpl; [|done].
  destruct (py_truediv (PInt 100) d) as [q|]; rsimpl; [|done].
  by destruct (py_sub (PInt 100) q).
Qed.

(** C1: on a window of at least [period + 1] closes and for a positive
    period, [compute_rsi] returns what the reference definition gives:
    consecutive differences split into gains and losses, both averages
    seeded with the mean of the first [period] values, one smoothing step
    [(avg * (period - 1) + x) / period] for each remaining delta, and 100.0
    when the average loss is zero, [100 - 100 / (1 + avgGain / avgLoss)]
    otherwise.  Exceptions included: where one raises, so does the
    other. *)
Theorem compute_rsi_is_wilder (closes : list pynum) (period : Z) :
  0 < period → period + 1 ≤ py_len closes →
  compute_rsi closes period = Some <$> wilder_rsi closes period.
Proof.
  intros Hp Hlen. rewrite compute_rsi_unfold by done. unfold wilder_rsi.
  destruct (differences closes) as [deltas|]; rsimpl; [|done].
  destruct (mean (gain <$> _)) as [avgGain|]; rsimpl; [|done].
  destruct (mean (loss <$> _)) as [avgLoss|]; rsimpl; [|done].
  by destruct (foldM (wilder_step period) _ _) as [avgs|]; rsimpl.
Qed.

Lemma compute_rsi_is_wilder_witness :
  compute_rsi (PFloat <$> [F1; F2; F1]) 1
  = Some <$> wilder_rsi (PFloat <$> [F1; F2; F1]) 1.
Proof.
  apply compute_rsi_is_wilder; [reflexivity|].
  intros H; discriminate H.
Defined.

(** C6: on a window shorter than [period + 1], [compute_rsi] returns
    [None]; it raises nothing. *)
Theorem compute_rsi_short (closes : list pynum) (period : Z) :
  py_len closes < period + 1 → compute_rsi closes period = Ok None.
Proof.
  intros H. unfold compute_rsi. by rewrite (proj2 (Z.ltb_lt _ _) H).
Qed.

Lemma compute_rsi_short_witness :
  compute_rsi (PFloat <$> [F1; F2; F1]) 14 = Ok None.
Proof. apply compute_rsi_short. reflexivity. Defined.

(* ===================================================================== *)
(** * Floating-point rounding *)
(* ===================================================================== *)

(** ** Powers of two and values *)

Lemma bpow_pos e : (0 < bpow e)%R.
Proof. apply powerRZ_lt. lra. Qed.

Lemma bpow_add a b : bpow (a + b) = (bpow a * bpow b)%R.
Proof. apply powerRZ_add. lra. Qed.

Lemma bpow_IZR k : 0 ≤ k → bpow k = IZR (2 ^ k).
Proof.
  intros Hk. unfold bpow.
  rewrite <- (Z2Nat.id k) at 1 by done.
  rewrite <- pow_powerRZ, pow_IZR. by rewrite Z2Nat.id.
Qed.

Lemma bpow_ge_1 k : 0 ≤ k → (1 <= bpow k)%R.
Proof.
  intros Hk. rewrite bpow_IZR by done. apply IZR_le.
  pose proof (Z.pow_pos_nonneg 2 k). lia.
Qed.

Lemma bpow_le a b : a ≤ b → (bpow a <= bpow b)%R.
Proof.
  intros H. replace b with (a + (b - a)) by lia. rewrite bpow_add.
  pose proof (bpow_pos a). pose proof (bpow_ge_1 (b - a) ltac:(lia)). nra.
Qed.

Lemma bpow_lt a b : a < b → (bpow a < bpow b)%R.
Proof.
  intros H. replace b with (a + (b - a)) by lia. rewrite bpow_add.
  pose proof (bpow_pos a).
  assert (2 <= bpow (b - a))%R.
  { rewrite bpow_IZR by lia. apply IZR_le.
    change 2 with (2 ^ 1) at 1. apply Z.pow_le_mono_r; lia. }
  nra.
Qed.

Lemma bpow_lt_inv a b : (bpow a < bpow b)%R → a < b.
Proof.
  intros H. destruct (Z.lt_ge_cases a b) as [|Hge]; [done|].
  apply bpow_le in Hge. lra.
Qed.

Lemma F2R_scale m e k : 0 ≤ k → F2R (m * 2 ^ k) e = F2R m (e + k).
Proof.
  intros Hk. unfold F2R. rewrite mult_IZR, bpow_add, (bpow_IZR k) by done.
  lra.
Qed.

Lemma F2R_le m1 m2 e : m1 ≤ m2 → (F2R m1 e <= F2R m2 e)%R.
Proof.
  intros H. unfold F2R. apply IZR_le in H. pose proof (bpow_pos e). nra.
Qed.

Lemma F2R_lt_inv m1 m2 e : (F2R m1 e < F2R m2 e)%R → m1 < m2.
Proof.
  unfold F2R. intros H. apply lt_IZR. pose proof (bpow_pos e). nra.
Qed.

Lemma F2R_le_inv m1 m2 e : (F2R m1 e <= F2R m2 e)%R → m1 ≤ m2.
Proof.
  unfold F2R. intros H. apply le_IZR. pose proof (bpow_pos e). nra.
Qed.

Lemma F2R_0 e : F2R 0 e = 0%R.
Proof. unfold F2R. lra. Qed.

(** ** Digits *)

Lemma digits2_pos_size p : digits2_pos p = Pos.size p.
Proof. induction p; cbn; by rewrite ?IHp. Qed.

Lemma Zdigits2_bounds m :
  0 < m → 2 ^ (Zdigits2 m - 1) ≤ m < 2 ^ Zdigits2 m.
Proof.
  destruct m as [|p|p]; [lia| |lia]. intros _. cbn [Zdigits2].
  rewrite digits2_pos_size.
  pose proof (Pos.size_gt p) as H1. pose proof (Pos.size_le p) as H2.
  split.
  - assert (2 * 2 ^ (Z.pos (Pos.size p) - 1) = 2 ^ Z.pos (Pos.size p)) as E.
    { rewrite <- Z.pow_succ_r by lia. f_equal. lia. }
    rewrite <- Pos2Z.inj_pow in E. lia.
  - rewrite <- Pos2Z.inj_pow. lia.
Qed.

Lemma Zdigits2_nonneg m : 0 ≤ Zdigits2 m.
Proof. by destruct m. Qed.

Lemma Zdigits2_pos m : 0 < m → 0 < Zdigits2 m.
Proof. by destruct m. Qed.

Lemma F2R_digits m e :
  0 < m →
  (bpow (Zdigits2 m + e - 1) <= F2R m e < bpow (Zdigits2 m + e))%R.
Proof.
  intros Hm. pose proof (Zdigits2_bounds m Hm) as [H1 H2].
  pose proof (Zdigits2_pos m Hm).
  replace (Zdigits2 m + e - 1) with (e + (Zdigits2 m - 1)) by lia.
  replace (Zdigits2 m + e) with (e + Zdigits2 m) by lia.
  rewrite !bpow_add, (bpow_IZR (Zdigits2 m - 1)), (bpow_IZR (Zdigits2 m))
    by lia.
  unfold F2R. apply IZR_le in H1. apply IZR_lt in H2. pose proof (bpow_pos e). nra.
Qed.

(** ** The exponent function *)

Lemma fexp_ge_emin e : emin prec emax ≤ fexp prec emax e.
Proof. unfold fexp. lia. Qed.

Lemma fexp_mono a b : a ≤ b → fexp prec emax a ≤ fexp prec emax b.
Proof. unfold fexp. lia. Qed.

Lemma fexp_above_emin e :
  emin prec emax < fexp prec emax e → fexp prec emax e = e - prec.
Proof. unfold fexp. lia. Qed.

(** ** Shifting right *)

Lemma bpow_succ e : bpow (e + 1) = (2 * bpow e)%R.
Proof. rewrite bpow_add. change (bpow 1) with (2 * 1)%R. lra. Qed.

Lemma inbetween_exactness m e l l' x :
  (l = loc_Exact ↔ l' = loc_Exact) → inbetween m e l x → inbetween m e l' x.
Proof. destruct l, l'; cbn; intros [H1 H2]; try done; by (discriminate H1 || discriminate H2). Qed.

Lemma shr_1_represents mrs e x :
  represents mrs e x → represents (shr_1 mrs) (e + 1) x.
Proof.
  destruct mrs as [m r s]. unfold represents, inbetween, F2R. cbn [shr_m].
  rewrite bpow_succ. pose proof (bpow_pos e) as HB.
  generalize dependent (bpow e). intros B HB [Hm Hx].
  destruct m as [|p|p]; [| |lia].
  - cbn [shr_1 shr_m]. split; [lia|].
    destruct r, s; cbn [loc_of_shr_record orb] in *;
      rewrite ?plus_IZR in *; lra.
  - assert (∃ q b, Z.pos p = 2 * q + Z.b2z b ∧ 0 ≤ q
                   ∧ shr_1 {| shr_m := Z.pos p; shr_r := r; shr_s := s |}
                     = {| shr_m := q; shr_r := b; shr_s := r || s |})
      as (q & b & Hp & Hq & ->).
    { destruct p as [q|q|].
      - exists (Z.pos q), true. by rewrite Pos2Z.inj_xI.
      - exists (Z.pos q), false. rewrite Pos2Z.inj_xO. cbn. split; [lia|done].
      - by exists 0, true. }
    rewrite Hp in *. clear Hp. cbn [shr_m]. split; [done|].
    rewrite ?plus_IZR, ?mult_IZR in *.
    generalize dependent (IZR q). intros Q Hx.
    destruct b, r, s; cbn [loc_of_shr_record orb Z.b2z] in *; nra.
Qed.

Lemma iter_shr_1_represents p mrs e x :
  represents mrs e x → represents (SpecFloat.iter_pos shr_1 p mrs) (e + Z.pos p) x.
Proof.
  revert mrs e. induction p as [p IH|p IH|]; intros mrs e H; cbn [SpecFloat.iter_pos].
  - apply shr_1_represents, IH, IH in H.
    by replace (e + Z.pos p~1) with (e + 1 + Z.pos p + Z.pos p) by lia.
  - apply IH, IH in H.
    by replace (e + Z.pos p~0) with (e + Z.pos p + Z.pos p) by lia.
  - by apply shr_1_represents.
Qed.

Lemma shr_represents mrs e n x :
  represents mrs e x →
  represents (shr mrs e n).1 (shr mrs e n).2 x
  ∧ (shr mrs e n).2 = e + Z.max n 0.
Proof.
  intros H. destruct n as [|p|p]; cbn [shr fst snd].
  - split; [done|lia].
  - split; [by apply iter_shr_1_represents|lia].
  - split; [done|lia].
Qed.

Lemma represents_of_loc m e l x :
  0 ≤ m → inbetween m e l x → represents (shr_record_of_loc m l) e x.
Proof.
  intros Hm H. split; [by destruct l as [|[]]|].
  destruct l as [|[]]; exact H.
Qed.

(** After [shr_fexp], the exponent is the one of the format (or the one
    given, if that is larger already). *)
Lemma shr_fexp_represents m e l x :
  0 ≤ m → inbetween m e l x →
  let r := shr_fexp prec emax m e l in
  represents r.1 r.2 x
  ∧ r.2 = Z.max e (fexp prec emax (Zdigits2 m + e)).
Proof.
  intros Hm H r. subst r. unfold shr_fexp.
  destruct (shr_represents (shr_record_of_loc m l) e
              (fexp prec emax (Zdigits2 m + e) - e) x
              (represents_of_loc m e l x Hm H)) as [H1 H2].
  split; [done|]. rewrite H2. lia.
Qed.

Lemma represents_floor mrs e x :
  represents mrs e x →
  (F2R (shr_m mrs) e <= x < F2R (shr_m mrs + 1) e)%R.
Proof.
  intros [Hm H]. destruct (loc_of_shr_record mrs); cbn in H.
  - rewrite H. split; [lra|]. unfold F2R. rewrite plus_IZR.
    pose proof (bpow_pos e). lra.
  - lra.
Qed.

(** ** Rounding to nearest, seen as a faithful rounding *)

Lemma round_nearest_even_near mrs e x :
  represents mrs e x →
  let m := round_nearest_even (shr_m mrs) (loc_of_shr_record mrs) in
  shr_m mrs ≤ m
  ∧ (F2R (m - 1) e < x < F2R (m + 1) e)%R.
Proof.
  intros [Hm H] m. subst m. unfold inbetween, F2R in *.
  pose proof (bpow_pos e) as HB.
  generalize dependent (bpow e). intros B H' HB.
  destruct (loc_of_shr_record mrs) as [|[]]; cbn [round_nearest_even inbetween] in *;
    try destruct (Z.even _);
    (split; [lia|]); rewrite ?minus_IZR, ?plus_IZR in *; nra.
Qed.

(** ** Representable bounds survive rounding *)

Lemma on_grid mc ec e' :
  e' ≤ ec → F2R mc ec = F2R (mc * 2 ^ (ec - e')) e'.
Proof.
  intros H. rewrite F2R_scale by lia. f_equal. lia.
Qed.

Lemma bpow_on_grid g e' : e' ≤ g → bpow g = F2R (2 ^ (g - e')) e'.
Proof.
  intros H. unfold F2R. rewrite <- bpow_IZR, <- bpow_add by lia.
  f_equal. lia.
Qed.

Lemma upper_step e' x mc ec m' :
  comparable e' x (F2R mc ec) ec →
  (F2R (m' - 1) e' < x)%R → (x <= F2R mc ec)%R →
  (F2R m' e' <= F2R mc ec)%R.
Proof.
  intros [Hg|(g & _ & Hc)] Hx Hxc; [|lra].
  rewrite (on_grid mc ec e' Hg) in *. apply F2R_le.
  enough (m' - 1 < mc * 2 ^ (ec - e')) by lia.
  apply (F2R_lt_inv _ _ e'). lra.
Qed.

Lemma lower_step e' x mc ec m' :
  comparable e' x (F2R mc ec) ec →
  (x < F2R (m' + 1) e')%R → (F2R mc ec <= x)%R →
  (F2R mc ec <= F2R m' e')%R.
Proof.
  intros [Hg|(g & Hg & Hc)] Hx Hxc.
  - rewrite (on_grid mc ec e' Hg) in *. apply F2R_le.
    enough (mc * 2 ^ (ec - e') < m' + 1) by lia.
    apply (F2R_lt_inv _ _ e'). lra.
  - rewrite (bpow_on_grid g e' Hg) in Hc.
    enough (F2R (2 ^ (g - e')) e' <= F2R m' e')%R by lra.
    apply F2R_le. enough (2 ^ (g - e') < m' + 1) by lia.
    apply (F2R_lt_inv _ _ e'). lra.
Qed.

Lemma Zdigits2_mono a b : 0 ≤ a ≤ b → Zdigits2 a ≤ Zdigits2 b.
Proof.
  intros [Ha Hab]. destruct (Z.eq_dec a 0) as [->|Hne].
  { apply Zdigits2_nonneg. }
  pose proof (Zdigits2_bounds a ltac:(lia)) as [H1 _].
  pose proof (Zdigits2_bounds b ltac:(lia)) as [_ H2].
  destruct (Z.lt_ge_cases (Zdigits2 b) (Zdigits2 a)) as [Hlt|]; [|done].
  assert (2 ^ Zdigits2 b ≤ 2 ^ (Zdigits2 a - 1)).
  { apply Z.pow_le_mono_r; lia. }
  lia.
Qed.

Lemma digits_above g m e :
  0 < m → (bpow g <= F2R m e)%R → g < Zdigits2 m + e.
Proof.
  intros Hm H. apply bpow_lt_inv.
  pose proof (F2R_digits m e Hm). lra.
Qed.

Lemma canonical_exponent_ge mc ec : canonical mc ec → emin prec emax ≤ ec.
Proof. intros [_ ->]. apply fexp_ge_emin. Qed.

Lemma inbetween_ge m e l x : inbetween m e l x → (F2R m e <= x)%R.
Proof. destruct l; cbn; lra. Qed.

(** One call of [shr_fexp] on an input whose exponent is not above the
    one of the format. *)
Lemma shr_fexp_step m e l x :
  0 ≤ m → inbetween m e l x → e ≤ fexp prec emax (Zdigits2 m + e) →
  let r := shr_fexp prec emax m e l in
  represents r.1 r.2 x
  ∧ r.2 ≤ fexp prec emax (Zdigits2 (shr_m r.1) + r.2)
  ∧ (∀ mc ec, canonical mc ec → comparable r.2 x (F2R mc ec) ec).
Proof.
  intros Hm Hx Hpre r.
  destruct (shr_fexp_represents m e l x Hm Hx) as [Hr He]. fold r in Hr, He.
  rewrite Z.max_r in He by done.
  pose proof (represents_floor _ _ _ Hr) as [Hlo Hhi].
  pose proof (inbetween_ge _ _ _ _ Hx) as Hmx.
  pose proof Hr as [Hm' _].
  set (m' := shr_m r.1) in *. set (e' := r.2) in *.
  destruct (Z.eq_dec e' (emin prec emax)) as [Hemin|Hne].
  { split_and!; [done|rewrite Hemin; apply fexp_ge_emin|].
    intros mc ec Hc. left. rewrite Hemin.
    by apply (canonical_exponent_ge mc). }
  assert (e' = Zdigits2 m + e - prec) as He'.
  { rewrite He. apply fexp_above_emin.
    pose proof (fexp_ge_emin (Zdigits2 m + e)). lia. }
  assert (0 < m) as Hmpos.
  { destruct (Z.eq_dec m 0) as [->|]; [|lia].
    cbn [Zdigits2] in *. unfold prec in *. lia. }
  set (g := Zdigits2 m + e - 1).
  assert (e' ≤ g) as Hg by (unfold g, prec in *; lia).
  assert (bpow g <= x)%R as Hgx.
  { pose proof (F2R_digits m e Hmpos). unfold g. lra. }
  assert (2 ^ (g - e') ≤ m') as Hm'g.
  { enough (2 ^ (g - e') < m' + 1) by lia.
    apply (F2R_lt_inv _ _ e'). rewrite <- bpow_on_grid by done. lra. }
  split_and!; [done| |].
  - assert (0 < m') by (pose proof (Z.pow_pos_nonneg 2 (g - e')); lia).
    rewrite He at 1. apply fexp_mono.
    enough (g < Zdigits2 m' + e') by (unfold g in *; lia).
    apply digits_above; [done|]. rewrite (bpow_on_grid g e') by done.
    by apply F2R_le.
  - intros mc ec [Hmc Hec].
    destruct (Z.le_gt_cases e' ec) as [|Hlt]; [by left|]. right.
    exists g. split_and!; [done| |done].
    pose proof (F2R_digits mc ec Hmc) as [_ Hc].
    enough (bpow (Zdigits2 mc + ec) <= bpow g)%R by lra.
    apply bpow_le.
    destruct (Z.le_gt_cases (Zdigits2 m + e) (Zdigits2 mc + ec)) as [Hge|];
      [|unfold g; lia].
    apply fexp_mono in Hge. lia.
Qed.

(** ** [binary_round_aux] *)

Lemma binary_round_aux_spec sx mx ex lx x :
  0 ≤ mx → inbetween mx ex lx x →
  ex ≤ fexp prec emax (Zdigits2 mx + ex) →
  ∃ m e,
    0 ≤ m
    ∧ binary_round_aux prec emax sx mx ex lx = round_result sx m e
    ∧ (∀ mc ec, canonical mc ec → (x <= F2R mc ec)%R →
         (F2R m e <= F2R mc ec)%R ∧ (0 < m → e ≤ ec))
    ∧ (∀ mc ec, canonical mc ec → (F2R mc ec <= x)%R →
         (F2R mc ec <= F2R m e)%R).
Proof.
  intros Hm Hx Hpre. unfold binary_round_aux.
  destruct (shr_fexp_step mx ex lx x Hm Hx Hpre) as (Hr1 & Hn1 & Hc1).
  destruct (shr_fexp prec emax mx ex lx) as [mrs' e']. cbn [fst snd] in *.
  destruct (round_nearest_even_near mrs' e' x Hr1) as [Hle Hnear].
  pose proof Hr1 as [Hm' _].
  pose proof (represents_floor _ _ _ Hr1) as [Hlo Hhi].
  set (m'' := round_nearest_even (shr_m mrs') (loc_of_shr_record mrs')) in *.
  assert (0 ≤ m'') as Hm'' by lia.
  assert (e' ≤ fexp prec emax (Zdigits2 m'' + e')) as Hpre2.
  { etrans; [exact Hn1|]. apply fexp_mono.
    pose proof (Zdigits2_mono (shr_m mrs') m'' ltac:(lia)). lia. }
  destruct (shr_fexp_step m'' e' loc_Exact (F2R m'' e') Hm'' eq_refl Hpre2)
    as (Hr2 & _ & Hc2).
  destruct (shr_fexp prec emax m'' e' loc_Exact) as [mrs'' e''].
  cbn [fst snd] in *.
  pose proof Hr2 as [Hm3 _].
  pose proof (represents_floor _ _ _ Hr2) as [Hlo2 Hhi2].
  exists (shr_m mrs''), e''. split_and!; [done|done| |].
  - intros mc ec Hc Hxc.
    pose proof (upper_step e' x mc ec m'' (Hc1 mc ec Hc) ltac:(lra) Hxc) as Hu.
    split; [lra|]. intros Hpos.
    destruct (Hc2 mc ec Hc) as [|(g & _ & Hg)]; [done|lra].
  - intros mc ec Hc Hcx.
    pose proof (lower_step e' x mc ec (shr_m mrs') (Hc1 mc ec Hc) Hhi Hcx)
      as Hl.
    apply (lower_step e'' (F2R m'' e')); [by apply Hc2|done|].
    pose proof (F2R_le (shr_m mrs') m'' e' Hle). lra.
Qed.

(** ** Never a NaN, always the sign asked for *)

Lemma round_result_signed sx m e : 0 ≤ m → signed sx (round_result sx m e).
Proof.
  intros Hm. destruct m as [|p|p]; cbn; [done| |lia].
  by destruct (_ <=? _).
Qed.

Lemma inbetween_exists m e l : ∃ x, inbetween m e l x.
Proof.
  destruct l as [|c].
  - by exists (F2R m e).
  - exists (F2R m e + bpow e / 2)%R. cbn. unfold F2R. rewrite plus_IZR.
    pose proof (bpow_pos e). lra.
Qed.

Lemma binary_round_aux_signed sx mx ex lx :
  0 ≤ mx → signed sx (binary_round_aux prec emax sx mx ex lx).
Proof.
  intros Hm. unfold binary_round_aux.
  destruct (inbetween_exists mx ex lx) as [x Hx].
  destruct (shr_fexp_represents mx ex lx x Hm Hx) as [[Hm' _] _].
  destruct (shr_fexp prec emax mx ex lx) as [mrs' e']. cbn [fst snd] in *.
  set (m'' := round_nearest_even _ _).
  assert (0 ≤ m'') as Hm''.
  { subst m''. destruct (loc_of_shr_record mrs') as [|[]]; cbn;
      try destruct (Z.even _); lia. }
  destruct (shr_fexp_represents m'' e' loc_Exact (F2R m'' e') Hm'' eq_refl)
    as [[Hm3 _] _].
  destruct (shr_fexp prec emax m'' e' loc_Exact) as [mrs'' e''].
  cbn [fst snd] in *.
  destruct (shr_m mrs'') as [|p|p]; [done| |lia].
  by destruct (_ <=? _).
Qed.

(** ** Aligning a mantissa to a smaller exponent *)

Lemma iter_xO m d : Z.pos (Pos.iter xO m d) = Z.pos m * 2 ^ Z.pos d.
Proof.
  revert m. induction d as [|d IH] using Pos.peano_ind; intros m.
  - cbn. lia.
  - rewrite Pos.iter_succ, Pos2Z.inj_xO, IH, Pos2Z.inj_succ, Z.pow_succ_r by lia.
    lia.
Qed.

Lemma shl_align_spec mx ex ex' :
  let r := shl_align mx ex ex' in
  F2R (Z.pos r.1) r.2 = F2R (Z.pos mx) ex
  ∧ r.2 = Z.min ex ex'
  ∧ Z.pos r.1 = Z.pos mx * 2 ^ (ex - r.2).
Proof.
  unfold shl_align. destruct (ex' - ex) as [|d|d] eqn:E; cbn [fst snd].
  - split_and!; [done|lia|]. rewrite Z.sub_diag. lia.
  - split_and!; [done|lia|]. rewrite Z.sub_diag. lia.
  - assert (ex - ex' = Z.pos d) as E' by lia.
    rewrite iter_xO, <- E'. split_and!; [|lia|done].
    rewrite F2R_scale by lia. f_equal. lia.
Qed.

Lemma Zdigits2_scale m k :
  0 < m → 0 ≤ k → Zdigits2 m + k ≤ Zdigits2 (m * 2 ^ k).
Proof.
  intros Hm Hk. pose proof (Zdigits2_bounds m Hm) as [H1 _].
  pose proof (Zdigits2_pos m Hm).
  assert (0 < m * 2 ^ k) as Hpos by (pose proof (Z.pow_pos_nonneg 2 k); nia).
  pose proof (Zdigits2_bounds _ Hpos) as [_ H2].
  assert (2 ^ (Zdigits2 m - 1 + k) ≤ m * 2 ^ k) as H3.
  { rewrite Z.pow_add_r by lia. pose proof (Z.pow_pos_nonneg 2 k). nia. }
  destruct (Z.le_gt_cases (Zdigits2 m + k) (Zdigits2 (m * 2 ^ k)))
    as [|Hlt]; [done|].
  assert (2 ^ Zdigits2 (m * 2 ^ k) ≤ 2 ^ (Zdigits2 m - 1 + k)).
  { apply Z.pow_le_mono_r; lia. }
  lia.
Qed.

(** ** [binary_round] and [binary_normalize] *)

Lemma binary_round_spec sx mx ex :
  ∃ m e,
    0 ≤ m
    ∧ binary_round prec emax sx mx ex = round_result sx m e
    ∧ (∀ mc ec, canonical mc ec → (F2R (Z.pos mx) ex <= F2R mc ec)%R →
         (F2R m e <= F2R mc ec)%R ∧ (0 < m → e ≤ ec))
    ∧ (∀ mc ec, canonical mc ec → (F2R mc ec <= F2R (Z.pos mx) ex)%R →
         (F2R mc ec <= F2R m e)%R).
Proof.
  unfold binary_round.
  pose proof (shl_align_spec mx ex
                (fexp prec emax (Z.pos (digits2_pos mx) + ex)))
    as (Hv & He & Hm).
  destruct (shl_align _ _ _) as [mz ez]. cbn [fst snd] in *.
  rewrite <- Hv. apply binary_round_aux_spec; [lia|done|].
  change (Z.pos (digits2_pos mx)) with (Zdigits2 (Z.pos mx)) in He.
  rewrite Hm.
  pose proof (Zdigits2_scale (Z.pos mx) (ex - ez) ltac:(lia) ltac:(lia)).
  etrans; [|apply fexp_mono with (a := Zdigits2 (Z.pos mx) + ex); lia].
  lia.
Qed.

(** ** Integers as floats *)

Lemma canonical_1 : canonical 4503599627370496 (-52).
Proof. by split. Qed.

Lemma canonical_100 : canonical 7036874417766400 (-46).
Proof. by split. Qed.

Lemma canonical_2_63 : canonical 4503599627370496 11.
Proof. by split. Qed.

Lemma F2R_1 : F2R 4503599627370496 (-52) = 1%R.
Proof.
  unfold F2R, bpow. change (-52) with (- (52)). rewrite powerRZ_neg'.
  change 52 with (Z.of_nat 52) at 1. rewrite <- pow_powerRZ, pow_IZR.
  change (2 ^ Z.of_nat 52) with 4503599627370496.
  field; apply not_0_IZR; lia.
Qed.

Lemma F2R_100 : F2R 7036874417766400 (-46) = 100%R.
Proof.
  unfold F2R, bpow. change (-46) with (- (46)). rewrite powerRZ_neg'.
  change 46 with (Z.of_nat 46) at 1. rewrite <- pow_powerRZ, pow_IZR.
  change 7036874417766400 with (100 * 2 ^ Z.of_nat 46).
  rewrite mult_IZR. field; apply not_0_IZR; lia.
Qed.

Lemma F2R_2_63 : F2R 4503599627370496 11 = IZR (2 ^ 63).
Proof.
  unfold F2R. rewrite bpow_IZR, <- mult_IZR by lia. f_equal.
Qed.

Lemma F2R_int m : F2R m 0 = IZR m.
Proof. unfold F2R, bpow. cbn. lra. Qed.

Lemma float_lit_positive z :
  0 < z ≤ PY_SSIZE_T_MAX →
  ∃ p e, float_lit z = S754_finite false p e
         ∧ (1 <= F2R (Z.pos p) e <= IZR (2 ^ 63))%R.
Proof.
  intros [Hz Hmax]. destruct z as [|q|q]; [lia| |lia].
  unfold float_lit, binary_normalize.
  destruct (binary_round_spec false q 0) as (m & e & Hm & -> & HU & HL).
  rewrite F2R_int in HU, HL.
  destruct (HU _ _ canonical_2_63) as [Hu He].
  { rewrite F2R_2_63. apply IZR_le. unfold PY_SSIZE_T_MAX in Hmax. lia. }
  pose proof (HL _ _ canonical_1) as Hl. rewrite F2R_1 in Hl.
  specialize (Hl ltac:(apply (IZR_le 1); lia)).
  rewrite F2R_2_63 in Hu.
  destruct m as [|p|p]; [rewrite F2R_0 in Hl; lra| |lia].
  specialize (He ltac:(lia)). cbn [round_result].
  rewrite (proj2 (Z.leb_le e (emax - prec))) by (unfold emax, prec; lia).
  by exists p, e.
Qed.

Lemma float_of_int_positive z :
  0 < z ≤ PY_SSIZE_T_MAX →
  ∃ p e, float_of_int z = Ok (S754_finite false p e)
         ∧ (1 <= F2R (Z.pos p) e)%R.
Proof.
  intros Hz. destruct (float_lit_positive z Hz) as (p & e & Hf & Hv & _).
  exists p, e. unfold float_of_int. by rewrite Hf.
Qed.

Lemma float_of_int_0 : float_of_int 0 = Ok (S754_zero false).
Proof. done. Qed.

(** ** Division *)

Lemma new_location_exact nb k :
  new_location nb k = loc_Exact ↔ k = 0.
Proof.
  unfold new_location, new_location_even, new_location_odd.
  destruct (Z.even nb), (Z.eqb_spec k 0); split; done.
Qed.

Lemma ratio_bounds (a b : R) :
  (0 <= a < b)%R → (0 <= a / b < 1)%R ∧ (0 < a → 0 < a / b)%R.
Proof.
  intros [H1 H2]. assert (0 < b)%R as Hb by lra.
  pose proof (Rinv_0_lt_compat b Hb) as Hi.
  pose proof (Rinv_r b ltac:(lra)) as Hr. unfold Rdiv.
  split; [split|intros]; nra.
Qed.

Lemma SFdiv_core_binary_spec m1 e1 m2 e2 :
  0 < m1 → 0 < m2 →
  let r := SFdiv_core_binary prec emax m1 e1 m2 e2 in
  0 ≤ r.1.1
  ∧ inbetween r.1.1 r.1.2 r.2 (F2R m1 e1 / F2R m2 e2)
  ∧ r.1.2 ≤ fexp prec emax (Zdigits2 r.1.1 + r.1.2).
Proof.
  intros H1 H2. unfold SFdiv_core_binary.
  set (D := Zdigits2 m1 + e1 - (Zdigits2 m2 + e2)).
  set (e' := Z.min (fexp prec emax D) (e1 - e2)).
  set (s := e1 - e2 - e').
  assert (0 ≤ s) as Hs by (unfold s, e'; lia).
  set (m' := match s with Z.pos _ => Z.shiftl m1 s | 0 => m1 | _ => 0 end).
  assert (m' = m1 * 2 ^ s) as Hm'.
  { unfold m'. destruct s as [|p|p] eqn:E; [lia| |lia].
    by rewrite Z.shiftl_mul_pow2. }
  clearbody m'.
  pose proof (Z.div_eucl_eq m' m2 ltac:(lia)) as Heq.
  pose proof (Z.mod_pos_bound m' m2 H2) as Hr.
  unfold Z.modulo in Hr.
  destruct (Z.div_eucl m' m2) as [q r]. cbn [fst snd].
  assert (0 ≤ q) as Hq.
  { assert (0 ≤ m') by (pose proof (Z.pow_pos_nonneg 2 s); nia). nia. }
  assert (F2R m1 e1 / F2R m2 e2 = IZR m' / IZR m2 * bpow e')%R as Hx.
  { replace e1 with (e2 + (e' + s)) by (unfold s; lia).
    unfold F2R. rewrite Hm', mult_IZR, !bpow_add, (bpow_IZR s) by done.
    field.
    repeat split; first [apply Rgt_not_eq, bpow_pos|apply not_0_IZR; lia]. }
  assert (0 < IZR m2)%R as Hm2 by (apply (IZR_lt 0); lia).
  assert (F2R q e' <= F2R m1 e1 / F2R m2 e2 < F2R (q + 1) e')%R as Hfl.
  { rewrite Hx, Heq. unfold F2R. rewrite !plus_IZR, mult_IZR.
    pose proof (bpow_pos e') as HB.
    assert (0 <= IZR r < IZR m2)%R as [Hr1 Hr2].
    { split; [apply (IZR_le 0)|apply IZR_lt]; lia. }
    replace ((IZR m2 * IZR q + IZR r) / IZR m2 * bpow e')%R
      with ((IZR q + IZR r / IZR m2) * bpow e')%R by (field; lra).
    destruct (ratio_bounds (IZR r) (IZR m2)) as [[? ?] _]; [lra|].
    split; nra. }
  split_and!; [done| |].
  - destruct (new_location m2 r) eqn:El; cbn [inbetween].
    + apply new_location_exact in El. subst r.
      rewrite Hx, Heq, Z.add_0_r, mult_IZR. unfold F2R. field. lra.
    + assert (r ≠ 0) as Hr0.
      { intros ->. by rewrite (proj2 (new_location_exact m2 0)) in El. }
      split; [|lra]. rewrite Hx, Heq. unfold F2R.
      rewrite !plus_IZR, mult_IZR. pose proof (bpow_pos e') as HB.
      assert (0 < IZR r)%R by (apply (IZR_lt 0); lia).
      replace ((IZR m2 * IZR q + IZR r) / IZR m2 * bpow e')%R
        with ((IZR q + IZR r / IZR m2) * bpow e')%R by (field; lra).
      assert (IZR r < IZR m2)%R by (apply IZR_lt; lia).
      destruct (ratio_bounds (IZR r) (IZR m2)) as [_ ?]; [lra|].
      nra.
  - destruct (Z.le_gt_cases e' (emin prec emax)) as [Hle|Hgt].
    { etrans; [exact Hle|apply fexp_ge_emin]. }
    assert (fexp prec emax D = D - prec) as HfD.
    { apply fexp_above_emin. unfold e' in Hgt. lia. }
    assert (e' ≤ D - 1) as HeD by (unfold e', prec in *; lia).
    assert (bpow (D - 1) < F2R m1 e1 / F2R m2 e2)%R as Hlow.
    { pose proof (F2R_digits m1 e1 H1) as [Ha _].
      pose proof (F2R_digits m2 e2 H2) as [_ Hb].
      assert (0 < F2R m2 e2)%R as Hpos.
      { unfold F2R. pose proof (bpow_pos e2). nra. }
      apply (Rmult_lt_reg_r (F2R m2 e2)); [done|].
      unfold Rdiv. rewrite Rmult_assoc, Rinv_l, Rmult_1_r by lra.
      replace (Zdigits2 m1 + e1 - 1)
        with ((D - 1) + (Zdigits2 m2 + e2)) in Ha by (unfold D; lia).
      rewrite bpow_add in Ha. pose proof (bpow_pos (D - 1)). nra. }
    assert (2 ^ (D - 1 - e') ≤ q) as Hq2.
    { enough (2 ^ (D - 1 - e') < q + 1) by lia.
      apply (F2R_lt_inv _ _ e'). rewrite <- bpow_on_grid by done. lra. }
    assert (0 < q) by (pose proof (Z.pow_pos_nonneg 2 (D - 1 - e')); lia).
    etrans; [|apply fexp_mono with (a := D)].
    + unfold e'. lia.
    + enough (D - 1 < Zdigits2 q + e') by lia.
      apply digits_above; [done|]. rewrite (bpow_on_grid _ e') by done.
      by apply F2R_le.
Qed.

(** ** Signs *)

Lemma signed_nnf f : signed false f → nnf f.
Proof. by destruct f. Qed.

Lemma nnf_nonneg f : nnf f → nonneg f.
Proof. by destruct f. Qed.

Lemma binary_round_signed sx mx ex :
  signed sx (binary_round prec emax sx mx ex).
Proof.
  unfold binary_round. destruct (shl_align _ _ _) as [mz ez].
  by apply binary_round_aux_signed.
Qed.

Lemma fadd_nnf a b : nnf a → nonneg b → nnf (fadd a b).
Proof.
  destruct a as [[]|[]| |[] ma ea], b as [[]|[]| |[] mb eb]; cbn; try done.
  intros _ _. apply signed_nnf, binary_round_signed.
Qed.

Lemma fmul_nnf a b : nnf a → nnf b → nnf (fmul a b).
Proof.
  destruct a as [[]|[]| |[] ma ea], b as [[]|[]| |[] mb eb]; cbn; try done.
  intros _ _. by apply signed_nnf, binary_round_aux_signed.
Qed.

Lemma fdiv_nnf a b : nnf a → nnf b → nnf (fdiv a b).
Proof.
  destruct a as [[]|[]| |[] ma ea], b as [[]|[]| |[] mb eb]; cbn; try done.
  intros _ _.
  pose proof (SFdiv_core_binary_spec (Z.pos ma) ea (Z.pos mb) eb
                ltac:(done) ltac:(done)) as (Hq & _).
  destruct (SFdiv_core_binary _ _ _ _ _ _) as [[q e'] l]. cbn [fst snd] in *.
  by apply signed_nnf, binary_round_aux_signed.
Qed.

(** ** The last three operations of [compute_rsi] *)

Lemma F2R_pos p e : (0 < F2R (Z.pos p) e)%R.
Proof.
  unfold F2R. pose proof (bpow_pos e).
  assert (0 < IZR (Z.pos p))%R by (by apply (IZR_lt 0)). nra.
Qed.

Lemma F2R_plus a b e : F2R (a + b) e = (F2R a e + F2R b e)%R.
Proof. unfold F2R. rewrite plus_IZR. lra. Qed.

Lemma F2R_minus a b e : F2R (a - b) e = (F2R a e - F2R b e)%R.
Proof. unfold F2R. rewrite minus_IZR. lra. Qed.

Lemma round_result_finite m e :
  0 < m → e ≤ emax - prec →
  ∃ p, m = Z.pos p ∧ round_result false m e = S754_finite false p e.
Proof.
  intros Hm He. destruct m as [|p|p]; [lia| |lia]. exists p.
  cbn. by rewrite (proj2 (Z.leb_le _ _) He).
Qed.

Lemma fadd_1_at_least_one rs :
  nnf rs → is_nan (fadd F1 rs) = true ∨ at_least_one (fadd F1 rs).
Proof.
  destruct rs as [[]|[]| |[] m e]; cbn [nnf]; try done; intros _.
  - right. right. eexists _, _. split; [reflexivity|]. rewrite F2R_1. lra.
  - right. by left.
  - by left.
  - right. unfold fadd, F1, SFadd. cbn [cond_Zopp].
    set (ez := Z.min (-52) e).
    pose proof (shl_align_spec 4503599627370496 (-52) ez) as (Ha & Hae & _).
    pose proof (shl_align_spec m e ez) as (Hb & Hbe & _).
    destruct (shl_align 4503599627370496 (-52) ez) as [a ea].
    destruct (shl_align m e ez) as [b eb]. cbn [fst snd] in *.
    replace ea with ez in Ha by (unfold ez in *; lia).
    replace eb with ez in Hb by (unfold ez in *; lia).
    change (Z.pos a + Z.pos b) with (Z.pos (a + b)). cbn [binary_normalize].
    destruct (binary_round_spec false (a + b) ez)
      as (mr & er & Hmr & -> & _ & HL).
    specialize (HL _ _ canonical_1).
    rewrite Pos2Z.inj_add, F2R_plus, Ha, Hb, F2R_1 in HL.
    pose proof (F2R_pos m e). specialize (HL ltac:(lra)).
    destruct mr as [|p|p]; [rewrite F2R_0 in HL; lra| |lia].
    cbn [round_result]. destruct (_ <=? _); [|by left].
    right. by exists p, er.
Qed.

Lemma fdiv_100_at_most_100 y :
  at_least_one y → at_most_100 (fdiv F100 y).
Proof.
  intros [->|(p & e & -> & Hy)]; [by left|].
  unfold fdiv, F100, SFdiv.
  pose proof (SFdiv_core_binary_spec 7036874417766400 (-46) (Z.pos p) e
                ltac:(done) ltac:(done)) as (Hq & Hx & Hpre).
  destruct (SFdiv_core_binary _ _ _ _ _ _) as [[q e'] l]. cbn [fst snd] in *.
  destruct (binary_round_aux_spec false q e' l _ Hq Hx Hpre)
    as (mr & er & Hmr & Hr & HU & _).
  cbn [xorb]. rewrite Hr.
  destruct (HU _ _ canonical_100) as [Hu He].
  { rewrite F2R_100. pose proof (ratio_bounds 100 (100 * F2R (Z.pos p) e)).
    unfold Rdiv in *. pose proof (F2R_pos p e) as Hp.
    pose proof (Rinv_0_lt_compat _ Hp) as Hi.
    pose proof (Rinv_r (F2R (Z.pos p) e) ltac:(lra)). nra. }
  rewrite F2R_100 in Hu.
  destruct (Z.eq_dec mr 0) as [->|]; [by left|]. right.
  destruct (round_result_finite mr er) as (pr & -> & ->);
    [lia|specialize (He ltac:(lia)); unfold emax, prec; lia|].
  by exists pr, er.
Qed.

Lemma fsub_100_at_most_100 z :
  at_most_100 z → at_most_100 (fsub F100 z).
Proof.
  intros [->|(p & e & -> & Hz)].
  - right. eexists _, _. split; [reflexivity|]. rewrite F2R_100. lra.
  - unfold fsub, F100, SFsub. cbn [cond_Zopp].
    set (ez := Z.min (-46) e).
    pose proof (shl_align_spec 7036874417766400 (-46) ez) as (Ha & Hae & _).
    pose proof (shl_align_spec p e ez) as (Hb & Hbe & _).
    destruct (shl_align 7036874417766400 (-46) ez) as [a ea].
    destruct (shl_align p e ez) as [b eb]. cbn [fst snd] in *.
    replace ea with ez in Ha by (unfold ez in *; lia).
    replace eb with ez in Hb by (unfold ez in *; lia).
    assert (F2R (Z.pos a - Z.pos b) ez = 100 - F2R (Z.pos p) e)%R as Hv.
    { by rewrite F2R_minus, Ha, Hb, F2R_100. }
    pose proof (F2R_pos p e) as Hp.
    destruct (Z.pos a - Z.pos b) as [|d|d] eqn:Ed; cbn [binary_normalize].
    + by left.
    + destruct (binary_round_spec false d ez)
        as (mr & er & Hmr & -> & HU & _).
      destruct (HU _ _ canonical_100) as [Hu He];
        [rewrite F2R_100; lra|].
      rewrite F2R_100 in Hu.
      destruct (Z.eq_dec mr 0) as [->|]; [by left|]. right.
      destruct (round_result_finite mr er) as (pr & -> & ->);
        [lia|specialize (He ltac:(lia)); unfold emax, prec; lia|].
      by exists pr, er.
    + exfalso. pose proof (F2R_pos d ez) as Hd.
      assert (F2R (Z.neg d) ez = - F2R (Z.pos d) ez)%R as Hn.
      { unfold F2R. change (Z.neg d) with (- Z.pos d). rewrite opp_IZR. lra. }
      lra.
Qed.

(** ** The averages of [compute_rsi] on floats *)

Lemma zero_num_nn_elem x : zero_num x → nn_elem x.
Proof. intros [->|[s ->]]; [by left|right]. by eexists. Qed.

Lemma float_cmp_int_0_finite s m e :
  float_cmp_int (S754_finite s m e) 0 = Some (if s then Lt else Gt).
Proof.
  cbn. destruct (0 <=? e) eqn:E.
  - apply Z.leb_le in E. pose proof (Z.pow_pos_nonneg 2 e ltac:(lia) E).
    destruct s; cbn [cond_Zopp]; f_equal.
    + apply Z.compare_lt_iff. nia.
    + apply Z.compare_gt_iff. nia.
  - by destruct s.
Qed.

Lemma gain_nn_elem d : nn_elem (gain (PFloat d)).
Proof.
  unfold gain, py_max, py_gt, py_lt, py_compare.
  destruct d as [s|[]| |[] m e]; rewrite ?float_cmp_int_0_finite; cbn;
    try (by left); right; by eexists.
Qed.

Lemma loss_nn_elem d : nn_elem (loss (PFloat d)).
Proof.
  unfold loss, py_neg, fneg. apply (gain_nn_elem (SFopp d)).
Qed.

Lemma loss_zero_num d :
  py_ge (PFloat d) (PInt 0) = true → zero_num (loss (PFloat d)).
Proof.
  unfold loss, py_ge, py_le, py_max, py_gt, py_lt, py_neg, fneg, py_compare.
  destruct d as [s|[]| |[] m e]; rewrite ?float_cmp_int_0_finite;
    cbn [SFopp negb]; rewrite ?float_cmp_int_0_finite; cbn; try done;
    intros _; try (by left); right; by eexists.
Qed.

(** Sums. *)

Lemma py_add_nn a b :
  nn_acc a → nn_elem b → ∃ c, py_add a b = Ok c ∧ nn_acc c.
Proof.
  intros [->|(fa & -> & Ha)] [->|(fb & -> & Hb)].
  - exists (PInt 0). split; [done|by left].
  - eexists. split; [reflexivity|]. right. eexists. split; [done|].
    by apply (fadd_nnf (S754_zero false)).
  - eexists. split; [reflexivity|]. right. eexists. split; [done|].
    by apply (fadd_nnf fa (S754_zero false)).
  - eexists. split; [reflexivity|]. right. eexists. split; [done|].
    by apply fadd_nnf.
Qed.

Lemma py_add_zero a b :
  zero_num a → zero_num b → ∃ c, py_add a b = Ok c ∧ zero_num c.
Proof.
  intros [->|(sa & ->)] [->|(sb & ->)].
  - exists (PInt 0). split; [done|by left].
  - eexists. split; [reflexivity|]. right. destruct sb; by eexists.
  - eexists. split; [reflexivity|]. right. destruct sa; by eexists.
  - eexists. split; [reflexivity|]. right. destruct sa, sb; by eexists.
Qed.

Lemma foldM_py_add (P Q : pynum → Prop) (l : list pynum) (a : pynum) :
  (∀ a b, P a → Q b → ∃ c, py_add a b = Ok c ∧ P c) →
  P a → Forall Q l → ∃ c, foldM py_add l a = Ok c ∧ P c.
Proof.
  intros Hadd Ha Hl. revert a Ha.
  induction Hl as [|b l Hb Hl IH]; intros a Ha; [by exists a|].
  destruct (Hadd a b Ha Hb) as (c & Hc & HPc). cbn [foldM]. rewrite Hc.
  by apply IH.
Qed.

Lemma py_sum_nn l : Forall nn_elem l → ∃ c, py_sum l = Ok c ∧ nn_acc c.
Proof. intros. apply (foldM_py_add nn_acc nn_elem); [apply py_add_nn|by left|done]. Qed.

Lemma py_sum_zero l : Forall zero_num l → ∃ c, py_sum l = Ok c ∧ zero_num c.
Proof. intros. apply (foldM_py_add zero_num zero_num); [apply py_add_zero|by left|done]. Qed.

(** Division by the period. *)

Section Period.
Variable period : Z.
Hypothesis period_pos : 0 < period.
Hypothesis period_max : period ≤ PY_SSIZE_T_MAX.

Lemma py_truediv_period_nn a :
  nn_acc a → ∃ f, py_truediv a (PInt period) = Ok (PFloat f) ∧ nnf f.
Proof.
  destruct (float_of_int_positive period ltac:(lia)) as (p & e & Hp & _).
  intros [->|(fa & -> & Ha)].
  - unfold py_truediv. destruct (Z.eqb_spec period 0); [lia|]. cbn.
    destruct (Z.ltb_spec period 0); [lia|]. by eexists.
  - unfold py_truediv. cbn [to_float mbind result_bind]. rewrite Hp.
    cbn [mbind result_bind is_zero]. eexists. split; [done|].
    by apply fdiv_nnf.
Qed.

Lemma py_truediv_period_zero a :
  zero_num a →
  ∃ s, py_truediv a (PInt period) = Ok (PFloat (S754_zero s)).
Proof.
  destruct (float_of_int_positive period ltac:(lia)) as (p & e & Hp & _).
  intros [->|(sa & ->)].
  - unfold py_truediv. destruct (Z.eqb_spec period 0); [lia|]. cbn.
    by eexists.
  - unfold py_truediv. cbn [to_float mbind result_bind]. rewrite Hp.
    cbn. by eexists.
Qed.

Lemma float_of_int_pred :
  ∃ f, float_of_int (period - 1) = Ok f ∧ nnf f ∧ is_nan f = false
       ∧ (∀ s, f ≠ S754_infinity s).
Proof.
  destruct (Z.eq_dec period 1) as [->|].
  - by exists (S754_zero false).
  - destruct (float_of_int_positive (period - 1) ltac:(lia))
      as (p & e & Hp & _).
    by exists (S754_finite false p e).
Qed.

Lemma smooth_nn a x :
  nnf a → nn_elem x →
  ∃ f, smooth period (PFloat a) (Ok x) = Ok (PFloat f) ∧ nnf f.
Proof.
  intros Ha Hx. unfold smooth.
  destruct float_of_int_pred as (fp & Hfp & Hnn & _).
  unfold py_mul. cbn [to_float mbind result_bind]. rewrite Hfp.
  cbn [mbind result_bind].
  destruct (py_add_nn (PFloat (fmul a fp)) x) as (u & -> & Hu); [|done|].
  { right. eexists. split; [done|]. by apply fmul_nnf. }
  cbn [mbind result_bind]. by apply py_truediv_period_nn.
Qed.

Lemma smooth_zero s x :
  zero_num x →
  ∃ s', smooth period (PFloat (S754_zero s)) (Ok x)
        = Ok (PFloat (S754_zero s')).
Proof.
  intros Hx. unfold smooth.
  destruct float_of_int_pred as (fp & Hfp & _ & Hnan & Hinf).
  unfold py_mul. cbn [to_float mbind result_bind]. rewrite Hfp.
  cbn [mbind result_bind].
  assert (∃ s', fmul (S754_zero s) fp = S754_zero s') as [s' ->].
  { destruct fp as [?|?| |? ? ?]; cbn; try done; try by eexists.
    by destruct (Hinf s0). }
  destruct (py_add_zero (PFloat (S754_zero s')) x) as (u & -> & Hu);
    [right; by eexists|done|].
  cbn [mbind result_bind]. by apply py_truediv_period_zero.
Qed.
End Period.

Lemma differences_floats fs :
  differences (PFloat <$> fs) = Ok (PFloat <$> float_deltas fs).
Proof.
  induction fs as [|x [|y l] IH]; [done|done|].
  change (PFloat <$> x :: y :: l)
    with (PFloat x :: PFloat y :: (PFloat <$> l)).
  rewrite differences_cons.
  change (PFloat y :: (PFloat <$> l)) with (PFloat <$> y :: l).
  rewrite IH. done.
Qed.

Lemma float_deltas_length x l : length (float_deltas (x :: l)) = length l.
Proof.
  revert x. induction l as [|y l IH]; intros x; [done|].
  cbn [float_deltas length]. f_equal. apply IH.
Qed.

(** In range, as Python tests it. *)

Lemma at_most_100_in_range r :
  at_most_100 r →
  py_le (PInt 0) (PFloat r) = true ∧ py_le (PFloat r) (PInt 100) = true.
Proof.
  intros [->|(p & e & -> & Hr)]; [done|].
  unfold py_le, py_compare. rewrite float_cmp_int_0_finite. split; [done|].
  cbn [float_cmp_int cond_Zopp].
  enough ((if 0 <=? e then Z.pos p * 2 ^ e ?= 100
           else Z.pos p ?= 100 * 2 ^ (- e)) ≠ Gt) as H.
  { by destruct (if 0 <=? e then _ else _). }
  destruct (Z.leb_spec 0 e) as [He|He].
  - apply Z.compare_le_iff. apply le_IZR.
    rewrite mult_IZR, <- bpow_IZR by done. exact Hr.
  - apply Z.compare_le_iff. apply le_IZR.
    rewrite mult_IZR, <- bpow_IZR by lia.
    unfold F2R in Hr. pose proof (bpow_pos (- e)) as HB.
    assert (bpow e * bpow (- e) = 1)%R as H1.
    { rewrite <- bpow_add. replace (e + - e) with 0 by lia. done. }
    nra.
Qed.

Section Wilder.
Variable period : Z.
Hypothesis period_pos : 0 < period.
Hypothesis period_max : period ≤ PY_SSIZE_T_MAX.

Lemma mean_window_nn (xs : list pynum) :
  py_len xs = period → Forall nn_elem xs →
  ∃ f, mean xs = Ok (PFloat f) ∧ nnf f.
Proof.
  intros Hlen Hxs. unfold mean. rewrite Hlen.
  destruct (py_sum_nn xs Hxs) as (c & -> & Hc). cbn [mbind result_bind].
  by apply py_truediv_period_nn.
Qed.

Lemma mean_window_zero (xs : list pynum) :
  py_len xs = period → Forall zero_num xs →
  ∃ s, mean xs = Ok (PFloat (S754_zero s)).
Proof.
  intros Hlen Hxs. unfold mean. rewrite Hlen.
  destruct (py_sum_zero xs Hxs) as (c & -> & Hc). cbn [mbind result_bind].
  by apply py_truediv_period_zero.
Qed.

Lemma smoothing_nn (ds : list float) (g l : float) :
  nnf g → nnf l →
  ∃ g' l', foldM (wilder_step period) (PFloat <$> ds) (PFloat g, PFloat l)
           = Ok (PFloat g', PFloat l')
           ∧ nnf g' ∧ nnf l'.
Proof.
  revert g l. induction ds as [|d ds IH]; intros g l Hg Hl.
  { by exists g, l. }
  change (PFloat <$> d :: ds) with (PFloat d :: (PFloat <$> ds)).
  cbn [foldM].
  change (wilder_step period (PFloat g, PFloat l) (PFloat d))
    with (ag ← smooth period (PFloat g) (Ok (gain (PFloat d)));
          al ← smooth period (PFloat l) (Ok (loss (PFloat d))); Ok (ag, al)).
  destruct (smooth_nn period period_pos period_max g _ Hg (gain_nn_elem d))
    as (g1 & -> & Hg1).
  destruct (smooth_nn period period_pos period_max l _ Hl (loss_nn_elem d))
    as (l1 & -> & Hl1).
  cbn [mbind result_bind]. by apply IH.
Qed.

Lemma smoothing_zero (ds : list float) (g : float) (s : bool) :
  nnf g → Forall (fun d => py_ge (PFloat d) (PInt 0) = true) ds →
  ∃ g' s', foldM (wilder_step period) (PFloat <$> ds)
                 (PFloat g, PFloat (S754_zero s))
           = Ok (PFloat g', PFloat (S754_zero s')).
Proof.
  intros Hg Hds. revert g s Hg.
  induction Hds as [|d ds Hd Hds IH]; intros g s Hg.
  { by exists g, s. }
  change (PFloat <$> d :: ds) with (PFloat d :: (PFloat <$> ds)).
  cbn [foldM].
  change (wilder_step period (PFloat g, PFloat (S754_zero s)) (PFloat d))
    with (ag ← smooth period (PFloat g) (Ok (gain (PFloat d)));
          al ← smooth period (PFloat (S754_zero s)) (Ok (loss (PFloat d)));
          Ok (ag, al)).
  destruct (smooth_nn period period_pos period_max g _ Hg (gain_nn_elem d))
    as (g1 & -> & Hg1).
  destruct (smooth_zero period period_pos period_max s _ (loss_zero_num d Hd))
    as (s1 & ->).
  cbn [mbind result_bind]. by apply IH.
Qed.
End Wilder.

Lemma float_eq_0 l :
  py_eq (PFloat l) (PInt 0) = is_zero l.
Proof.
  unfold py_eq, py_compare.
  destruct l as [s|[]| |s m e]; rewrite ?float_cmp_int_0_finite; try done.
  by destruct s.
Qed.

Lemma py_truediv_floats g l :
  is_zero l = false → py_truediv (PFloat g) (PFloat l) = Ok (PFloat (fdiv g l)).
Proof. intros H. unfold py_truediv. cbn. by rewrite H. Qed.

Lemma py_add_1_float rs :
  py_add (PInt 1) (PFloat rs) = Ok (PFloat (fadd F1 rs)).
Proof. done. Qed.

Lemma py_truediv_100_float y :
  is_zero y = false →
  py_truediv (PInt 100) (PFloat y) = Ok (PFloat (fdiv F100 y)).
Proof.
  intros H. unfold py_truediv. cbn [to_float].
  change (float_of_int 100) with (Ok F100). cbn. by rewrite H.
Qed.

Lemma py_sub_100_float z :
  py_sub (PInt 100) (PFloat z) = Ok (PFloat (fsub F100 z)).
Proof. done. Qed.

(** The final ratio, for averages that are not negative. *)
Lemma rsi_of_averages_range g l :
  nnf g → nnf l →
  ∃ r, rsi_of_averages (PFloat g) (PFloat l) = Ok (PFloat r)
       ∧ (is_nan r = true ∨ at_most_100 r).
Proof.
  intros Hg Hl. unfold rsi_of_averages. rewrite float_eq_0.
  destruct (is_zero l) eqn:Hz.
  { exists F100. split; [done|]. right. right.
    eexists _, _. split; [reflexivity|]. rewrite F2R_100. lra. }
  rewrite (py_truediv_floats g l Hz). cbn [mbind result_bind].
  rewrite py_add_1_float. cbn [mbind result_bind].
  destruct (fadd_1_at_least_one (fdiv g l) (fdiv_nnf g l Hg Hl)) as [Hn|Hy].
  - destruct (fadd F1 (fdiv g l)); try done.
    exists S754_nan. split; [done|by left].
  - pose proof (fdiv_100_at_most_100 _ Hy) as Hq.
    pose proof (fsub_100_at_most_100 _ Hq) as Hr.
    exists (fsub F100 (fdiv F100 (fadd F1 (fdiv g l)))). split; [|by right].
    rewrite py_truediv_100_float.
    + cbn [mbind result_bind]. apply py_sub_100_float.
    + by destruct Hy as [->|(p & e & -> & _)].
Qed.

Lemma py_len_fmap {A B} (f : A → B) (l : list A) :
  py_len (f <$> l) = py_len l.
Proof. unfold py_len. by rewrite length_fmap. Qed.

Lemma Forall_gain (ds : list float) : Forall nn_elem (gain <$> (PFloat <$> ds)).
Proof.
  apply Forall_fmap, Forall_fmap, Forall_forall. intros d _. apply gain_nn_elem.
Qed.

Lemma Forall_loss (ds : list float) : Forall nn_elem (loss <$> (PFloat <$> ds)).
Proof.
  apply Forall_fmap, Forall_fmap, Forall_forall. intros d _. apply loss_nn_elem.
Qed.

(** C8, as stated, fails: the gains and the losses of
    [1.0, 2.0**1023, 1.0, 2.0**1023, 1.0] both sum to infinity, the ratio of
    the two averages is NaN and so is the value returned, which is defined
    and not in [0, 100]. *)
Lemma rsi_can_be_nan :
  compute_rsi (PFloat <$> [F1; BIG; F1; BIG; F1]) 4
  = Ok (Some (PFloat S754_nan))
  ∧ ¬ in_range (PFloat S754_nan).
Proof. split; [by vm_compute|]. by intros [H _]. Qed.

(** C8, amended: on a list of floats and for a positive period,
    [compute_rsi] raises nothing, and the value it returns, when it is not
    [None], is a float that is either NaN or satisfies [0 <= v <= 100]. *)
Theorem compute_rsi_range (closes : list float) (period : Z) :
  0 < period → py_len closes ≤ PY_SSIZE_T_MAX →
  ∃ r, compute_rsi (PFloat <$> closes) period = Ok r
       ∧ ∀ v, r = Some v →
              ∃ f, v = PFloat f ∧ (is_nan f = true ∨ in_range v).
Proof.
  intros Hp Hmax.
  destruct (Z.lt_ge_cases (py_len closes) (period + 1)) as [Hshort|Hlen].
  { exists None. split; [|done].
    unfold compute_rsi. rewrite py_len_fmap.
    by rewrite (proj2 (Z.ltb_lt _ _) Hshort). }
  assert (period ≤ PY_SSIZE_T_MAX) as Hpm by lia.
  rewrite compute_rsi_unfold by (rewrite ?py_len_fmap; lia).
  rewrite differences_floats. cbn [mbind result_bind].
  destruct closes as [|x l]; [unfold py_len in Hlen; cbn in Hlen; lia|].
  pose proof (float_deltas_length x l) as Hdl.
  set (ds := float_deltas (x :: l)) in *.
  assert (Z.to_nat period ≤ length ds)%nat as Hle.
  { unfold py_len in Hlen. cbn [length] in Hlen. lia. }
  rewrite <- !fmap_take, <- !fmap_drop.
  assert (∀ f : pynum → pynum,
            py_len (f <$> (PFloat <$> take (Z.to_nat period) ds)) = period)
    as Hwin.
  { intros f. rewrite !py_len_fmap. unfold py_len. rewrite length_take. lia. }
  destruct (mean_window_nn period Hp Hpm _ (Hwin gain) (Forall_gain _))
    as (g & -> & Hg).
  destruct (mean_window_nn period Hp Hpm _ (Hwin loss) (Forall_loss _))
    as (lo & -> & Hlo).
  cbn [mbind result_bind].
  destruct (smoothing_nn period Hp Hpm (drop (Z.to_nat period) ds) g lo Hg Hlo)
    as (g' & l' & -> & Hg' & Hl').
  cbn [mbind result_bind fst snd].
  destruct (rsi_of_averages_range g' l' Hg' Hl') as (r & -> & Hr).
  exists (Some (PFloat r)). split; [done|].
  intros v [= <-]. exists r. split; [done|].
  destruct Hr as [Hn|Hr]; [by left|right].
  by apply at_most_100_in_range.
Qed.

Lemma compute_rsi_range_witness :
  ∃ r, compute_rsi (PFloat <$> [F1; F2; F1]) 1 = Ok r
       ∧ ∀ v, r = Some v →
              ∃ f, v = PFloat f ∧ (is_nan f = true ∨ in_range v).
Proof. apply compute_rsi_range; [reflexivity|]. intros H; discriminate H. Defined.

(** C7: on a window of at least [period + 1] closes whose consecutive
    differences are all [>= 0], [compute_rsi] returns exactly 100.0 (every
    loss is zero, so the average loss is).  The window is a Python list:
    its length is at most [sys.maxsize]. *)
Theorem compute_rsi_uptrend (closes : list float) (period : Z) :
  0 < period → period + 1 ≤ py_len closes →
  py_len closes ≤ PY_SSIZE_T_MAX →
  Forall (fun d => py_ge (PFloat d) (PInt 0) = true) (float_deltas closes) →
  compute_rsi (PFloat <$> closes) period = Ok (Some (PFloat F100)).
Proof.
  intros Hp Hlen Hmax Hup.
  assert (period ≤ PY_SSIZE_T_MAX) as Hpm by lia.
  rewrite compute_rsi_unfold by (rewrite ?py_len_fmap; lia).
  rewrite differences_floats. cbn [mbind result_bind].
  destruct closes as [|x l]; [unfold py_len in Hlen; cbn in Hlen; lia|].
  pose proof (float_deltas_length x l) as Hdl.
  set (ds := float_deltas (x :: l)) in *.
  assert (Z.to_nat period ≤ length ds)%nat as Hle.
  { unfold py_len in Hlen. cbn [length] in Hlen. lia. }
  rewrite <- !fmap_take, <- !fmap_drop.
  assert (∀ f : pynum → pynum,
            py_len (f <$> (PFloat <$> take (Z.to_nat period) ds)) = period)
    as Hwin.
  { intros f. rewrite !py_len_fmap. unfold py_len. rewrite length_take. lia. }
  destruct (mean_window_nn period Hp Hpm _ (Hwin gain) (Forall_gain _))
    as (g & -> & Hg).
  destruct (mean_window_zero period Hp Hpm
              (loss <$> (PFloat <$> take (Z.to_nat period) ds)) (Hwin loss))
    as (s & ->).
  { apply Forall_fmap, Forall_fmap.
    eapply Forall_impl; [by apply Forall_take|].
    intros d Hd. by apply loss_zero_num. }
  cbn [mbind result_bind].
  destruct (smoothing_zero period Hp Hpm (drop (Z.to_nat period) ds) g s Hg)
    as (g' & s' & ->); [by apply Forall_drop|].
  cbn [mbind result_bind fst snd]. unfold rsi_of_averages.
  by rewrite float_eq_0.
Qed.

Lemma compute_rsi_uptrend_witness :
  compute_rsi (PFloat <$> [F1; F2; F2; F100]) 2 = Ok (Some (PFloat F100)).
Proof.
  apply compute_rsi_uptrend; [reflexivity| | |].
  - intros H; discriminate H.
  - intros H; discriminate H.
  - repeat constructor.
Defined.

(* ===================================================================== *)
(** * The crossing detector and the cycle *)
(* ===================================================================== *)

Lemma new_alerts_app b b' l :
  alerts b' = alerts b ++ l → new_alerts b b' = l.
Proof. unfold new_alerts. intros ->. by rewrite drop_app_length. Qed.


Lemma SFcompare_rank f g c :
  SFcompare f g = Some c → lex_compare (rank f) (rank g) = c.
Proof.
  destruct f as [[]|[]| |[] m1 e1], g as [[]|[]| |[] m2 e2]; cbn;
    intros [= <-]; try reflexivity; unfold lex_compare; cbn.
  all: try rewrite Z.compare_opp; try rewrite (Z.compare_antisym e1 e2);
    destruct (e1 ?= e2); cbn; try done.
Qed.

Lemma last_alert_time_setdefault key symbol b :
  last_alert_time key symbol (setdefault symbol b).2
  = last_alert_time key symbol b.
Proof.
  unfold last_alert_time, setdefault; cbn.
  destruct (state b !! symbol) eqn:E; [by rewrite E|].
  cbn. by rewrite lookup_insert_eq.
Qed.

Lemma setdefault_present symbol b :
  is_Some (state (setdefault symbol b).2 !! symbol).
Proof.
  unfold setdefault; cbn.
  destruct (state b !! symbol) eqn:E; [by rewrite E|].
  cbn. by rewrite lookup_insert_eq.
Qed.

Lemma alerts_setdefault symbol b : alerts (setdefault symbol b).2 = alerts b.
Proof. unfold setdefault; cbn. by destruct (state b !! symbol). Qed.

Lemma state_setdefault_ne symbol s b :
  s ≠ symbol → state (setdefault symbol b).2 !! s = state b !! s.
Proof.
  intros. unfold setdefault; cbn. destruct (state b !! symbol); [done|].
  cbn. by rewrite lookup_insert_ne.
Qed.

Lemma last_alert_time_set key key' symbol v a b :
  is_Some (state b !! symbol) →
  last_alert_time key' symbol
    (with_state (alter <[key := v]> symbol) (add_alert a b))
  = if decide (key = key') then Some v else last_alert_time key' symbol b.
Proof.
  intros [d Hd]. unfold last_alert_time; cbn.
  rewrite lookup_alter_eq, Hd; cbn.
  case_decide; subst; [by rewrite lookup_insert_eq|by rewrite lookup_insert_ne].
Qed.

Section Block.
Variables (w : io) (symbol interval : string).
Variables (cur : pynum) (t : Z) (price : pynum).
Variables (dir : direction) (crossed : bool) (b : bot).

Let r := block w symbol interval cur t price dir crossed b.
Let a := alert_of symbol interval dir cur price t.
Let f := fired symbol t dir crossed b.

Lemma block_alerts : alerts r.2 = alerts b ++ (if f then [a] else []).
Proof.
  subst r f a. unfold block.
  destruct (fired _ _ _ _ _); cbn; [|by rewrite app_nil_r].
  by destruct (deliver w _).
Qed.

Lemma block_result : r.1 = if f then deliver w a else Ok ().
Proof. subst r f a. unfold block. by destruct (fired _ _ _ _ _). Qed.

Lemma block_state_ne s : s ≠ symbol → state r.2 !! s = state b !! s.
Proof.
  intros. subst r. unfold block.
  destruct (fired _ _ _ _ _); cbn; [|done].
  destruct (deliver w _); cbn; [|done]. by rewrite lookup_alter_ne.
Qed.

Lemma block_present :
  is_Some (state b !! symbol) → is_Some (state r.2 !! symbol).
Proof.
  intros [d Hd]. subst r. unfold block.
  destruct (fired _ _ _ _ _); cbn; [|by rewrite Hd].
  destruct (deliver w _); cbn; [|by rewrite Hd].
  by rewrite lookup_alter_eq, Hd.
Qed.

Lemma block_field key :
  is_Some (state b !! symbol) →
  last_alert_time key symbol r.2 =
  if f && succeeded (deliver w a) && bool_decide (dedup_key dir = key)
  then Some t else last_alert_time key symbol b.
Proof.
  intros Hs. subst r f a. unfold block.
  destruct (fired _ _ _ _ _); cbn; [|done].
  destruct (deliver w _); cbn; [|done].
  rewrite last_alert_time_set by done.
  by case_decide; case_bool_decide.
Qed.

Lemma block_rest :
  state_file r.2 = state_file b ∧ requests r.2 = requests b
  ∧ errors r.2 = errors b.
Proof.
  subst r. unfold block. destruct (fired _ _ _ _ _); cbn; [|done].
  by destruct (deliver w _).
Qed.

Lemma block_quiet : f = false → r = (Ok (), b).
Proof. subst r f. unfold block. by intros ->. Qed.
End Block.

Section Evaluate.
Variables (w : io) (symbol interval : string).
Variables (oversold overbought cur prev : pynum) (t : Z) (price : pynum).

Lemma crossing_eq dir (crossed : botM bool) (c : bool) b :
  crossed b = (Ok c, b) →
  crossing w symbol interval dir (dedup_key dir) crossed
           (Some cur) price t b
  = block w symbol interval cur t price dir c b.
Proof.
  intros Hc.
  unfold crossing, block, fired, last_alert_time, get_field, send_alert,
    set_field, lift, mbind, botM_bind; cbn.
  rewrite Hc. destruct c; [|done]; cbn.
  destruct (bool_decide _); [|done].
  by destruct (deliver w _) as [[]|].
Qed.

Lemma both_eq op1 op2 x y b :
  both (rsi_test op1 (Some prev) x) (rsi_test op2 (Some cur) y) b
  = (Ok (op1 prev x && op2 cur y), b).
Proof.
  unfold both, rsi_test, lift, mbind, botM_bind.
  by destruct (op1 prev x).
Qed.

Let run (b : bot) : result unit * bot :=
  evaluate w symbol interval oversold overbought (Some cur) (Some prev)
           t price b.
Let cond := crossed_into oversold overbought prev cur.
Let blk := block w symbol interval cur t price.

Lemma evaluate_eq b :
  run b =
  match blk OVERSOLD (cond OVERSOLD) (setdefault symbol b).2 with
  | (Ok _, b1) => blk OVERBOUGHT (cond OVERBOUGHT) b1
  | (Raise e, b1) => (Raise e, b1)
  end.
Proof.
  subst run blk cond. unfold evaluate.
  unfold mbind at 1 2, botM_bind. cbn.
  rewrite (crossing_eq OVERSOLD _ _ _ (both_eq _ _ _ _ _)).
  fold (into_oversold oversold prev cur).
  destruct (block _ _ _ _ _ _ OVERSOLD _ _) as [[[]|e] b1]; [|done].
  by rewrite (crossing_eq OVERBOUGHT _ _ _ (both_eq _ _ _ _ _)).
Qed.

Let fd (dir : direction) (b : bot) : bool := fired symbol t dir (cond dir) b.
Let a (dir : direction) : alert := alert_of symbol interval dir cur price t.
Let sent (dir : direction) (b : bot) : bool :=
  fd dir b && succeeded (deliver w (a dir)).

(** The run, summarised: the alerts it adds and the two dedup fields
    afterwards. *)
Lemma evaluate_summary b :
  let ok1 := negb (fd OVERSOLD b) || sent OVERSOLD b in
  new_alerts b (run b).2 =
    (if fd OVERSOLD b then [a OVERSOLD] else [])
    ++ (if ok1 && fd OVERBOUGHT b then [a OVERBOUGHT] else [])
  ∧ last_alert_time "last_oversold" symbol (run b).2 =
    (if sent OVERSOLD b then Some t
     else last_alert_time "last_oversold" symbol b)
  ∧ last_alert_time "last_overbought" symbol (run b).2 =
    (if ok1 && sent OVERBOUGHT b then Some t
     else last_alert_time "last_overbought" symbol b)
  ∧ is_Some (state (run b).2 !! symbol)
  ∧ (run b).1 = (if fd OVERSOLD b && negb (sent OVERSOLD b)
                 then deliver w (a OVERSOLD)
                 else if fd OVERBOUGHT b then deliver w (a OVERBOUGHT)
                 else Ok ()).
Proof.
  cbn zeta. rewrite evaluate_eq.
  pose proof (setdefault_present symbol b) as P0.
  pose proof (alerts_setdefault symbol b) as A0.
  assert (∀ dir c, fired symbol t dir c (setdefault symbol b).2
                   = fired symbol t dir c b) as F0.
  { intros. unfold fired. by rewrite last_alert_time_setdefault. }
  pose proof (last_alert_time_setdefault "last_oversold" symbol b) as S0.
  pose proof (last_alert_time_setdefault "last_overbought" symbol b) as O0.
  set (b0 := (setdefault symbol b).2) in *. clearbody b0.
  pose proof (block_alerts w symbol interval cur t price OVERSOLD
                (cond OVERSOLD) b0) as A1.
  pose proof (block_result w symbol interval cur t price OVERSOLD
                (cond OVERSOLD) b0) as R1.
  pose proof (block_field w symbol interval cur t price OVERSOLD
                (cond OVERSOLD) b0 "last_oversold" P0) as S1.
  pose proof (block_field w symbol interval cur t price OVERSOLD
                (cond OVERSOLD) b0 "last_overbought" P0) as O1.
  pose proof (block_present w symbol interval cur t price OVERSOLD
                (cond OVERSOLD) b0 P0) as P1.
  assert (∀ c, fired symbol t OVERBOUGHT c
            (blk OVERSOLD (cond OVERSOLD) b0).2
          = fired symbol t OVERBOUGHT c b) as F1.
  { intros. unfold fired, blk. cbn [dedup_key].
    by rewrite O1, andb_false_r, O0. }
  fold (blk OVERSOLD (cond OVERSOLD) b0) in *.
  destruct (blk OVERSOLD (cond OVERSOLD) b0) as [r1 b1].
  cbn [fst snd dedup_key] in *.
  rewrite bool_decide_eq_true_2, andb_true_r in S1 by done.
  rewrite andb_false_r, O0 in O1.
  rewrite F0, ?S0, ?A0 in *.
  fold (fd OVERSOLD b) (a OVERSOLD) in *. fold (sent OVERSOLD b) in *.
  destruct r1 as [[]|e]; cbn [snd fst].
  - pose proof (block_alerts w symbol interval cur t price OVERBOUGHT
                  (cond OVERBOUGHT) b1) as A2.
    pose proof (block_result w symbol interval cur t price OVERBOUGHT
                  (cond OVERBOUGHT) b1) as R2.
    pose proof (block_field w symbol interval cur t price OVERBOUGHT
                  (cond OVERBOUGHT) b1 "last_oversold" P1) as S2.
    pose proof (block_field w symbol interval cur t price OVERBOUGHT
                  (cond OVERBOUGHT) b1 "last_overbought" P1) as O2.
    pose proof (block_present w symbol interval cur t price OVERBOUGHT
                  (cond OVERBOUGHT) b1 P1) as P2.
    fold (blk OVERBOUGHT (cond OVERBOUGHT) b1) in *.
    destruct (blk OVERBOUGHT (cond OVERBOUGHT) b1) as [r2 b2].
    cbn [fst snd dedup_key] in *.
    rewrite bool_decide_eq_true_2, andb_true_r in O2 by done.
    rewrite andb_false_r in S2.
    rewrite F1, ?O1 in *.
    fold (fd OVERBOUGHT b) (a OVERBOUGHT) in *.
    fold (sent OVERBOUGHT b) in *.
    assert (negb (fd OVERSOLD b) || sent OVERSOLD b = true) as Hok.
    { unfold sent. destruct (fd OVERSOLD b); [|done]. by rewrite <- R1. }
    rewrite Hok. cbn [andb]. split_and!; [|congruence|done|done|].
    + apply new_alerts_app. by rewrite A2, A1, <- app_assoc.
    + rewrite R2. destruct (fd OVERSOLD b); [|done].
      cbn in Hok. by rewrite Hok.
  - assert (fd OVERSOLD b = true ∧ sent OVERSOLD b = false) as [Hf Hs].
    { unfold sent. destruct (fd OVERSOLD b); [|done]. by rewrite <- R1. }
    rewrite Hf, Hs in *. cbn [negb orb andb].
    split_and!; [|done|done|done|done].
    apply new_alerts_app. by rewrite A1, app_nil_r.
Qed.
End Evaluate.

Lemma fires_app_cases dir b b' (c1 c2 : bool) a1 a2 :
  new_alerts b b' = (if c1 then [a1] else []) ++ (if c2 then [a2] else []) →
  fires dir b b' ↔
  (c1 = true ∧ a_direction a1 = dir) ∨ (c2 = true ∧ a_direction a2 = dir).
Proof.
  intros E. unfold fires. rewrite E. split.
  - intros (a & Hin & Hd).
    destruct c1, c2; cbn in Hin;
      rewrite ?elem_of_cons, ?elem_of_nil in Hin; intuition (subst; auto).
  - intros [[-> Hd]|[-> Hd]].
    + exists a1. split; [apply elem_of_cons; by left|done].
    + exists a2. split; [|done].
      destruct c1; cbn; rewrite ?elem_of_cons; auto.
Qed.

(** C2, as stated, fails: when the notification channels raise, the
    oversold alert has been issued and ["last_oversold"] is not the close
    time of the last candle afterwards. *)
Lemma alert_without_dedup_write :
  let b' := (evaluate channels_down "AAA" "15m" (PFloat F30) (PFloat F70)
                      (Some (PFloat F28)) (Some (PFloat F35)) 3 (PFloat F1)
                      fresh).2 in
  fires OVERSOLD fresh b'
  ∧ last_alert_time "last_oversold" "AAA" b' ≠ Some 3.
Proof.
  split.
  - exists (alert_of "AAA" "15m" OVERSOLD (PFloat F28) (PFloat F1) 3).
    split; [|done]. vm_compute. constructor.
  - intros H; vm_compute in H; discriminate H.
Qed.

(** C2, amended: for defined RSI values, the oversold alert is issued
    exactly when [previous_rsi > oversold], [current_rsi <= oversold] and
    the stored ["last_oversold"] differs from the close time of the last
    candle.  When it is issued and [send_alert] returns,
    ["last_oversold"] is that close time afterwards; when [send_alert]
    raises, the evaluation raises the same exception and
    ["last_oversold"] is what it was.  With oversold = 30: 35 then 28
    issues the alert (on a candle not alerted yet), 25 then 28 does
    not. *)
Theorem oversold_alert_on_crossing (w : io) (symbol interval : string)
    (oversold overbought cur prev : pynum) (t : Z) (price : pynum) (b : bot) :
  let run := evaluate w symbol interval oversold overbought
                      (Some cur) (Some prev) t price b in
  let sent := deliver w (alert_of symbol interval OVERSOLD cur price t) in
  (fires OVERSOLD b run.2 ↔
     py_gt prev oversold = true ∧ py_le cur oversold = true
     ∧ last_alert_time "last_oversold" symbol b ≠ Some t)
  ∧ (fires OVERSOLD b run.2 → sent = Ok () →
     last_alert_time "last_oversold" symbol run.2 = Some t)
  ∧ (∀ e, fires OVERSOLD b run.2 → sent = Raise e →
     run.1 = Raise e
     ∧ last_alert_time "last_oversold" symbol run.2
       = last_alert_time "last_oversold" symbol b)
  ∧ (oversold = PFloat F30 → prev = PFloat F35 → cur = PFloat F28 →
     last_alert_time "last_oversold" symbol b ≠ Some t →
     fires OVERSOLD b run.2)
  ∧ (oversold = PFloat F30 → prev = PFloat F25 → cur = PFloat F28 →
     ¬ fires OVERSOLD b run.2).
Proof.
  intros run sent.
  destruct (evaluate_summary w symbol interval oversold overbought cur prev
              t price b) as (HA & HS & _ & _ & HR).
  fold run in HA, HS, HR. fold sent in HS, HR.
  cbn [crossed_into] in HA, HS, HR.
  pose proof (fires_app_cases OVERSOLD _ _ _ _ _ _ HA) as Hf.
  cbn [alert_of a_direction] in Hf.
  assert (fires OVERSOLD b run.2 ↔
          py_gt prev oversold = true ∧ py_le cur oversold = true
          ∧ last_alert_time "last_oversold" symbol b ≠ Some t) as Hiff.
  { rewrite Hf. unfold fired, into_oversold. cbn [dedup_key].
    rewrite !andb_true_iff, bool_decide_eq_true. intuition congruence. }
  split_and!; [done| | | |].
  - intros Hfire Hd. rewrite HS.
    apply Hf in Hfire as [[Hfire _]|[_ [=]]].
    by rewrite Hfire, Hd.
  - intros e Hfire Hd.
    apply Hf in Hfire as [[Hfire _]|[_ [=]]].
    rewrite HR, HS, Hfire, Hd. done.
  - intros -> -> -> Hne. apply Hiff. by split_and!.
  - intros -> -> -> Hfire. by apply Hiff in Hfire as (Hgt & _).
Qed.

Lemma lex_lt_le_trans x y z :
  lex_compare x y = Lt → lex_compare y z ≠ Gt → lex_compare x z = Lt.
Proof.
  destruct x as [[x1 x2] x3], y as [[y1 y2] y3], z as [[z1 z2] z3].
  unfold lex_compare; cbn.
  destruct (Z.compare_spec x1 y1), (Z.compare_spec y1 z1),
    (Z.compare_spec x2 y2), (Z.compare_spec y2 z2),
    (Z.compare_spec x3 y3), (Z.compare_spec y3 z3); try done; intros _ _;
    destruct (Z.compare_spec x1 z1); try lia;
    destruct (Z.compare_spec x2 z2); try lia;
    destruct (Z.compare_spec x3 z3); try lia; done.
Qed.

Lemma lex_compare_refl x : lex_compare x x = Eq.
Proof.
  destruct x as [[x1 x2] x3]. unfold lex_compare; cbn.
  by rewrite !Z.compare_refl.
Qed.

Lemma float_lt_rank f g :
  py_lt (PFloat f) (PFloat g) = true → lex_compare (rank f) (rank g) = Lt.
Proof.
  unfold py_lt, py_compare. destruct (SFcompare f g) as [c|] eqn:E; [|done].
  apply SFcompare_rank in E. by destruct c.
Qed.

Lemma float_le_rank f g :
  py_le (PFloat f) (PFloat g) = true → lex_compare (rank f) (rank g) ≠ Gt.
Proof.
  unfold py_le, py_compare. destruct (SFcompare f g) as [c|] eqn:E; [|done].
  apply SFcompare_rank in E. by destruct c; rewrite E.
Qed.

(** The two crossing conditions exclude each other. *)
Lemma crossings_exclusive (oversold overbought prev cur : float) :
  into_oversold (PFloat oversold) (PFloat prev) (PFloat cur)
  && into_overbought (PFloat overbought) (PFloat prev) (PFloat cur) = false.
Proof.
  apply not_true_is_false. unfold into_oversold, into_overbought, py_gt, py_ge.
  rewrite !andb_true_iff. intros [[H1 H2] [H3 H4]].
  apply float_lt_rank in H1, H3. apply float_le_rank in H2, H4.
  pose proof (lex_lt_le_trans _ _ _ H3 H4) as H5.
  pose proof (lex_lt_le_trans _ _ _ H5 H2) as H6.
  pose proof (lex_lt_le_trans _ _ _ H1 ltac:(by rewrite H6)) as H7.
  by rewrite lex_compare_refl in H7.
Qed.

(** C4, as stated, fails: no thresholds, RSI values and dedup state make
    one evaluation emit both an OVERSOLD and an OVERBOUGHT alert. *)
Lemma no_double_alert :
  ¬ ∃ (w : io) (symbol interval : string)
      (oversold overbought cur prev : float) (t : Z) (price : pynum)
      (b : bot),
      let b' := (evaluate w symbol interval (PFloat oversold)
                          (PFloat overbought) (Some (PFloat cur))
                          (Some (PFloat prev)) t price b).2 in
      fires OVERSOLD b b' ∧ fires OVERBOUGHT b b'.
Proof.
  intros (w & symbol & interval & oversold & overbought & cur & prev & t
          & price & b & H1 & H2).
  destruct (evaluate_summary w symbol interval (PFloat oversold)
              (PFloat overbought) (PFloat cur) (PFloat prev) t price b)
    as (HA & _).
  apply (fires_app_cases _ _ _ _ _ _ _ HA) in H1 as [[H1 _]|[_ [=]]].
  apply (fires_app_cases _ _ _ _ _ _ _ HA) in H2 as [[_ [=]]|[H2 _]].
  apply andb_true_iff in H2 as [_ H2].
  unfold fired in H1, H2. cbn [crossed_into] in H1, H2.
  apply andb_true_iff in H1 as [H1 _]. apply andb_true_iff in H2 as [H2 _].
  pose proof (crossings_exclusive oversold overbought prev cur) as H.
  by rewrite H1, H2 in H.
Qed.

(** C4, amended: the two crossings are evaluated one after the other in
    the same call, but their conditions exclude each other, so that one
    evaluation emits at most one alert. *)
Theorem at_most_one_alert (w : io) (symbol interval : string)
    (oversold overbought cur prev : float) (t : Z) (price : pynum) (b : bot) :
  let b' := (evaluate w symbol interval (PFloat oversold)
                      (PFloat overbought) (Some (PFloat cur))
                      (Some (PFloat prev)) t price b).2 in
  (length (new_alerts b b') ≤ 1)%nat
  ∧ into_oversold (PFloat oversold) (PFloat prev) (PFloat cur)
    && into_overbought (PFloat overbought) (PFloat prev) (PFloat cur)
    = false.
Proof.
  intros b'. split; [|apply crossings_exclusive].
  destruct (evaluate_summary w symbol interval (PFloat oversold)
              (PFloat overbought) (PFloat cur) (PFloat prev) t price b)
    as (HA & _). fold b' in HA. rewrite HA.
  pose proof (crossings_exclusive oversold overbought prev cur) as H.
  unfold fired. cbn [crossed_into].
  destruct (into_oversold _ _ _), (into_overbought _ _ _); try done; cbn;
    repeat (destruct (bool_decide _); cbn); try lia;
    destruct (succeeded _); cbn; lia.
Qed.

Lemma setdefault_id symbol b :
  is_Some (state b !! symbol) → setdefault symbol b = (Ok (), b).
Proof. intros [d Hd]. unfold setdefault. by rewrite Hd. Qed.

(** An evaluation that returned leaves an entry for its symbol on which
    the same evaluation does nothing. *)
Lemma evaluate_again w symbol interval oversold overbought cur prev t price
    b b2 :
  let run := evaluate w symbol interval oversold overbought (Some cur)
                      (Some prev) t price in
  (run b).1 = Ok () → state b2 !! symbol = state (run b).2 !! symbol →
  run b2 = (Ok (), b2).
Proof.
  intros run Hok Hst.
  destruct (evaluate_summary w symbol interval oversold overbought cur prev
              t price b) as (_ & HS & HO & HP & HR).
  fold run in HS, HO, HP, HR. rewrite Hok in HR.
  assert (∀ dir c, fired symbol t dir c b2 = fired symbol t dir c (run b).2)
    as HF.
  { intros. unfold fired, last_alert_time. by rewrite Hst. }
  unfold run at 1. rewrite evaluate_eq.
  rewrite setdefault_id by (by rewrite Hst). cbn [snd].
  set (c1 := crossed_into oversold overbought prev cur OVERSOLD) in *.
  set (c2 := crossed_into oversold overbought prev cur OVERBOUGHT) in *.
  assert (fired symbol t OVERSOLD c1 b2 = false) as H1.
  { rewrite HF. unfold fired at 1. cbn [dedup_key]. rewrite HS.
    unfold fired in *. cbn [dedup_key] in *.
    destruct c1; [|done]. cbn [andb] in *.
    destruct (bool_decide (last_alert_time "last_oversold" symbol b ≠ Some t))
      eqn:E1; cbn [andb negb orb] in *.
    - destruct (deliver w _) as [[]|]; cbn [succeeded andb negb] in *;
        [|done]. by apply bool_decide_eq_false_2; intros H; apply H.
    - rewrite E1. done. }
  assert (fired symbol t OVERBOUGHT c2 b2 = false) as H2.
  { rewrite HF. unfold fired at 1. cbn [dedup_key]. rewrite HO.
    unfold fired in *. cbn [dedup_key] in *.
    destruct c2; [|done]. cbn [andb] in *.
    destruct (bool_decide (last_alert_time "last_overbought" symbol b
                           ≠ Some t)) eqn:E2; cbn [andb negb orb] in *.
    - destruct (c1 && bool_decide _) eqn:E1; cbn [andb negb orb] in *.
      + destruct (deliver w (alert_of symbol interval OVERSOLD _ _ _))
          as [[]|]; cbn [succeeded andb negb orb] in *; [|done].
        destruct (deliver w _) as [[]|]; cbn [succeeded andb negb] in *;
          [|done]. by apply bool_decide_eq_false_2; intros H; apply H.
      + destruct (deliver w _) as [[]|]; cbn [succeeded andb negb] in *;
          [|done]. by apply bool_decide_eq_false_2; intros H; apply H.
    - rewrite andb_false_r. by rewrite E2. }
  rewrite block_quiet by done. by rewrite block_quiet.
Qed.



(** C9: with oversold = 30, overbought = 70, previous RSI 69, current RSI
    71 and a stored ["last_overbought"] other than the close time, the
    evaluation emits exactly one alert, OVERBOUGHT, and ["last_oversold"]
    is what it was. *)
Theorem overbought_alert_leaves_oversold_field (w : io)
    (symbol interval : string) (t : Z) (price : pynum) (b : bot) :
  last_alert_time "last_overbought" symbol b ≠ Some t →
  let b' := (evaluate w symbol interval (PFloat F30) (PFloat F70)
                      (Some (PFloat F71)) (Some (PFloat F69)) t price b).2 in
  new_alerts b b' = [alert_of symbol interval OVERBOUGHT (PFloat F71) price t]
  ∧ last_alert_time "last_oversold" symbol b'
    = last_alert_time "last_oversold" symbol b.
Proof.
  intros Hne b'.
  destruct (evaluate_summary w symbol interval (PFloat F30) (PFloat F70)
              (PFloat F71) (PFloat F69) t price b) as (HA & HS & _).
  fold b' in HA, HS. unfold fired in HA, HS. cbn [crossed_into dedup_key] in *.
  change (into_oversold (PFloat F30) (PFloat F69) (PFloat F71)) with false in *.
  change (into_overbought (PFloat F70) (PFloat F69) (PFloat F71)) with true in *.
  cbn [andb negb orb] in *. by rewrite bool_decide_eq_true_2 in HA by done.
Qed.

Section Preserves.
Context (R : bot → bot → Prop) `{!Reflexive R} `{!Transitive R}.

Lemma preserves_ret {A} (x : A) : preserves R (mret x : botM A).
Proof. intros b. reflexivity. Qed.

Lemma preserves_lift {A} (r : result A) : preserves R (lift r).
Proof. intros b. reflexivity. Qed.

Lemma preserves_bind {A B} (m : botM A) (f : A → botM B) :
  preserves R m → (∀ x, preserves R (f x)) → preserves R (m ≫= f).
Proof.
  intros Hm Hf b. unfold mbind, botM_bind.
  specialize (Hm b). destruct (m b) as [[x|e] b1]; cbn in *; [|done].
  etrans; [done|apply Hf].
Qed.

Lemma preserves_if {A} (c : bool) (m1 m2 : botM A) :
  preserves R m1 → preserves R m2 → preserves R (if c then m1 else m2).
Proof. by destruct c. Qed.
End Preserves.

#[local] Instance untouched_refl symbol : Reflexive (untouched symbol).
Proof. by intros b. Qed.

#[local] Instance untouched_trans symbol : Transitive (untouched symbol).
Proof.
  intros b1 b2 b3 (H1 & H2 & H3 & H4) (G1 & G2 & G3 & G4).
  split_and!; [|  |congruence|congruence].
  - intros s Hs. by rewrite G1, H1.
  - intros k Hk1 Hk2. by rewrite G2, H2.
Qed.

Section Frame.
Variables (w : io) (symbol interval : string).

Lemma untouched_setdefault : preserves (untouched symbol) (setdefault symbol).
Proof.
  intros b. split_and!; try by (unfold setdefault; cbn; destruct (state b !! symbol)).
  - intros. by apply state_setdefault_ne.
  - intros. apply last_alert_time_setdefault.
Qed.

Lemma untouched_get_field key :
  preserves (untouched symbol) (get_field symbol key).
Proof. intros b. reflexivity. Qed.

Lemma untouched_send_alert a : preserves (untouched symbol) (send_alert w a).
Proof. by intros b. Qed.

Lemma untouched_set_field key v :
  key = "last_oversold" ∨ key = "last_overbought" →
  preserves (untouched symbol) (set_field symbol key v).
Proof.
  intros Hk b. split_and!; [| |done|done].
  - intros s Hs. cbn. by rewrite lookup_alter_ne.
  - intros k Hk1 Hk2. unfold last_alert_time; cbn.
    rewrite lookup_alter_eq. destruct (state b !! symbol); [|done]. cbn.
    rewrite lookup_insert_ne; [done|]. by destruct Hk as [-> | ->].
Qed.

Lemma untouched_rsi_test op rsi x :
  preserves (untouched symbol) (rsi_test op rsi x).
Proof. apply preserves_lift, _. Qed.

Lemma untouched_both m1 m2 :
  preserves (untouched symbol) m1 → preserves (untouched symbol) m2 →
  preserves (untouched symbol) (both m1 m2).
Proof.
  intros H1 H2. apply preserves_bind; [apply _|done|]. intros c.
  apply preserves_if; [done|apply preserves_ret, _].
Qed.

Lemma untouched_crossing dir crossed cur price t :
  preserves (untouched symbol) crossed →
  preserves (untouched symbol)
    (crossing w symbol interval dir (dedup_key dir) crossed cur price t).
Proof.
  intros Hc. unfold crossing.
  apply preserves_bind; [apply _|done|]. intros c.
  apply preserves_if; [|apply preserves_ret, _].
  apply preserves_bind; [apply _|apply untouched_get_field|].
  intros last. apply preserves_if; [|apply preserves_ret, _].
  apply preserves_bind; [apply _|apply preserves_lift, _|].
  intros msg. apply preserves_bind; [apply _|apply untouched_send_alert|].
  intros _. apply untouched_set_field. destruct dir; auto.
Qed.

Lemma untouched_evaluate oversold overbought cur prev t price :
  preserves (untouched symbol)
    (evaluate w symbol interval oversold overbought cur prev t price).
Proof.
  unfold evaluate.
  apply preserves_bind; [apply _|apply untouched_setdefault|]. intros _.
  apply preserves_bind; [apply _| |].
  { apply (untouched_crossing OVERSOLD).
    apply untouched_both; apply untouched_rsi_test. }
  intros _. apply (untouched_crossing OVERBOUGHT).
  apply untouched_both; apply untouched_rsi_test.
Qed.

Lemma untouched_fetch_klines :
preserves (untouched symbol) (fetch_klines w symbol interval).
Proof. by intros b. Qed.

Lemma untouched_check_symbol period oversold overbought :
  preserves (untouched symbol)
    (check_symbol w symbol interval period oversold overbought).
Proof.
  unfold check_symbol.
  apply preserves_bind; [apply _|apply untouched_fetch_klines|]. intros klines.
  destruct (extract_closed_closes _ _) as [closes times].
  apply preserves_if; [apply preserves_ret, _|].
  repeat (apply preserves_bind; [apply _|apply preserves_lift, _|]; intros ?).
  apply untouched_evaluate.
Qed.
End Frame.

(** C10: whatever [check_symbol] does for [symbol] (return or raise), the
    entries of the other symbols are what they were, and in the entry of
    [symbol] only ["last_oversold"] and ["last_overbought"] can change. *)
Theorem check_symbol_touches_one_entry (w : io) (symbol interval : string)
    (period : Z) (oversold overbought : pynum) (b : bot) :
  let b' := (check_symbol w symbol interval period oversold overbought b).2 in
  (∀ other, other ≠ symbol → state b' !! other = state b !! other)
  ∧ (∀ key, key ≠ "last_oversold" → key ≠ "last_overbought" →
            last_alert_time key symbol b' = last_alert_time key symbol b).
Proof.
  intros b'.
  destruct (untouched_check_symbol w symbol interval period oversold
              overbought b) as (H1 & H2 & _).
  by split.
Qed.

#[local] Instance same_trace_refl : Reflexive same_trace.
Proof. by intros b. Qed.

#[local] Instance same_trace_trans : Transitive same_trace.
Proof. intros b1 b2 b3 (? & ? & ?) (? & ? & ?). split_and!; congruence. Qed.

Lemma same_trace_evaluate w symbol interval oversold overbought cur prev t
    price :
  preserves same_trace
    (evaluate w symbol interval oversold overbought cur prev t price).
Proof.
  unfold evaluate, crossing, both, rsi_test.
  repeat first
    [ apply preserves_bind; [apply _| |intros ?]
    | apply preserves_if
    | apply preserves_ret, _
    | apply preserves_lift, _
    | by intros b
    | intros b; unfold setdefault; cbn; by destruct (state b !! symbol) ].
Qed.

Lemma check_symbol_after_request w symbol interval period oversold
    overbought b :
  same_trace (add_request symbol b)
    (check_symbol w symbol interval period oversold overbought b).2.
Proof.
  unfold check_symbol, mbind at 1, botM_bind, fetch_klines.
  destruct (response w) as [klines|e]; [|done].
  destruct (extract_closed_closes _ _) as [closes times].
  set (b0 := add_request symbol b).
  set (m := if _ <? _ then _ else _).
  enough (preserves same_trace m) as H by apply (H b0).
  subst m. apply preserves_if; [apply preserves_ret, _|].
  repeat (apply preserves_bind; [apply _|apply preserves_lift, _|]; intros ?).
  apply same_trace_evaluate.
Qed.

Lemma check_symbol_trace w symbol interval period oversold overbought b :
  let b' := (check_symbol w symbol interval period oversold overbought b).2 in
  requests b' = requests b ++ [symbol] ∧ state_file b' = state_file b
  ∧ errors b' = errors b.
Proof.
  apply (check_symbol_after_request w symbol interval period oversold
           overbought b).
Qed.

Lemma for_symbols_app c ios k l1 l2 b :
  for_symbols c ios k (l1 ++ l2) b =
  match for_symbols c ios k l1 b with
  | (Ok _, b1) => for_symbols c ios (k + length l1) l2 b1
  | (Raise e, b1) => (Raise e, b1)
  end.
Proof.
  revert k b. induction l1 as [|s l1 IH]; intros k b; cbn.
  - by rewrite Nat.add_0_r.
  - unfold mbind, botM_bind.
    destruct (check_symbol _ _ _ _ _ _ _) as [[[]|e] b1]; [|done].
    rewrite IH. by rewrite Nat.add_succ_r.
Qed.

Lemma for_symbols_trace c ios k l b b' :
  for_symbols c ios k l b = (Ok (), b') →
  requests b' = requests b ++ l ∧ state_file b' = state_file b
  ∧ errors b' = errors b.
Proof.
  revert k b. induction l as [|s l IH]; intros k b; cbn.
  - intros [= <-]. by rewrite app_nil_r.
  - unfold mbind, botM_bind.
    pose proof (check_symbol_trace (ios k) s (interval c) (period c)
                  (PFloat (oversold c)) (PFloat (overbought c)) b) as (H1 & H2 & H3).
    destruct (check_symbol _ _ _ _ _ _ _) as [[[]|e] b1]; [|done].
    cbn in *. intros (G1 & G2 & G3)%IH.
    rewrite G1, G2, G3, H1, H2, H3, <- app_assoc. done.
Qed.

(** C3, amended: when [check_symbol] raises for a symbol, the cycle stops
    there: the symbols after it are not requested, [save_state] is not
    called (the state file is what it was), the exception is logged, and
    the dict in memory keeps what was written so far. *)
Theorem cycle_stops_at_first_failure (c : config) (ios : nat → io)
    (b b1 b2 : bot) (pre post : list string) (symbol : string) (e : exn) :
  symbols c = pre ++ symbol :: post →
  for_symbols c ios 0 pre b = (Ok (), b1) →
  check_symbol (ios (length pre)) symbol (interval c) (period c)
               (PFloat (oversold c)) (PFloat (overbought c)) b1
  = (Raise e, b2) →
  let b' := cycle c ios b in
  requests b' = requests b ++ pre ++ [symbol]
  ∧ state_file b' = state_file b
  ∧ errors b' = errors b ++ [e]
  ∧ state b' = state b2 ∧ alerts b' = alerts b2.
Proof.
  intros Hs Hpre Hsym b'. subst b'. unfold cycle.
  unfold mbind, botM_bind. rewrite Hs, for_symbols_app, Hpre. cbn.
  unfold mbind, botM_bind. rewrite Hsym. cbn.
  apply for_symbols_trace in Hpre as (H1 & H2 & H3).
  pose proof (check_symbol_trace (ios (length pre)) symbol (interval c)
                (period c) (PFloat (oversold c)) (PFloat (overbought c)) b1)
    as (G1 & G2 & G3).
  rewrite Hsym in G1, G2, G3. cbn in *.
  rewrite G1, G2, G3, H1, H2, H3, <- app_assoc. done.
Qed.

(** X12: when [check_symbol] returns for every symbol, the cycle requests
    all of them in the configured order, writes the dedup state of the end
    of the cycle to the state file and logs nothing. *)
Lemma cycle_completes (c : config) (ios : nat → io) (b b1 : bot) :
  for_symbols c ios 0 (symbols c) b = (Ok (), b1) →
  let b' := cycle c ios b in
  requests b' = requests b ++ symbols c
  ∧ state_file b' = Some (state b1) ∧ state b' = state b1
  ∧ errors b' = errors b.
Proof.
  intros H b'. subst b'. unfold cycle, mbind, botM_bind. rewrite H. cbn.
  apply for_symbols_trace in H as (H1 & H2 & H3). done.
Qed.

(** C3, as stated, fails: with three symbols and a failing request for
    the second, the third is never requested and the state file is not
    written, although the alert of the first one was recorded in memory. *)
Lemma failure_aborts_cycle :
  let b' := cycle three_symbols second_fails fresh in
  requests b' = ["AAA"; "BBB"]
  ∧ errors b' = [RequestException]
  ∧ last_alert_time "last_oversold" "AAA" b' = Some 3
  ∧ state_file b' = None.
Proof. by vm_compute. Qed.

Lemma cycle_stops_at_first_failure_witness :
  let b' := cycle three_symbols second_fails fresh in
  requests b' = requests fresh ++ ["AAA"] ++ ["BBB"]
  ∧ state_file b' = state_file fresh
  ∧ errors b' = errors fresh ++ [RequestException].
Proof.
  pose (b1 := (for_symbols three_symbols second_fails 0 ["AAA"] fresh).2).
  pose (b2 := (check_symbol (second_fails 1) "BBB" "15m" 1 (PFloat F30)
                            (PFloat F70) b1).2).
  destruct (cycle_stops_at_first_failure three_symbols second_fails fresh
              b1 b2 ["AAA"] ["CCC"] "BBB" RequestException)
    as (H1 & H2 & H3 & _); [reflexivity|by vm_compute|by vm_compute|].
  by split_and!.
Defined.

Lemma oversold_alert_on_crossing_witness :
  let run := evaluate exchange_up "AAA" "15m" (PFloat F30) (PFloat F70)
                      (Some (PFloat F28)) (Some (PFloat F35)) 3 (PFloat F1)
                      fresh in
  fires OVERSOLD fresh run.2
  ∧ last_alert_time "last_oversold" "AAA" run.2 = Some 3.
Proof.
  intros run.
  destruct (oversold_alert_on_crossing exchange_up "AAA" "15m" (PFloat F30)
              (PFloat F70) (PFloat F28) (PFloat F35) 3 (PFloat F1) fresh)
    as (Hiff & Hset & _).
  assert (fires OVERSOLD fresh run.2) as Hf.
  { apply Hiff. split_and!; [reflexivity|reflexivity|].
    intros H; vm_compute in H; discriminate H. }
  split; [exact Hf|]. apply Hset; [exact Hf|reflexivity].
Defined.


Lemma overbought_alert_leaves_oversold_field_witness :
  let b' := (evaluate exchange_up "AAA" "15m" (PFloat F30) (PFloat F70)
                      (Some (PFloat F71)) (Some (PFloat F69)) 3 (PFloat F1)
                      fresh).2 in
  new_alerts fresh b'
  = [alert_of "AAA" "15m" OVERBOUGHT (PFloat F71) (PFloat F1) 3]
  ∧ last_alert_time "last_oversold" "AAA" b' = None.
Proof.
  apply (overbought_alert_leaves_oversold_field exchange_up "AAA" "15m" 3
           (PFloat F1) fresh).
  intros H; vm_compute in H; discriminate H.
Defined.

Lemma check_symbol_touches_one_entry_witness :
  let b := (check_symbol exchange_up "AAA" "15m" 1 (PFloat F30) (PFloat F70)
                         fresh).2 in
  let b' := (check_symbol exchange_up "BBB" "15m" 1 (PFloat F30) (PFloat F70)
                          b).2 in
  state b' !! "AAA" = state b !! "AAA".
Proof.
  intros b b'.
  apply (check_symbol_touches_one_entry exchange_up "BBB" "15m" 1
           (PFloat F30) (PFloat F70) b).
  intros H; discriminate H.
Defined.

(* ===================================================================== *)
(** * More on [compute_rsi] *)
(* ===================================================================== *)

Lemma py_truediv_is_float x y r :
  py_truediv x y = Ok r → ∃ f, r = PFloat f.
Proof.
  unfold py_truediv.
  destruct x as [a|a], y as [b|b]; cbn [to_float mbind result_bind].
  - destruct (b =? 0); [done|]. destruct (a =? 0); [intros [= <-]; by eexists|].
    destruct (fdiv _ _); try done; intros [= <-]; by eexists.
  - destruct (float_of_int a); cbn [mbind result_bind]; [|done].
    destruct (is_zero b); [done|]. intros [= <-]; by eexists.
  - destruct (float_of_int b) as [fb|]; cbn [mbind result_bind]; [|done].
    destruct (is_zero fb); [done|]. intros [= <-]; by eexists.
  - destruct (is_zero b); [done|]. intros [= <-]; by eexists.
Qed.

Lemma rsi_of_averages_is_float g l r :
  rsi_of_averages g l = Ok r → ∃ f, r = PFloat f.
Proof.
  unfold rsi_of_averages. destruct (py_eq l (PInt 0)).
  { intros [= <-]. by eexists. }
  destruct (py_truediv g l) as [rs|] eqn:E1; cbn [mbind result_bind]; [|done].
  apply py_truediv_is_float in E1 as [f1 ->].
  cbn [py_add to_float mbind result_bind].
  change (float_of_int 1) with (Ok F1). cbn [mbind result_bind].
  destruct (py_truediv _ _) as [q|] eqn:E2; cbn [mbind result_bind]; [|done].
  apply py_truediv_is_float in E2 as [f2 ->].
  intros [= <-]. by eexists.
Qed.

(** What [compute_rsi] returns, when it returns: [None] on a short window
    only, and a float otherwise. *)
Lemma compute_rsi_result closes period r :
  compute_rsi closes period = Ok r →
  match r with
  | None => py_len closes < period + 1
  | Some v => period + 1 ≤ py_len closes ∧ ∃ f, v = PFloat f
  end.
Proof.
  unfold compute_rsi. destruct (Z.ltb_spec (py_len closes) (period + 1)).
  { by intros [= <-]. }
  destruct (mapM _ _) as [deltas|]; rsimpl; [|intros [=]].
  change (fun d => py_max d (PInt 0)) with gain.
  change (fun d => py_max (py_neg d) (PInt 0)) with loss.
  destruct (py_sum (py_slice_to (gain <$> deltas) period)) as [sg|]; rsimpl;
    [|intros [=]].
  destruct (py_truediv sg _) as [ag|]; rsimpl; [|intros [=]].
  destruct (py_sum (py_slice_to (loss <$> deltas) period)) as [sl|]; rsimpl;
    [|intros [=]].
  destruct (py_truediv sl _) as [al|]; rsimpl; [|intros [=]].
  destruct (foldM _ _ _) as [[ag' al']|]; rsimpl; [|intros [=]].
  cbn [fst snd].
  assert ((if py_eq al' (PInt 0) then Ok (Some (PFloat F100))
           else rs ← py_truediv ag' al'; d ← py_add (PInt 1) rs;
                q ← py_truediv (PInt 100) d; r ← py_sub (PInt 100) q;
                Ok (Some r))
          = Some <$> rsi_of_averages ag' al') as ->.
  { unfold rsi_of_averages. destruct (py_eq al' (PInt 0)); [done|].
    destruct (py_truediv ag' al') as [rs|]; rsimpl; [|done].
    destruct (py_add (PInt 1) rs) as [d|]; rsimpl; [|done].
    destruct (py_truediv (PInt 100) d) as [q|]; rsimpl; [|done].
    by destruct (py_sub (PInt 100) q). }
  destruct (rsi_of_averages ag' al') as [v|] eqn:E; rsimpl; [|intros [=]].
  intros [= <-]. split; [done|]. by eapply rsi_of_averages_is_float.
Qed.

Lemma compute_rsi_zero_period (closes : list float) :
  closes ≠ [] →
  compute_rsi (PFloat <$> closes) 0 = Raise ZeroDivisionError.
Proof.
  intros Hne. destruct closes as [|x l]; [done|].
  unfold compute_rsi. rewrite py_len_fmap.
  rewrite (proj2 (Z.ltb_ge _ _)) by (unfold py_len; cbn [length]; lia).
  unfold py_range.
  replace (py_len (x :: l) - 1) with (py_len (PFloat <$> l))
    by (rewrite py_len_fmap; unfold py_len; cbn [length]; lia).
  pose proof (deltas_differences [] (PFloat x) (PFloat <$> l)) as Hdl.
  change (py_len [] + 1) with 1 in Hdl.
  change ([] ++ PFloat x :: (PFloat <$> l)) with (PFloat <$> x :: l) in Hdl.
  change (PFloat x :: (PFloat <$> l)) with (PFloat <$> x :: l) in Hdl.
  rewrite Hdl, differences_floats. done.
Qed.

(** X1: with [period = 0], [compute_rsi] raises [ZeroDivisionError] on
    every non-empty list of floats: the guard lets the list through and
    the seed average divides an empty sum by zero. *)
Theorem compute_rsi_period_zero (closes : list float) :
  closes ≠ [] →
  compute_rsi (PFloat <$> closes) 0 = Raise ZeroDivisionError.
Proof. apply compute_rsi_zero_period. Qed.

Lemma compute_rsi_period_zero_witness :
  compute_rsi (PFloat <$> [F1; F2]) 0 = Raise ZeroDivisionError.
Proof. apply compute_rsi_period_zero. intros H; discriminate H. Defined.








Section Falling.
Variable period : Z.
Hypothesis period_pos : 0 < period.
Hypothesis period_max : period ≤ PY_SSIZE_T_MAX.




End Falling.




(** The other two outcomes do happen: a loss small enough for the
    average to round to zero gives 100.0 to a falling window, and an
    infinite loss with [period = 1] gives NaN. *)
Lemma downtrend_can_give_100 :
  compute_rsi (PFloat <$> [TINY; F0; F0; F0]) 3 = Ok (Some (PFloat F100)).
Proof. by vm_compute. Qed.

Lemma downtrend_can_give_nan :
  compute_rsi (PFloat <$> [BIG; fneg BIG; fneg BIG]) 1
  = Ok (Some (PFloat S754_nan)).
Proof. by vm_compute. Qed.


(* ===================================================================== *)
(** * More on [check_symbol] *)
(* ===================================================================== *)

Lemma extract_closed_closes_filter now ks :
  extract_closed_closes now ks
  = (PFloat <$> (close <$> filter (closed now) ks),
     close_time <$> filter (closed now) ks).
Proof.
  unfold extract_closed_closes.
  enough (∀ a1 a2,
            fold_left
              (fun (acc : list pynum * list Z) k =>
                 if close_time k <=? now
                 then (acc.1 ++ [PFloat (close k)], acc.2 ++ [close_time k])
                 else acc) ks (a1, a2)
            = (a1 ++ (PFloat <$> (close <$> filter (closed now) ks)),
               a2 ++ (close_time <$> filter (closed now) ks))) as H
    by apply (H [] []).
  induction ks as [|k ks IH]; intros a1 a2.
  { cbn. by rewrite !app_nil_r. }
  cbn [fold_left]. rewrite filter_cons.
  destruct (Z.leb_spec (close_time k) now) as [Hk|Hk].
  - rewrite decide_True by done. cbn [fst snd]. rewrite IH.
    rewrite !fmap_cons, <- !app_assoc. done.
  - rewrite decide_False by (unfold closed; lia). apply IH.
Qed.

(** X3: [extract_closed_closes] keeps exactly the candles whose close
    time is not after [now_ms], in the order received: the two lists it
    returns are the prices and the close times of these candles, so they
    have the same length and stay aligned, and no time is in the future. *)
Theorem extract_closed_closes_closed (now : Z) (klines : list kline) :
  let (closes, times) := extract_closed_closes now klines in
  closes = PFloat <$> (close <$> filter (closed now) klines)
  ∧ times = close_time <$> filter (closed now) klines
  ∧ length closes = length times
  ∧ Forall (fun t => t ≤ now) times.
Proof.
  rewrite extract_closed_closes_filter. split_and!; [done|done| |].
  - by rewrite !length_fmap.
  - apply Forall_fmap, Forall_forall. intros k Hk.
    by apply list_elem_of_filter in Hk as [Hk _].
Qed.

Lemma check_symbol_fetch w symbol interval period oversold overbought b :
  check_symbol w symbol interval period oversold overbought b
  = match response w with
    | Ok klines =>
        after_fetch w symbol interval period oversold overbought klines
                    (add_request symbol b)
    | Raise e => (Raise e, add_request symbol b)
    end.
Proof.
  unfold check_symbol, mbind at 1, botM_bind, fetch_klines.
  by destruct (response w).
Qed.

(** X4: candles that have not closed never influence [check_symbol]:
    two answers of the exchange with the same closed candles give the same
    result and leave the same state, alerts included. *)
Theorem check_symbol_ignores_open_candles (w : io) (klines klines' : list kline)
    (symbol interval : string) (period : Z) (oversold overbought : pynum)
    (b : bot) :
  response w = Ok klines →
  filter (closed (now_ms w)) klines' = filter (closed (now_ms w)) klines →
  check_symbol (answering w klines') symbol interval period oversold
               overbought b
  = check_symbol w symbol interval period oversold overbought b.
Proof.
  intros Hr Hf. rewrite !check_symbol_fetch, Hr.
  unfold after_fetch, answering. cbn [response now_ms].
  rewrite !extract_closed_closes_filter, Hf. reflexivity.
Qed.

(** On floats, a long enough window and a positive period,
    [compute_rsi] raises nothing and returns a float. *)
Lemma compute_rsi_floats (closes : list float) (period : Z) :
  0 < period → period + 1 ≤ py_len closes →
  py_len closes ≤ PY_SSIZE_T_MAX →
  ∃ f, compute_rsi (PFloat <$> closes) period = Ok (Some (PFloat f)).
Proof.
  intros Hp Hlen Hmax.
  assert (period ≤ PY_SSIZE_T_MAX) as Hpm by lia.
  rewrite compute_rsi_unfold by (rewrite ?py_len_fmap; lia).
  rewrite differences_floats. cbn [mbind result_bind].
  destruct closes as [|x l]; [unfold py_len in Hlen; cbn in Hlen; lia|].
  pose proof (float_deltas_length x l) as Hdl.
  set (ds := float_deltas (x :: l)) in *.
  assert (Z.to_nat period ≤ length ds)%nat as Hle.
  { unfold py_len in Hlen. cbn [length] in Hlen. lia. }
  rewrite <- !fmap_take, <- !fmap_drop.
  assert (∀ f : pynum → pynum,
            py_len (f <$> (PFloat <$> take (Z.to_nat period) ds)) = period)
    as Hwin.
  { intros f. rewrite !py_len_fmap. unfold py_len. rewrite length_take. lia. }
  destruct (mean_window_nn period Hp Hpm _ (Hwin gain) (Forall_gain _))
    as (g & -> & Hg).
  destruct (mean_window_nn period Hp Hpm _ (Hwin loss) (Forall_loss _))
    as (lo & -> & Hlo).
  cbn [mbind result_bind].
  destruct (smoothing_nn period Hp Hpm (drop (Z.to_nat period) ds) g lo Hg Hlo)
    as (g' & l' & -> & Hg' & Hl').
  cbn [mbind result_bind fst snd].
  destruct (rsi_of_averages_range g' l' Hg' Hl') as (r & -> & Hr).
  by exists r.
Qed.

Lemma py_slice_to_floats (fs : list float) :
  py_slice_to (PFloat <$> fs) (-1)
  = PFloat <$> take (Z.to_nat (py_len fs - 1)) fs.
Proof.
  unfold py_slice_to. cbn [Z.ltb Z.compare]. rewrite py_len_fmap.
  rewrite fmap_take. f_equal. f_equal. lia.
Qed.

Lemma py_getitem_last {A} (l : list A) :
  l ≠ [] → ∃ x, py_getitem l (-1) = Ok x.
Proof.
  intros Hl. unfold py_getitem. cbn [Z.ltb Z.compare].
  assert (0 < py_len l) as Hn.
  { unfold py_len. destruct l; [done|cbn [length]; lia]. }
  rewrite (proj2 (Z.ltb_ge _ _)) by lia.
  destruct (lookup_lt_is_Some_2 l (Z.to_nat (-1 + py_len l))) as [x Hx].
  { unfold py_len in *. lia. }
  rewrite Hx. by exists x.
Qed.

Lemma evaluate_alerts w symbol interval oversold overbought cur prev t
    price b :
  let b' := (evaluate w symbol interval oversold overbought (Some cur)
                      (Some prev) t price b).2 in
  alerts b' = alerts b ++ new_alerts b b'.
Proof.
  intros b'. subst b'. rewrite evaluate_eq.
  pose proof (alerts_setdefault symbol b) as A0.
  set (b0 := (setdefault symbol b).2) in *.
  pose proof (block_alerts w symbol interval cur t price OVERSOLD
                (crossed_into oversold overbought prev cur OVERSOLD) b0)
    as A1.
  destruct (block _ _ _ _ _ _ OVERSOLD _ _) as [[[]|e1] b1];
    cbn [fst snd] in *.
  - pose proof (block_alerts w symbol interval cur t price OVERBOUGHT
                  (crossed_into oversold overbought prev cur OVERBOUGHT) b1)
      as A2.
    destruct (block _ _ _ _ _ _ OVERBOUGHT _ _) as [r2 b2];
      cbn [fst snd] in *.
    rewrite A2, A1, A0, <- app_assoc.
    symmetry. f_equal. apply new_alerts_app.
    by rewrite A2, A1, A0, <- app_assoc.
  - rewrite A1, A0. symmetry. f_equal. apply new_alerts_app.
    by rewrite A1, A0.
Qed.

Lemma py_getitem_last_inv {A} (l : list A) (x : A) :
  py_getitem l (-1) = Ok x → last l = Some x.
Proof.
  unfold py_getitem. cbn [Z.ltb Z.compare].
  destruct (Z.ltb_spec (-1 + py_len l) 0); [done|].
  destruct (l !! Z.to_nat (-1 + py_len l)) as [y|] eqn:E; [|done].
  intros [= <-]. rewrite last_lookup, <- E. f_equal.
  unfold py_len in *. lia.
Qed.

(** How [check_symbol] goes on once the request is answered: it returns
    at once, raises before touching anything, or evaluates two floats on
    the last closed candle. *)
Lemma after_fetch_cases w symbol interval period oversold overbought klines :
  let m := after_fetch w symbol interval period oversold overbought klines in
  let ks := filter (closed (now_ms w)) klines in
  (∀ b, m b = (Ok (), b))
  ∨ (∃ e, ∀ b, m b = (Raise e, b))
  ∨ (∃ cur prev k,
       compute_rsi (PFloat <$> (close <$> ks)) period
       = Ok (Some (PFloat cur))
       ∧ last ks = Some k
       ∧ ∀ b, m b = evaluate w symbol interval oversold overbought
                             (Some (PFloat cur)) (Some (PFloat prev))
                             (close_time k) (PFloat (close k)) b).
Proof.
  intros m ks. subst m. unfold after_fetch.
  rewrite extract_closed_closes_filter. fold ks.
  set (fs := close <$> ks).
  destruct (Z.ltb_spec (py_len (PFloat <$> fs)) (period + 2)) as [|Hlen];
    [by left|].
  right. unfold mbind, botM_bind, lift.
  destruct (compute_rsi (PFloat <$> fs) period) as [cr|e] eqn:Ec;
    [|left; by exists e].
  pose proof (compute_rsi_result _ _ _ Ec) as Hc.
  destruct cr as [cur|]; [|lia]. destruct Hc as [_ [cur' ->]].
  destruct (compute_rsi (py_slice_to _ _) period) as [pr|e] eqn:Ep;
    [|left; by exists e].
  apply compute_rsi_result in Ep.
  destruct pr as [prev|].
  2:{ rewrite py_slice_to_floats, !py_len_fmap in *.
      unfold py_len in *. rewrite length_take in Ep. lia. }
  destruct Ep as [_ [prev' ->]].
  destruct (py_getitem (close_time <$> ks) (-1)) as [t|e] eqn:Et;
    [|left; by exists e].
  destruct (py_getitem (PFloat <$> fs) (-1)) as [price|e] eqn:Ex;
    [|left; by exists e].
  destruct (readable_time t) as [[]|e]; [|left; by exists e].
  apply py_getitem_last_inv in Et, Ex. subst fs.
  rewrite !fmap_last in *.
  destruct (last ks) as [k|]; [|done].
  cbn in Et, Ex. injection Et as <-. injection Ex as <-.
  right. by exists cur', prev', k.
Qed.

(** X5: unless the exchange answers with at least [period + 2] closed
    candles, [check_symbol] changes nothing: on a failed request it raises
    the exception of the request, on a short window it returns, and in
    both cases no alert is sent and the dedup state is what it was. *)
Theorem check_symbol_without_data (w : io) (symbol interval : string)
    (period : Z) (oversold overbought : pynum) (b : bot) :
  (∀ klines, response w = Ok klines →
             py_len (filter (closed (now_ms w)) klines) < period + 2) →
  check_symbol w symbol interval period oversold overbought b
  = (match response w with Ok _ => Ok () | Raise e => Raise e end,
     add_request symbol b).
Proof.
  intros H. rewrite check_symbol_fetch.
  destruct (response w) as [klines|e]; [|done].
  specialize (H klines eq_refl). unfold after_fetch.
  rewrite extract_closed_closes_filter, !py_len_fmap.
  by rewrite (proj2 (Z.ltb_lt _ _) H).
Qed.

Lemma check_symbol_without_data_witness :
  check_symbol exchange_up "AAA" "15m" 14 (PFloat F30) (PFloat F70) fresh
  = (Ok (), add_request "AAA" fresh).
Proof.
  apply (check_symbol_without_data exchange_up "AAA" "15m" 14).
  intros klines [= <-]. reflexivity.
Defined.

(** X6: the guard [len(closes) < period + 2] is enough for what follows
    it: for a positive period, once it lets a window through, both calls
    of [compute_rsi] return a float (not [None], no exception) and both
    [[-1]] indexings succeed, on the close time and the price of the last
    closed candle. *)
Theorem window_guard_suffices (now : Z) (klines : list kline) (period : Z) :
  0 < period → py_len klines ≤ PY_SSIZE_T_MAX →
  let (closes, times) := extract_closed_closes now klines in
  period + 2 ≤ py_len closes →
  ∃ cur prev k,
    compute_rsi closes period = Ok (Some (PFloat cur))
    ∧ compute_rsi (py_slice_to closes (-1)) period = Ok (Some (PFloat prev))
    ∧ last (filter (closed now) klines) = Some k
    ∧ py_getitem times (-1) = Ok (close_time k)
    ∧ py_getitem closes (-1) = Ok (PFloat (close k)).
Proof.
  intros Hp Hmax. rewrite extract_closed_closes_filter.
  set (ks := filter (closed now) klines).
  assert (py_len ks ≤ PY_SSIZE_T_MAX) as Hks.
  { pose proof (length_filter (closed now) klines).
    unfold py_len in *. subst ks. lia. }
  rewrite !py_len_fmap. intros Hlen.
  destruct (compute_rsi_floats (close <$> ks) period) as [cur Hcur];
    [done|rewrite py_len_fmap; lia|by rewrite py_len_fmap|].
  rewrite py_slice_to_floats.
  destruct (compute_rsi_floats
              (take (Z.to_nat (py_len (close <$> ks) - 1)) (close <$> ks))
              period) as [prev Hprev]; [done| | |].
  1,2: unfold py_len in *; rewrite length_take, length_fmap; lia.
  destruct (py_getitem_last (close_time <$> ks)) as [t Ht].
  { intros E%(f_equal length). rewrite length_fmap in E.
    unfold py_len in *. cbn in E. lia. }
  destruct (py_getitem_last (PFloat <$> (close <$> ks))) as [price Hx].
  { intros E%(f_equal length). rewrite !length_fmap in E.
    unfold py_len in *. cbn in E. lia. }
  pose proof (py_getitem_last_inv _ _ Ht) as Lt.
  pose proof (py_getitem_last_inv _ _ Hx) as Lx.
  rewrite fmap_last in Lt. rewrite !fmap_last in Lx.
  destruct (last ks) as [k|]; [|done].
  cbn in Lt, Lx. injection Lt as <-. injection Lx as <-.
  by exists cur, prev, k.
Qed.

Lemma window_guard_suffices_witness :
  ∃ cur prev k,
    compute_rsi (PFloat <$> [F1; F2; F1]) 1 = Ok (Some (PFloat cur))
    ∧ compute_rsi (py_slice_to (PFloat <$> [F1; F2; F1]) (-1)) 1
      = Ok (Some (PFloat prev))
    ∧ last (filter (closed 10) dip) = Some k
    ∧ py_getitem [1; 2; 3] (-1) = Ok (close_time k)
    ∧ py_getitem (PFloat <$> [F1; F2; F1]) (-1) = Ok (PFloat (close k)).
Proof.
  apply (window_guard_suffices 10 dip 1); [reflexivity| |];
    intros H; discriminate H.
Defined.

(** X7: with [period = 0] and at least two closed candles,
    [check_symbol] raises [ZeroDivisionError] before it touches the
    state: the guard lets the window through and [compute_rsi] divides
    by the period. *)
Theorem check_symbol_period_zero (w : io) (klines : list kline)
    (symbol interval : string) (oversold overbought : pynum) (b : bot) :
  response w = Ok klines →
  2 ≤ py_len (filter (closed (now_ms w)) klines) →
  check_symbol w symbol interval 0 oversold overbought b
  = (Raise ZeroDivisionError, add_request symbol b).
Proof.
  intros Hr Hlen. rewrite check_symbol_fetch, Hr. unfold after_fetch.
  rewrite extract_closed_closes_filter, !py_len_fmap.
  rewrite (proj2 (Z.ltb_ge _ _)) by lia.
  unfold mbind, botM_bind, lift. rewrite compute_rsi_zero_period; [done|].
  intros E%(f_equal length). rewrite length_fmap in E.
  unfold py_len in *. cbn in E. lia.
Qed.

Lemma check_symbol_period_zero_witness :
  check_symbol exchange_up "AAA" "15m" 0 (PFloat F30) (PFloat F70) fresh
  = (Raise ZeroDivisionError, add_request "AAA" fresh).
Proof.
  apply (check_symbol_period_zero exchange_up dip); [reflexivity|].
  intros H; discriminate H.
Defined.

Lemma nan_not_crossed oversold overbought prev cur dir :
  is_nan cur = true ∨ is_nan prev = true →
  crossed_into oversold overbought (PFloat prev) (PFloat cur) dir = false.
Proof.
  assert (∀ x, py_compare (PFloat S754_nan) x = None) as H1.
  { by intros []. }
  assert (∀ x, py_compare x (PFloat S754_nan) = None) as H2.
  { intros [z|[]]; try done. }
  intros [H|H]; [destruct cur|destruct prev]; try done;
    destruct dir; cbn [crossed_into];
    unfold into_oversold, into_overbought, py_gt, py_ge, py_lt, py_le;
    rewrite ?H1, ?H2, ?andb_false_r; done.
Qed.

(** X8: when the current or the previous RSI is NaN, no alert is sent,
    whatever the thresholds and the dedup state: every comparison with
    NaN is false, and the evaluation only makes sure the symbol has an
    entry. *)
Theorem nan_rsi_never_alerts (w : io) (symbol interval : string)
    (oversold overbought : pynum) (cur prev : float) (t : Z) (price : pynum)
    (b : bot) :
  is_nan cur = true ∨ is_nan prev = true →
  evaluate w symbol interval oversold overbought (Some (PFloat cur))
           (Some (PFloat prev)) t price b
  = (Ok (), (setdefault symbol b).2).
Proof.
  intros Hnan. rewrite evaluate_eq.
  rewrite !(nan_not_crossed _ _ _ _ _ Hnan).
  rewrite block_quiet by done. by rewrite block_quiet.
Qed.

Lemma nan_rsi_never_alerts_witness :
  evaluate exchange_up "AAA" "15m" (PFloat F30) (PFloat F70)
           (Some (PFloat S754_nan)) (Some (PFloat F35)) 3 (PFloat F1) fresh
  = (Ok (), (setdefault "AAA" fresh).2).
Proof. apply nan_rsi_never_alerts. left. reflexivity. Defined.


Lemma check_symbol_ignores_open_candles_witness :
  check_symbol
    (answering exchange_up (dip ++ [ {| close_time := 11; close := F100 |} ]))
    "AAA" "15m" 1 (PFloat F30) (PFloat F70) fresh
  = check_symbol exchange_up "AAA" "15m" 1 (PFloat F30) (PFloat F70) fresh.
Proof.
  apply (check_symbol_ignores_open_candles exchange_up dip); reflexivity.
Defined.

Lemma check_symbol_settles w symbol interval period oversold overbought
    b b2 :
  let run := check_symbol w symbol interval period oversold overbought in
  (run b).1 = Ok () → state b2 !! symbol = state (run b).2 !! symbol →
  run b2 = (Ok (), add_request symbol b2).
Proof.
  intros run. subst run. rewrite !check_symbol_fetch.
  destruct (response w) as [klines|e]; [|done].
  destruct (after_fetch_cases w symbol interval period oversold overbought
              klines) as [H|[[e H]|(cur & prev & k & _ & _ & H)]];
    rewrite !H; [done|done|].
  intros Hok Hst.
  by apply (evaluate_again w symbol interval oversold overbought
              (PFloat cur) (PFloat prev) (close_time k) (PFloat (close k))
              (add_request symbol b)).
Qed.

(** X9: polling again on the same answer never alerts again: when a call
    of [check_symbol] has returned, the same call from the state it left
    returns too, sends no alert and leaves the dedup state as it is. *)
Theorem check_symbol_repeat (w : io) (symbol interval : string) (period : Z)
    (oversold overbought : pynum) (b : bot) :
  let run := check_symbol w symbol interval period oversold overbought in
  (run b).1 = Ok () →
  (run (run b).2).1 = Ok ()
  ∧ new_alerts (run b).2 (run (run b).2).2 = []
  ∧ state (run (run b).2).2 = state (run b).2.
Proof.
  intros run Hok.
  pose proof (check_symbol_settles w symbol interval period oversold
                overbought b (run b).2 Hok eq_refl) as H.
  cbv zeta in H. fold run in H. rewrite H.
  split_and!; [done| |done].
  apply new_alerts_app. cbn. by rewrite app_nil_r.
Qed.

Lemma check_symbol_repeat_witness :
  let run := check_symbol exchange_up "AAA" "15m" 1 (PFloat F30)
                          (PFloat F70) in
  new_alerts fresh (run fresh).2 ≠ []
  ∧ new_alerts (run fresh).2 (run (run fresh).2).2 = [].
Proof.
  intros run.
  destruct (check_symbol_repeat exchange_up "AAA" "15m" 1 (PFloat F30)
              (PFloat F70) fresh) as (_ & H & _); [by vm_compute|].
  split; [|exact H]. intros E; vm_compute in E; discriminate E.
Defined.

(** X10: the overbought block, on floats: an OVERBOUGHT alert is sent
    exactly when [previous_rsi < overbought], [current_rsi >= overbought]
    and the stored ["last_overbought"] differs from the close time of the
    last candle (the oversold block, which runs first, cannot have raised
    then, its condition being excluded); when the message is delivered,
    ["last_overbought"] is that close time afterwards. *)
Theorem overbought_alert_on_crossing (w : io) (symbol interval : string)
    (oversold overbought cur prev : float) (t : Z) (price : pynum) (b : bot) :
  let b' := (evaluate w symbol interval (PFloat oversold)
                      (PFloat overbought) (Some (PFloat cur))
                      (Some (PFloat prev)) t price b).2 in
  (fires OVERBOUGHT b b' ↔
     py_lt (PFloat prev) (PFloat overbought) = true
     ∧ py_ge (PFloat cur) (PFloat overbought) = true
     ∧ last_alert_time "last_overbought" symbol b ≠ Some t)
  ∧ (fires OVERBOUGHT b b' → delivers w →
     last_alert_time "last_overbought" symbol b' = Some t).
Proof.
  intros b'.
  destruct (evaluate_summary w symbol interval (PFloat oversold)
              (PFloat overbought) (PFloat cur) (PFloat prev) t price b)
    as (HA & _ & HO & _). fold b' in HA, HO.
  cbn [crossed_into] in HA, HO.
  pose proof (fires_app_cases OVERBOUGHT _ _ _ _ _ _ HA) as Hf.
  cbn [alert_of a_direction] in Hf.
  pose proof (crossings_exclusive oversold overbought prev cur) as Hx.
  assert (fired symbol t OVERBOUGHT
            (into_overbought (PFloat overbought) (PFloat prev) (PFloat cur))
            b = true →
          fired symbol t OVERSOLD
            (into_oversold (PFloat oversold) (PFloat prev) (PFloat cur))
            b = false) as Hex.
  { unfold fired. intros [H _]%andb_true_iff. rewrite H in Hx.
    rewrite andb_true_r in Hx. by rewrite Hx. }
  assert (fires OVERBOUGHT b b' ↔
          fired symbol t OVERBOUGHT
            (into_overbought (PFloat overbought) (PFloat prev) (PFloat cur))
            b = true) as Hiff.
  { rewrite Hf. split.
    - intros [[_ [=]]|[[_ H]%andb_true_iff _]]. done.
    - intros H. right. split; [|done]. by rewrite (Hex H), H. }
  split.
  - rewrite Hiff. unfold fired, into_overbought. cbn [dedup_key].
    rewrite !andb_true_iff, bool_decide_eq_true. intuition congruence.
  - intros Hfire Hd. apply Hiff in Hfire. rewrite HO.
    rewrite (Hex Hfire), Hfire. cbn. by rewrite Hd.
Qed.

Lemma overbought_alert_on_crossing_witness :
  let b' := (evaluate exchange_up "AAA" "15m" (PFloat F30) (PFloat F70)
                      (Some (PFloat F71)) (Some (PFloat F69)) 3 (PFloat F1)
                      fresh).2 in
  fires OVERBOUGHT fresh b'
  ∧ last_alert_time "last_overbought" "AAA" b' = Some 3.
Proof.
  intros b'.
  destruct (overbought_alert_on_crossing exchange_up "AAA" "15m" F30 F70
              F71 F69 3 (PFloat F1) fresh) as (Hiff & Hset).
  assert (fires OVERBOUGHT fresh b') as Hf.
  { apply Hiff. split_and!; [reflexivity|reflexivity|].
    intros H; vm_compute in H; discriminate H. }
  split; [exact Hf|]. apply Hset; [exact Hf|]. intros a. reflexivity.
Defined.


(* ===================================================================== *)
(** * More on the cycle *)
(* ===================================================================== *)

(** One call of [check_symbol] with float thresholds appends at most one
    alert. *)
Lemma check_symbol_alerts w symbol interval period (oversold overbought : float)
    b :
  ∃ l, alerts (check_symbol w symbol interval period (PFloat oversold)
                            (PFloat overbought) b).2 = alerts b ++ l
       ∧ (length l ≤ 1)%nat.
Proof.
  rewrite check_symbol_fetch.
  destruct (response w) as [klines|e];
    [|exists []; rewrite app_nil_r; split; [done|cbn; lia]].
  destruct (after_fetch_cases w symbol interval period (PFloat oversold)
              (PFloat overbought) klines)
    as [H|[[e H]|(cur & prev & k & _ & _ & H)]]; rewrite H;
    try (exists []; rewrite app_nil_r; split; [done|cbn; lia]).
  pose proof (evaluate_alerts w symbol interval (PFloat oversold)
                (PFloat overbought) (PFloat cur) (PFloat prev) (close_time k)
                (PFloat (close k)) (add_request symbol b)) as HA. cbn zeta in HA.
  eexists. split; [exact HA|].
  destruct (evaluate_summary w symbol interval (PFloat oversold)
              (PFloat overbought) (PFloat cur) (PFloat prev) (close_time k)
              (PFloat (close k)) (add_request symbol b)) as (-> & _).
  pose proof (crossings_exclusive oversold overbought prev cur) as Hx.
  unfold fired. cbn [crossed_into].
  destruct (into_oversold _ _ _), (into_overbought _ _ _); try done; cbn;
    repeat (destruct (bool_decide _); cbn); try lia;
    destruct (succeeded _); cbn; lia.
Qed.

Lemma for_symbols_alerts c ios k l b :
  ∃ new, alerts (for_symbols c ios k l b).2 = alerts b ++ new
         ∧ (length new ≤ length l)%nat.
Proof.
  revert k b. induction l as [|s l IH]; intros k b.
  { exists []. rewrite app_nil_r. split; [done|cbn; lia]. }
  cbn [for_symbols]. unfold mbind, botM_bind.
  destruct (check_symbol_alerts (ios k) s (interval c) (period c)
              (oversold c) (overbought c) b) as (l1 & H1 & Hl1).
  destruct (check_symbol _ _ _ _ _ _ _) as [[[]|e] b1]; cbn [snd] in *.
  - destruct (IH (S k) b1) as (l2 & H2 & Hl2).
    exists (l1 ++ l2). rewrite H2, H1, <- app_assoc. split; [done|].
    rewrite length_app. cbn [length]. lia.
  - exists l1. split; [done|]. cbn [length]. lia.
Qed.

(** X15: a cycle sends at most one alert for each configured symbol. *)
Theorem cycle_alerts_bounded (c : config) (ios : nat → io) (b : bot) :
  (length (new_alerts b (cycle c ios b)) ≤ length (symbols c))%nat.
Proof.
  unfold cycle, mbind, botM_bind.
  destruct (for_symbols_alerts c ios 0 (symbols c) b) as (new & H & Hn).
  destruct (for_symbols _ _ _ _ _) as [[[]|e] b1]; cbn [snd] in *;
    rewrite (new_alerts_app _ _ new); done.
Qed.

(** X13: whatever happens in a cycle, the symbols requested are a prefix
    of the configured list, in order, and the cycle ends in one of two
    ways: the state file holds the dedup state of the end of the cycle and
    nothing was logged, or the state file is untouched and exactly one
    error was logged. *)
Theorem cycle_outcome (c : config) (ios : nat → io) (b : bot) :
  let b' := cycle c ios b in
  (∃ asked, asked `prefix_of` symbols c ∧ requests b' = requests b ++ asked)
  ∧ ((state_file b' = Some (state b') ∧ errors b' = errors b)
     ∨ (state_file b' = state_file b ∧ ∃ e, errors b' = errors b ++ [e])).
Proof.
  cbn zeta. unfold cycle, mbind, botM_bind.
  assert (∀ l k b0 r b1, for_symbols c ios k l b0 = (r, b1) →
            (∃ asked, asked `prefix_of` l
                      ∧ requests b1 = requests b0 ++ asked)
            ∧ state_file b1 = state_file b0 ∧ errors b1 = errors b0) as H.
  { induction l as [|s l IH]; intros k b0 r b1.
    - intros [= <- <-]. split; [|done]. exists []. by rewrite app_nil_r.
    - cbn [for_symbols]. unfold mbind, botM_bind.
      pose proof (check_symbol_trace (ios k) s (interval c) (period c)
                    (PFloat (oversold c)) (PFloat (overbought c)) b0)
        as (H1 & H2 & H3).
      destruct (check_symbol _ _ _ _ _ _ _) as [[[]|e] b2]; cbn [snd] in *.
      + intros ((asked & Hp & Hr) & Hf & He)%IH.
        split; [|split; congruence]. exists (s :: asked).
        split; [by apply prefix_cons|].
        by rewrite Hr, H1, <- app_assoc.
      + intros [= <- <-]. split; [|done]. exists [s].
        split; [|done]. apply prefix_cons, prefix_nil. }
  destruct (for_symbols c ios 0 (symbols c) b) as [r b1] eqn:E.
  apply H in E as (Hreq & Hf & He).
  destruct r as [[]|e]; cbn.
  - split; [done|]. by left.
  - split; [done|]. right. split; [done|]. exists e. by rewrite He.
Qed.

#[local] Instance remembers_refl : Reflexive remembers.
Proof. intros b s d H. by exists d. Qed.

#[local] Instance remembers_trans : Transitive remembers.
Proof.
  intros b1 b2 b3 H12 H23 s d H.
  destruct (H12 s d H) as (d2 & H2 & Hd2).
  destruct (H23 s d2 H2) as (d3 & H3 & Hd3).
  exists d3. split; [done|]. by etrans.
Qed.

Lemma remembers_state b b' : state b' = state b → remembers b b'.
Proof. intros E s d H. exists d. by rewrite E. Qed.

Lemma remembers_setdefault symbol : preserves remembers (setdefault symbol).
Proof.
  intros b s d H. unfold setdefault. cbn.
  destruct (state b !! symbol) eqn:E; [by exists d|]. cbn.
  exists d. split; [|done].
  rewrite lookup_insert_ne; [done|]. intros ->. congruence.
Qed.

Lemma remembers_set_field symbol key v :
  preserves remembers (set_field symbol key v).
Proof.
  intros b s d H. unfold set_field. cbn.
  destruct (decide (s = symbol)) as [->|Hne].
  - exists (<[key := v]> d). rewrite lookup_alter_eq, H. split; [done|].
    rewrite dom_insert. set_solver.
  - exists d. by rewrite lookup_alter_ne.
Qed.

Lemma remembers_evaluate w symbol interval oversold overbought cur prev t
    price :
  preserves remembers
    (evaluate w symbol interval oversold overbought cur prev t price).
Proof.
  unfold evaluate, crossing, both, rsi_test.
  repeat first
    [ apply preserves_bind; [apply _| |intros ?]
    | apply preserves_if
    | apply preserves_ret, _
    | apply preserves_lift, _
    | apply remembers_setdefault
    | apply remembers_set_field
    | intros b; by apply remembers_state ].
Qed.

Lemma remembers_check_symbol w symbol interval period oversold overbought :
  preserves remembers
    (check_symbol w symbol interval period oversold overbought).
Proof.
  intros b. rewrite check_symbol_fetch.
  destruct (response w) as [klines|e]; [|by apply remembers_state].
  etrans; [apply (remembers_state b (add_request symbol b) eq_refl)|].
  unfold after_fetch. destruct (extract_closed_closes _ _) as [closes times].
  set (m := if _ <? _ then _ else _).
  enough (preserves remembers m) as H by apply H.
  subst m. apply preserves_if; [apply preserves_ret, _|].
  repeat (apply preserves_bind; [apply _|apply preserves_lift, _|]; intros ?).
  apply remembers_evaluate.
Qed.

Lemma remembers_for_symbols c ios k l :
  preserves remembers (for_symbols c ios k l).
Proof.
  revert k. induction l as [|s l IH]; intros k; cbn [for_symbols].
  - apply preserves_ret, _.
  - apply preserves_bind; [apply _|apply remembers_check_symbol|].
    intros _. apply IH.
Qed.

(** X14: a cycle never drops what is stored: a symbol that has an entry
    before the cycle has one after it, with at least the same fields. *)
Theorem cycle_never_forgets (c : config) (ios : nat → io) (b : bot)
    (symbol : string) (d : gmap string Z) :
  state b !! symbol = Some d →
  ∃ d', state (cycle c ios b) !! symbol = Some d' ∧ dom d ⊆ dom d'.
Proof.
  intros H. unfold cycle, mbind, botM_bind.
  pose proof (remembers_for_symbols c ios 0 (symbols c) b symbol d H)
    as (d' & H' & Hd).
  destruct (for_symbols _ _ _ _ _) as [[[]|e] b1]; cbn in *; by exists d'.
Qed.

Lemma cycle_never_forgets_witness :
  let b := cycle three_symbols second_fails fresh in
  ∃ d', state (cycle three_symbols second_fails b) !! "AAA" = Some d'
        ∧ dom ({["last_oversold" := 3]} : gmap string Z) ⊆ dom d'.
Proof.
  intros b.
  apply (cycle_never_forgets three_symbols second_fails b "AAA").
  by vm_compute.
Defined.

Lemma for_symbols_other c ios k l b s :
  s ∉ l → state (for_symbols c ios k l b).2 !! s = state b !! s.
Proof.
  revert k b. induction l as [|x l IH]; intros k b Hs; [done|].
  apply not_elem_of_cons in Hs as [Hne Hs].
  cbn [for_symbols]. unfold mbind, botM_bind.
  destruct (untouched_check_symbol (ios k) x (interval c) (period c)
              (PFloat (oversold c)) (PFloat (overbought c)) b) as (H1 & _).
  destruct (check_symbol _ _ _ _ _ _ _) as [[[]|e] b1]; cbn [snd] in *.
  - rewrite IH by done. by apply H1.
  - by apply H1.
Qed.

Lemma add_requests_cons s l b :
  add_requests l (add_request s b) = add_requests (s :: l) b.
Proof. unfold add_requests. cbn. by rewrite <- app_assoc. Qed.

(** A pass that returned leaves entries on which the same pass, with the
    same answers, only makes its requests. *)
Lemma for_symbols_settled c ios k l b bn b2 :
  NoDup l → for_symbols c ios k l b = (Ok (), bn) →
  (∀ s, s ∈ l → state b2 !! s = state bn !! s) →
  for_symbols c ios k l b2 = (Ok (), add_requests l b2).
Proof.
  revert k b b2. induction l as [|s l IH]; intros k b b2 Hnd Hrun Hst.
  { unfold add_requests. cbn. rewrite app_nil_r. by destruct b2. }
  apply NoDup_cons in Hnd as [Hs Hnd].
  cbn [for_symbols] in *. unfold mbind, botM_bind in *.
  pose proof (check_symbol_settles (ios k) s (interval c) (period c)
                (PFloat (oversold c)) (PFloat (overbought c)) b b2) as Hset.
  cbv zeta in Hset.
  destruct (check_symbol (ios k) s _ _ _ _ b) as [[[]|e] b1] eqn:E1;
    [|done]. cbn [fst snd] in Hset.
  rewrite Hset; [|done|].
  - rewrite (IH (S k) b1 (add_request s b2) Hnd Hrun).
    + by rewrite add_requests_cons.
    + intros s' Hs'. cbn. apply Hst. by right.
  - rewrite Hst by (by left).
    pose proof (for_symbols_other c ios (S k) l b1 s Hs) as Ho.
    by rewrite Hrun in Ho.
Qed.

(** X16: when the symbols are distinct and a cycle went through without
    an exception, a second cycle on the same answers of the exchange only
    repeats the requests: no alert, the same dedup state, the same state
    file, nothing logged. *)
Theorem cycle_repeat (c : config) (ios : nat → io) (b b1 : bot) :
  NoDup (symbols c) →
  for_symbols c ios 0 (symbols c) b = (Ok (), b1) →
  cycle c ios (cycle c ios b) = add_requests (symbols c) (cycle c ios b).
Proof.
  intros Hnd Hrun.
  assert (cycle c ios b = (save_state b1).2) as ->.
  { unfold cycle, mbind, botM_bind. by rewrite Hrun. }
  unfold cycle, mbind, botM_bind.
  by rewrite (for_symbols_settled c ios 0 (symbols c) b b1 _ Hnd Hrun).
Qed.

Lemma cycle_repeat_witness :
  let b' := cycle three_symbols always_up fresh in
  alerts b' ≠ []
  ∧ cycle three_symbols always_up b'
    = add_requests ["AAA"; "BBB"; "CCC"] b'.
Proof.
  intros b'. split; [intros E; vm_compute in E; discriminate E|].
  apply (cycle_repeat three_symbols always_up fresh
           (for_symbols three_symbols always_up 0 ["AAA"; "BBB"; "CCC"]
                        fresh).2).
  - apply (bool_decide_unpack _). vm_compute. exact I.
  - by vm_compute.
Defined.

Lemma cycle_completes_witness :
  let b' := cycle three_symbols always_up fresh in
  requests b' = ["AAA"; "BBB"; "CCC"]
  ∧ state_file b' = Some (state b') ∧ errors b' = [].
Proof.
  intros b'.
  destruct (cycle_completes three_symbols always_up fresh
              (for_symbols three_symbols always_up 0 ["AAA"; "BBB"; "CCC"]
                           fresh).2) as (H1 & H2 & H3 & H4);
    [by vm_compute|].
  fold b' in H1, H2, H3, H4. rewrite H3. done.
Defined.


(* ===================================================================== *)
(** * [parse_symbols] *)
(* ===================================================================== *)

Lemma upper_char_not_lower c : islower (upper_char c) = false.
Proof.
  destruct c as [[] [] [] [] [] [] [] []]; vm_compute; reflexivity.
Qed.

Lemma upper_char_not_comma c : c ≠ ","%char → upper_char c ≠ ","%char.
Proof.
  destruct c as [[] [] [] [] [] [] [] []]; vm_compute; congruence.
Qed.

Lemma upper_char_space c : isspace (upper_char c) = isspace c.
Proof.
  destruct c as [[] [] [] [] [] [] [] []]; vm_compute; reflexivity.
Qed.

Lemma upper_char_id c : islower c = false → upper_char c = c.
Proof. unfold upper_char. by intros ->. Qed.

Lemma chars_upper s : chars (upper s) = upper_char <$> chars s.
Proof. induction s as [|c s IH]; [done|]. cbn. by rewrite IH. Qed.

Lemma lstrip_suffix s : chars (lstrip s) `suffix_of` chars s.
Proof.
  induction s as [|c s IH]; [done|]. cbn. destruct (isspace c); [|done].
  by apply suffix_cons_r.
Qed.

Lemma lstrip_head s c :
  head (chars (lstrip s)) = Some c → isspace c = false.
Proof.
  induction s as [|a s IH]; [done|]. cbn.
  destruct (isspace a) eqn:E; [done|]. cbn. by intros [= <-].
Qed.

Lemma lstrip_id s :
  (∀ c, head (chars s) = Some c → isspace c = false) → lstrip s = s.
Proof. destruct s as [|a s]; [done|]. cbn. intros H. by rewrite (H a). Qed.

Lemma rstrip_cons a s :
  rstrip (String a s)
  = if decide (rstrip s = EmptyString)
    then (if isspace a then EmptyString else String a EmptyString)
    else String a (rstrip s).
Proof. cbn. by destruct (rstrip s). Qed.

Lemma rstrip_prefix s : chars (rstrip s) `prefix_of` chars s.
Proof.
  induction s as [|a s IH]; [done|]. rewrite rstrip_cons.
  destruct (decide _).
  - destruct (isspace a); [apply prefix_nil|].
    cbn. apply prefix_cons, prefix_nil.
  - cbn. by apply prefix_cons.
Qed.

Lemma rstrip_last s c :
  last (chars (rstrip s)) = Some c → isspace c = false.
Proof.
  induction s as [|a s IH]; [done|]. rewrite rstrip_cons.
  destruct (decide _) as [E|E].
  - destruct (isspace a) eqn:Ea; [done|]. cbn. by intros [= <-].
  - cbn [chars]. destruct (rstrip s) as [|b r] eqn:Er; [done|].
    cbn [chars] in *. rewrite last_cons_cons. apply IH.
Qed.

Lemma rstrip_head s c :
  head (chars (rstrip s)) = Some c → head (chars s) = Some c.
Proof.
  pose proof (rstrip_prefix s) as [k Hk]. rewrite Hk.
  by destruct (chars (rstrip s)).
Qed.

Lemma rstrip_id s :
  (∀ c, last (chars s) = Some c → isspace c = false) → rstrip s = s.
Proof.
  induction s as [|a s IH]; [done|]. intros H. rewrite rstrip_cons.
  destruct s as [|b s].
  { cbn. by rewrite (H a). }
  rewrite IH.
  - by rewrite decide_False.
  - intros c Hc. apply H. cbn [chars] in *. by rewrite last_cons_cons.
Qed.

Lemma upper_id s :
  Forall (fun c => islower c = false) (chars s) → upper s = s.
Proof.
  induction s as [|a s IH]; [done|]. cbn. intros [Ha Hs]%Forall_cons.
  by rewrite upper_char_id, IH.
Qed.

Lemma split_no_sep sep s :
  Forall (fun x => sep ∉ chars x) (split sep s).
Proof.
  induction s as [|c s IH]; cbn -[Ascii.eqb].
  { repeat constructor. by intros ?%elem_of_nil. }
  destruct (Ascii.eqb_spec c sep) as [->|Hne].
  - constructor; [|done]. by intros ?%elem_of_nil.
  - destruct (split sep s) as [|x l]; cbn.
    + repeat constructor. intros [?|?%elem_of_nil]%elem_of_cons; congruence.
    + apply Forall_cons in IH as [Hx Hl]. constructor; [|done].
      cbn. intros [?|?]%elem_of_cons; [congruence|done].
Qed.

Lemma split_nonempty sep s : split sep s ≠ [].
Proof.
  destruct s as [|c s]; [done|]. cbn -[Ascii.eqb].
  destruct (Ascii.eqb c sep); [done|]. by destruct (split sep s).
Qed.

Lemma split_single sep x : sep ∉ chars x → split sep x = [x].
Proof.
  induction x as [|c x IH]; [done|]. cbn -[Ascii.eqb]. intros H.
  destruct (Ascii.eqb_spec c sep) as [->|Hne].
  { exfalso. apply H. by left. }
  rewrite IH; [done|]. intros ?. apply H. by right.
Qed.

Lemma split_join_cons sep x rest :
  sep ∉ chars x →
  split sep (x +:+ String sep rest) = x :: split sep rest.
Proof.
  induction x as [|c x IH].
  { intros _. change (EmptyString +:+ String sep rest) with (String sep rest).
    cbn -[Ascii.eqb]. by rewrite Ascii.eqb_refl. }
  change (String c x +:+ String sep rest)
    with (String c (x +:+ String sep rest)).
  cbn -[Ascii.eqb].
  intros H. destruct (Ascii.eqb_spec c sep) as [->|Hne].
  { exfalso. apply H. by left. }
  rewrite IH; [done|]. intros ?. apply H. by right.
Qed.

Lemma split_join sep l :
  l ≠ [] → Forall (fun x => sep ∉ chars x) l → split sep (join sep l) = l.
Proof.
  induction l as [|x l IH]; [done|]. intros _ [Hx Hl]%Forall_cons.
  destruct l as [|y l]; [by apply split_single|].
  change (join sep (x :: y :: l))
    with (x +:+ String sep (join sep (y :: l))).
  rewrite split_join_cons by done. f_equal. by apply IH.
Qed.

Lemma strip_is_symbol x :
  ","%char ∉ chars x → strip x ≠ EmptyString → is_symbol (upper (strip x)).
Proof.
  intros Hc Hne. unfold is_symbol. cbv zeta. rewrite chars_upper.
  assert (∀ c, c ∈ chars (strip x) → c ∈ chars x) as Hsub.
  { intros c Hin. unfold strip in Hin.
    destruct (rstrip_prefix (lstrip x)) as [k1 H1].
    destruct (lstrip_suffix x) as [k2 H2].
    rewrite H2, H1. apply elem_of_app. right. apply elem_of_app. by left. }
  split_and!.
  - destruct (strip x); [done|]. done.
  - intros c.
    destruct (chars (strip x)) as [|a cs] eqn:E; cbn; [done|].
    intros [= <-]. rewrite upper_char_space.
    assert (head (chars (strip x)) = Some a) as Ha by (by rewrite E).
    apply rstrip_head in Ha. by apply lstrip_head in Ha.
  - intros c. rewrite fmap_last.
    destruct (last (chars (strip x))) as [a|] eqn:E; cbn; [|done].
    intros [= <-]. rewrite upper_char_space. by apply rstrip_last in E.
  - apply Forall_fmap, Forall_forall. intros c Hin. cbn. split.
    + apply upper_char_not_comma. intros ->. by apply Hc, Hsub.
    + apply upper_char_not_lower.
Qed.

Lemma is_symbol_fixed x :
  is_symbol x →
  strip x = x ∧ x ≠ EmptyString ∧ upper x = x ∧ ","%char ∉ chars x.
Proof.
  intros (Hne & Hh & Hl & Hall). split_and!.
  - unfold strip. rewrite (lstrip_id x Hh). by apply rstrip_id.
  - by intros ->.
  - apply upper_id. eapply Forall_impl; [exact Hall|]. by intros c [_ ?].
  - intros Hin. rewrite Forall_forall in Hall. by destruct (Hall _ Hin).
Qed.

(** X17: on ASCII text, every symbol [parse_symbols] returns is
    non-empty, has no white space at either end, no comma and no
    lower-case letter. *)
Theorem parse_symbols_symbols (symbols_str : string) :
  ascii_only symbols_str →
  Forall is_symbol (parse_symbols symbols_str).
Proof.
  intros _. unfold parse_symbols. apply Forall_fmap, Forall_forall.
  intros x [Hx Hin]%list_elem_of_filter. cbn.
  apply strip_is_symbol; [|done].
  pose proof (split_no_sep "," symbols_str) as H.
  rewrite Forall_forall in H. by apply H.
Qed.

(** X18: [parse_symbols] reads back a list of symbols in that form from
    their comma-separated text: [parse_symbols(",".join(l)) == l]. *)
Theorem parse_symbols_join (l : list string) :
  Forall ascii_only l → Forall is_symbol l →
  parse_symbols (join "," l) = l.
Proof.
  intros _ Hl. unfold parse_symbols.
  destruct l as [|x l]; [done|].
  rewrite split_join; [|done|].
  2:{ eapply Forall_impl; [exact Hl|]. intros y Hy.
      by apply is_symbol_fixed in Hy as (_ & _ & _ & ?). }
  set (l0 := x :: l) in *. clearbody l0.
  induction Hl as [|y l' Hy Hl' IH]; [done|].
  apply is_symbol_fixed in Hy as (Hs & Hne & Hu & _).
  rewrite filter_cons, decide_True by (by rewrite Hs).
  rewrite fmap_cons, Hs, Hu. by f_equal.
Qed.

Lemma parse_symbols_symbols_witness :
  Forall is_symbol (parse_symbols " btcusdt , ,ethUsdt,").
Proof.
  apply parse_symbols_symbols. unfold ascii_only. cbn [chars].
  repeat (constructor; [reflexivity|]). constructor.
Defined.

Lemma parse_symbols_join_witness :
  parse_symbols (join "," ["BTCUSDT"; "ETHUSDT"]) = ["BTCUSDT"; "ETHUSDT"].
Proof.
  apply parse_symbols_join.
  - repeat (constructor; [unfold ascii_only; cbn [chars];
                          repeat (constructor; [reflexivity|]); constructor|]).
    constructor.
  - repeat (constructor;
            [unfold is_symbol; cbn [chars]; split_and!;
             [discriminate
             |intros c [= <-]; reflexivity
             |intros c [= <-]; reflexivity
             |repeat (constructor; [split; [discriminate|reflexivity]|]);
              constructor]|]).
    constructor.
Defined.


(* ===================================================================== *)
(** * The notification channels *)
(* ===================================================================== *)

Section ChannelFacts.
Context {M : Type} (n : Channels.net M) (message : M).

Lemma send_telegram_eq (o : Channels.outbox M) :
  Channels.send_telegram n message o
  = match telegram_request n message with
    | [] => (Ok (), o)
    | rq :: _ =>
        match Channels.http n rq with
        | Ok r =>
            (Ok (),
             {| Channels.attempts := Channels.attempts o ++ [rq];
                Channels.log := Channels.log o ++ complaint n rq |})
        | Raise e => (Raise e, Channels.attempt rq o)
        end
    end.
Proof.
  unfold Channels.send_telegram, telegram_request, credential, complaint.
  destruct (Channels.env n "TELEGRAM_BOT_TOKEN") as [[|c1 s1]|];
    destruct (Channels.env n "TELEGRAM_CHAT_ID") as [[|c2 s2]|]; try done.
  cbv zeta. destruct (Channels.http n _) as [r|e]; [|done].
  f_equal. destruct (decide (Channels.status_code r = 200)) as [E|E].
  - rewrite bool_decide_eq_false_2, bool_decide_eq_true_2 by (by try intros []).
    unfold Channels.attempt. by rewrite app_nil_r.
  - by rewrite bool_decide_eq_true_2, bool_decide_eq_false_2.
Qed.

Lemma send_whatsapp_eq (o : Channels.outbox M) :
  Channels.send_whatsapp n message o
  = match whatsapp_request n message with
    | [] => (Ok (), o)
    | rq :: _ =>
        match Channels.http n rq with
        | Ok r =>
            (Ok (),
             {| Channels.attempts := Channels.attempts o ++ [rq];
                Channels.log := Channels.log o ++ complaint n rq |})
        | Raise e => (Raise e, Channels.attempt rq o)
        end
    end.
Proof.
  unfold Channels.send_whatsapp, whatsapp_request, credential, complaint.
  destruct (Channels.env n "CALLMEBOT_PHONE") as [[|c1 s1]|];
    destruct (Channels.env n "CALLMEBOT_APIKEY") as [[|c2 s2]|]; try done.
  cbv zeta. destruct (Channels.http n _) as [r|e]; [|done].
  f_equal. destruct (decide (Channels.status_code r = 200)) as [E|E].
  - rewrite bool_decide_eq_false_2, bool_decide_eq_true_2 by (by try intros []).
    unfold Channels.attempt. by rewrite app_nil_r.
  - by rewrite bool_decide_eq_true_2, bool_decide_eq_false_2.
Qed.

Lemma send_alert_answered (o : Channels.outbox M) :
  answered n →
  Channels.send_alert n message o
  = (Ok (),
     {| Channels.attempts :=
          Channels.attempts o
          ++ telegram_request n message ++ whatsapp_request n message;
        Channels.log :=
          Channels.log o ++ Channels.Alert message
          :: ((telegram_request n message ++ whatsapp_request n message)
              ≫= complaint n) |}).
Proof.
  intros Hans. unfold Channels.send_alert.
  rewrite send_telegram_eq.
  assert (∀ o1, Channels.send_whatsapp n message o1
                = (Ok (),
                   {| Channels.attempts :=
                        Channels.attempts o1 ++ whatsapp_request n message;
                      Channels.log :=
                        Channels.log o1
                        ++ (whatsapp_request n message ≫= complaint n) |}))
    as HW.
  { intros o1. rewrite send_whatsapp_eq.
    destruct (whatsapp_request n message) as [|rq l] eqn:E.
    { cbn. destruct o1. by rewrite !app_nil_r. }
    assert (l = []) as ->.
    { unfold whatsapp_request in E. repeat case_match; congruence. }
    destruct (Hans rq) as [r Hr]. rewrite Hr. cbn. by rewrite app_nil_r. }
  destruct (telegram_request n message) as [|rq l] eqn:E.
  { rewrite HW. cbn. by rewrite <- app_assoc. }
  assert (l = []) as ->.
  { unfold telegram_request in E. repeat case_match; congruence. }
  destruct (Hans rq) as [r Hr]. rewrite Hr, HW. cbn.
  by rewrite <- !app_assoc.
Qed.
End ChannelFacts.

(** X19: when each channel misses one of its two variables, or has it
    empty, [send_alert] logs the message, makes no request and returns. *)
Theorem send_alert_unconfigured {M : Type} (n : Channels.net M) (message : M)
    (o : Channels.outbox M) :
  credential n "TELEGRAM_BOT_TOKEN" = None
  ∨ credential n "TELEGRAM_CHAT_ID" = None →
  credential n "CALLMEBOT_PHONE" = None
  ∨ credential n "CALLMEBOT_APIKEY" = None →
  Channels.send_alert n message o
  = (Ok (), Channels.logging (Channels.Alert message) o).
Proof.
  intros HT HW. unfold Channels.send_alert.
  rewrite send_telegram_eq.
  assert (telegram_request n message = []) as ->.
  { unfold telegram_request. destruct HT as [->| ->]; [done|].
    by destruct (credential n "TELEGRAM_BOT_TOKEN"). }
  rewrite send_whatsapp_eq.
  assert (whatsapp_request n message = []) as ->.
  { unfold whatsapp_request. destruct HW as [->| ->]; [done|].
    by destruct (credential n "CALLMEBOT_PHONE"). }
  done.
Qed.

Lemma send_alert_unconfigured_witness :
  Channels.send_alert unconfigured "msg" nothing_sent
  = (Ok (), Channels.logging (Channels.Alert "msg") nothing_sent).
Proof. apply send_alert_unconfigured; left; reflexivity. Defined.

(** X20: when every request is answered, with whatever status,
    [send_alert] returns: it has tried Telegram, then WhatsApp, each if
    configured, with the message and the credentials of the environment,
    and has logged the message and one error line for each answer whose
    status is not 200. *)
Theorem send_alert_returns {M : Type} (n : Channels.net M) (message : M)
    (o : Channels.outbox M) :
  answered n →
  let requests := telegram_request n message ++ whatsapp_request n message in
  let r := Channels.send_alert n message o in
  r.1 = Ok ()
  ∧ Channels.attempts r.2 = Channels.attempts o ++ requests
  ∧ Channels.log r.2
    = Channels.log o ++ Channels.Alert message :: (requests ≫= complaint n).
Proof. intros H. cbv zeta. by rewrite send_alert_answered. Qed.

Lemma send_alert_returns_witness :
  let r := Channels.send_alert refusing "msg" nothing_sent in
  r.1 = Ok ()
  ∧ Channels.attempts r.2
    = [Channels.TelegramPost "T" "42" "msg";
       Channels.WhatsAppGet "+1" "K" "msg"]
  ∧ Channels.log r.2
    = [Channels.Alert "msg"; Channels.TelegramError "no";
       Channels.WhatsAppError "no"].
Proof.
  apply (send_alert_returns refusing "msg" nothing_sent).
  intros rq. by eexists.
Defined.

(** X21: when Telegram is configured and its request raises,
    [send_alert] raises the same exception and WhatsApp is not tried. *)
Theorem send_alert_telegram_raises {M : Type} (n : Channels.net M)
    (message : M) (o : Channels.outbox M) (token chat_id : string) (e : exn) :
  credential n "TELEGRAM_BOT_TOKEN" = Some token →
  credential n "TELEGRAM_CHAT_ID" = Some chat_id →
  Channels.http n (Channels.TelegramPost token chat_id message) = Raise e →
  Channels.send_alert n message o
  = (Raise e,
     Channels.attempt (Channels.TelegramPost token chat_id message)
       (Channels.logging (Channels.Alert message) o)).
Proof.
  intros Ht Hc He. unfold Channels.send_alert.
  rewrite send_telegram_eq. unfold telegram_request.
  by rewrite Ht, Hc, He.
Qed.

Lemma send_alert_telegram_raises_witness :
  Channels.send_alert unreachable "msg" nothing_sent
  = (Raise RequestException,
     Channels.attempt (Channels.TelegramPost "T" "42" "msg")
       (Channels.logging (Channels.Alert "msg") nothing_sent)).
Proof. by apply send_alert_telegram_raises. Defined.

(** X22: when every request of the channels is answered, every message
    [check_symbol] hands to [send_alert] is delivered: [send_alert]
    returns, so the dedup field is written after each alert. *)
Theorem channels_deliver (n : Channels.net alert)
    (answer : result (list kline)) (now : Z) :
  answered n → delivers (through n answer now).
Proof.
  intros H a. unfold through. cbn [deliver].
  by rewrite send_alert_answered.
Qed.

Lemma channels_deliver_witness : delivers (through accepting (Ok dip) 10).
Proof. apply channels_deliver. intros rq. by eexists. Defined.
